(** * groupBy (ps5.js): a shallow embedding and its verified properties

    The development embeds the [groupBy] helper of [src/ps5.js]:

    - JavaScript values, [ToString], property lookup, the insertion-ordered
      [Map], [Array.prototype.sort] with the default comparator and plain
      objects with their own-property enumeration order;
    - [groupBy] itself, first over immutable lists (module-level
      definitions), then over an explicit store of arrays and objects
      (module [Store]) to speak about mutation and aliasing;

    and, after it, the script of the page that uses it: the request
    addresses, the requests and their callbacks, the saved words and the
    listeners of the buttons and of the input (section "The page script").

    Scope of the model.  Numbers are the integer-valued ones (a [Z]); their
    string form is the exact decimal numeral, which is what
    [Number::toString] gives for the integers of magnitude below 2^53 and
    for no larger range: the properties that turn on the string form of a
    number key assume [safe_keys].  Strings are sequences of 8-bit code
    units, compared code unit by code unit as JavaScript compares UTF-16 code
    units.  Group keys and field values are primitives (no symbols, no
    objects), and a key selector is a function of the record it is given:
    it reads it and writes nothing.  Property lookup sees own properties
    only: what a record inherits from [Object.prototype] is not modelled,
    so a property about the key read under a field name assumes a name
    that is not inherited ([reads_own_fields]); of the prototype of the
    result only this is modelled, that assigning to [__proto__] creates no
    own property. *)

From Stdlib Require Import ZArith NArith Lia Bool Ascii String.
From Stdlib Require Import Sorted Permutation.
From Stdlib Require Import Decimal DecimalString DecimalN DecimalZ.
From stdpp Require Import base option list sorting strings gmap.

Local Open Scope string_scope.
Local Open Scope list_scope.

(** ** Values *)

(** Primitive values: what a key selector returns and what [Map] keys are. *)
Inductive prim : Type :=
  | PUndefined
  | PNull
  | PBool (b : bool)
  | PNum (n : Z)
  | PStr (s : string).

Global Instance prim_eq_dec : EqDecision prim.
Proof. solve_decision. Defined.

(** An element of the input array: a primitive, or a record, which is a
    finite map from field names to field values. *)
Inductive value : Type :=
  | VPrim (p : prim)
  | VObj (fields : gmap string prim).

Global Instance value_eq_dec : EqDecision value.
Proof. solve_decision. Defined.

(** ** Exceptions

    JavaScript code either returns or throws. *)
Inductive exn : Type :=
  | TypeError
  | UserError (msg : string).

Inductive res (A : Type) : Type :=
  | Ok (a : A)
  | Throw (e : exn).
Arguments Ok {A} a.
Arguments Throw {A} e.

Global Instance exn_eq_dec : EqDecision exn.
Proof. solve_decision. Defined.

Global Instance res_eq_dec {A} `{!EqDecision A} : EqDecision (res A).
Proof. solve_decision. Defined.

Global Instance res_ret : MRet res := λ A a, Ok a.
Global Instance res_bind : MBind res := λ A B f m,
  match m with
  | Ok a => f a
  | Throw e => Throw e
  end.

(** ** ToString and ToPropertyKey *)

Definition number_to_string (n : Z) : string :=
  NilZero.string_of_int (Z.to_int n).

Definition to_string (p : prim) : string :=
  match p with
  | PUndefined => "undefined"
  | PNull => "null"
  | PBool true => "true"
  | PBool false => "false"
  | PNum n => number_to_string n
  | PStr s => s
  end.

(** On the primitives of the model [ToPropertyKey] is [ToString]. *)
Definition to_property_key (p : prim) : string := to_string p.

(** An array index is the canonical decimal numeral of an integer in
    [0, 2^32 - 2]. *)
Definition array_index (s : string) : option N :=
  match NilZero.uint_of_string s with
  | Some d =>
      let n := N.of_uint d in
      if String.eqb (NilZero.string_of_uint (N.to_uint n)) s
         && (n <? 4294967295)%N
      then Some n else None
  | None => None
  end.

(** ** Property lookup: [obj[key]] *)

Definition string_get (s : string) (key : string) : prim :=
  if String.eqb key "length" then PNum (Z.of_nat (String.length s))
  else match array_index key with
       | Some i =>
           match String.get (N.to_nat i) s with
           | Some c => PStr (String c EmptyString)
           | None => PUndefined
           end
       | None => PUndefined
       end.

Definition get (obj : value) (key : string) : res prim :=
  match obj with
  | VPrim PUndefined | VPrim PNull => Throw TypeError
  | VPrim (PStr s) => Ok (string_get s key)
  | VPrim _ => Ok PUndefined
  | VObj fields => Ok (default PUndefined (fields !! key))
  end.

(** ** Insertion-ordered dictionaries

    A [Map] keeps its entries in insertion order and compares keys by
    SameValueZero, which is equality on the primitives of the model.  A plain
    object keeps its properties in creation order and compares property names
    as strings.  Both are dictionaries over a key type with decidable
    equality. *)
Definition dict (K V : Type) : Type := list (K * V).

Section dict.
Context {K : Type} `{!EqDecision K} {V : Type}.

Fixpoint dict_get (m : dict K V) (k : K) : option V :=
  match m with
  | [] => None
  | (k', v) :: m' => if decide (k' = k) then Some v else dict_get m' k
  end.

Definition dict_has (m : dict K V) (k : K) : bool :=
  bool_decide (is_Some (dict_get m k)).

(** [set] keeps the position of an existing key and appends a new one. *)
Fixpoint dict_set (m : dict K V) (k : K) (v : V) : dict K V :=
  match m with
  | [] => [(k, v)]
  | (k', v') :: m' =>
      if decide (k' = k) then (k', v) :: m' else (k', v') :: dict_set m' k v
  end.

Definition dict_keys (m : dict K V) : list K := m.*1.
End dict.

(** [Map]: [get], [has], [set], [keys]. *)
Abbreviation jsmap V := (dict prim V).
Abbreviation map_get := (dict_get (K:=prim)).
Abbreviation map_has := (dict_has (K:=prim)).
Abbreviation map_set := (dict_set (K:=prim)).
Abbreviation map_keys := (dict_keys (K:=prim)).

(** [m.get(k).push(x)]: the array stored under [k] grows in place; calling
    [push] on [undefined] throws. *)
Definition map_push {A} (m : jsmap (list A)) (k : prim) (x : A)
    : res (jsmap (list A)) :=
  match map_get m k with
  | Some arr => Ok (map_set m k (arr ++ [x]))
  | None => Throw TypeError
  end.

(** ** Array.prototype.sort with the default comparator *)

(** [SortCompare]: [undefined] goes last, everything else is compared by
    its string form. *)
Definition sort_compare (x y : prim) : comparison :=
  match x, y with
  | PUndefined, PUndefined => Eq
  | PUndefined, _ => Gt
  | _, PUndefined => Lt
  | _, _ => String.compare (to_string x) (to_string y)
  end.

(** The language fixes the outcome of [sort] for a consistent comparator:
    the stable sorted permutation.  Insertion from the right computes it. *)
Section sort.
Context {A : Type} (cmp : A → A → comparison).

Fixpoint sort_insert (x : A) (l : list A) : list A :=
  match l with
  | [] => [x]
  | y :: l' =>
      match cmp x y with
      | Gt => y :: sort_insert x l'
      | _ => x :: y :: l'
      end
  end.

Definition sort_by (l : list A) : list A := foldr sort_insert [] l.
End sort.

Definition array_sort (keys : list prim) : list prim :=
  sort_by sort_compare keys.

(** ** Plain objects

    Own properties in creation order; [None] stands for a property holding
    [undefined].  [obj_get] is [o[k]] on an own property. *)
Abbreviation jsobject A := (dict string (option (list A))).
Abbreviation obj_get := (dict_get (K:=string)).

(** [o[k] = v]: an existing property keeps its place.  The name
    [__proto__] is the accessor every plain object inherits from
    [Object.prototype]: assigning to it replaces the prototype and creates
    no own property.  The prototype is not part of the model. *)
Definition obj_set {A} (o : jsobject A) (k : string) (v : option (list A))
    : jsobject A :=
  if decide (k = "__proto__") then o else dict_set o k v.

(** [Object.keys]: array indices first, in ascending numeric order, then the
    other names in creation order. *)
Definition index_keys {A} (o : jsobject A) : list N :=
  omap array_index o.*1.

Definition name_keys {A} (o : jsobject A) : list string :=
  filter (λ k, array_index k = None) o.*1.

Definition index_to_string (n : N) : string :=
  NilZero.string_of_uint (N.to_uint n).

Definition own_keys {A} (o : jsobject A) : list string :=
  (index_to_string <$> sort_by N.compare (index_keys o)) ++ name_keys o.

(** [Object.entries] and [Object.values]. *)
Definition obj_entries {A} (o : jsobject A)
    : list (string * option (list A)) :=
  omap (λ k, (k,.) <$> obj_get o k) (own_keys o).

Definition obj_values {A} (o : jsobject A) : list (option (list A)) :=
  (obj_entries o).*2.

(** ** groupBy *)

(** The [property] argument: a function, or anything else. *)
Inductive property : Type :=
  | PFunction (f : value → res prim)
  | PValue (p : prim).

Definition key_selector (property : property) : value → res prim :=
  match property with
  | PFunction f => f
  | PValue propName => λ obj, get obj (to_property_key propName)
  end.

(** One iteration of the first loop. *)
Definition group_step {A} (property : A → res prim)
    (groupedObjects : jsmap (list A)) (object : A)
    : res (jsmap (list A)) :=
  groupName ← property object;
  let groupedObjects :=
    if map_has groupedObjects groupName then groupedObjects
    else map_set groupedObjects groupName [] in
  map_push groupedObjects groupName object.

Fixpoint group_loop {A} (property : A → res prim)
    (groupedObjects : jsmap (list A)) (objects : list A)
    : res (jsmap (list A)) :=
  match objects with
  | [] => Ok groupedObjects
  | object :: objects' =>
      groupedObjects' ← group_step property groupedObjects object;
      group_loop property groupedObjects' objects'
  end.

(** The second loop: [result[key] = groupedObjects.get(key)]. *)
Definition emit {A} (groupedObjects : jsmap (list A))
    (result : jsobject A) (key : prim) : jsobject A :=
  obj_set result (to_property_key key) (map_get groupedObjects key).

Definition groupBy (objects : list value) (property : property)
    : res (jsobject value) :=
  let property := key_selector property in
  groupedObjects ← group_loop property [] objects;
  let result :=
    foldl (emit groupedObjects) [] (array_sort (map_keys groupedObjects)) in
  Ok result.

(** * groupBy over a store

    The same function with arrays, records, the Map and the result object
    as cells of a store, addressed by references: allocation, in-place
    updates and aliasing are explicit.  The key array that [sort] orders is
    a temporary no one else sees; it stays a list. *)
Module Store.

Abbreviation loc := positive.

(** A JavaScript value: a primitive, or a reference to a cell. *)
Inductive sval : Type :=
  | SPrim (p : prim)
  | SRef (l : loc).

Inductive cell : Type :=
  | CRecord (fields : gmap string prim)
  | CArray (elems : list sval)
  | CMap (entries : dict prim sval)
  | CObject (props : dict string sval).

Abbreviation store := (gmap loc cell).

(** Computations read and update the store, and return or throw. *)
Definition M (A : Type) : Type := store → res A * store.

Global Instance M_ret : MRet M := λ A a σ, (Ok a, σ).
Global Instance M_bind : MBind M := λ A B f m σ,
  match m σ with
  | (Ok a, σ') => f a σ'
  | (Throw e, σ') => (Throw e, σ')
  end.

Global Instance M_fmap : FMap M := λ A B f m σ,
  match m σ with
  | (Ok a, σ') => (Ok (f a), σ')
  | (Throw e, σ') => (Throw e, σ')
  end.

Definition throw {A} (e : exn) : M A := λ σ, (Throw e, σ).

(** [new Map()], [[]], [{}]: a cell at an address not in use. *)
Definition alloc (c : cell) : M loc := λ σ,
  let l := fresh (dom σ) in (Ok l, <[l:=c]> σ).

(** Reading through a value: a primitive has no cell, and a reference
    always points to one in a JavaScript heap; where the model has none it
    throws. *)
Definition load (v : sval) : M (loc * cell) := λ σ,
  match v with
  | SRef l =>
      match σ !! l with
      | Some c => (Ok (l, c), σ)
      | None => (Throw TypeError, σ)
      end
  | SPrim _ => (Throw TypeError, σ)
  end.

Definition write (l : loc) (c : cell) : M unit := λ σ, (Ok (), <[l:=c]> σ).

(** The elements a [for ... of] loop over [v] visits; what is no array is
    not iterable in the model. *)
Definition array_elems (v : sval) : M (list sval) :=
  '(_, c) ← load v;
  match c with
  | CArray elems => mret elems
  | _ => throw TypeError
  end.

(** [v.push(x)]; [undefined.push] throws. *)
Definition array_push (v x : sval) : M unit :=
  '(l, c) ← load v;
  match c with
  | CArray elems => write l (CArray (elems ++ [x]))
  | _ => throw TypeError
  end.

Definition map_entries (m : sval) : M (loc * dict prim sval) :=
  '(l, c) ← load m;
  match c with
  | CMap entries => mret (l, entries)
  | _ => throw TypeError
  end.

Definition map_has (m : sval) (k : prim) : M bool :=
  '(_, entries) ← map_entries m; mret (dict_has entries k).

(** [m.get(k)] is [undefined] for a key the Map does not hold. *)
Definition map_get (m : sval) (k : prim) : M sval :=
  '(_, entries) ← map_entries m;
  mret (default (SPrim PUndefined) (dict_get entries k)).

Definition map_set (m : sval) (k : prim) (v : sval) : M unit :=
  '(l, entries) ← map_entries m; write l (CMap (dict_set entries k v)).

Definition map_keys (m : sval) : M (list prim) :=
  '(_, entries) ← map_entries m; mret (dict_keys entries).

(** [o[k] = v]; assigning to [__proto__] creates no own property. *)
Definition obj_set (o : sval) (k : string) (v : sval) : M unit :=
  '(l, c) ← load o;
  match c with
  | CObject props =>
      if decide (k = "__proto__") then mret ()
      else write l (CObject (dict_set props k v))
  | _ => throw TypeError
  end.

(** What a key selector sees of a value: the record a reference points
    to.  References to other cells are outside the model and read as
    [undefined]. *)
Definition reify (σ : store) (v : sval) : value :=
  match v with
  | SPrim p => VPrim p
  | SRef l =>
      match σ !! l with
      | Some (CRecord fields) => VObj fields
      | _ => VPrim PUndefined
      end
  end.

(** Calling the key selector: it reads the record and writes nothing. *)
Definition call (property : value → res prim) (object : sval) : M prim :=
  λ σ, (property (reify σ object), σ).

(** [for (const x of l) body]: the loops of [groupBy] run over the
    elements read when the loop starts; their bodies write to no array
    they iterate. *)
Fixpoint for_of {A} (l : list A) (body : A → M unit) : M unit :=
  match l with
  | [] => mret ()
  | x :: l' => body x ;; for_of l' body
  end.

(** One iteration of the first loop. *)
Definition group_step (property : value → res prim) (groupedObjects : sval)
    (object : sval) : M unit :=
  groupName ← call property object;
  has ← map_has groupedObjects groupName;
  (if has : bool then mret ()
   else arr ← alloc (CArray []);
        map_set groupedObjects groupName (SRef arr));;
  group ← map_get groupedObjects groupName;
  array_push group object.

(** One iteration of the second loop. *)
Definition emit (groupedObjects result : sval) (key : prim) : M unit :=
  group ← map_get groupedObjects key;
  obj_set result (to_property_key key) group.

Definition groupBy (objects : sval) (property : property) : M sval :=
  let property := key_selector property in
  groupedObjects ← SRef <$> alloc (CMap []);
  elems ← array_elems objects;
  for_of elems (group_step property groupedObjects);;
  result ← SRef <$> alloc (CObject []);
  keys ← map_keys groupedObjects;
  for_of (array_sort keys) (emit groupedObjects result);;
  mret result.

(** Reading a result back: the array a property references, and the
    object with its arrays read. *)
Definition array_of (σ : store) (v : sval) : option (list sval) :=
  match v with
  | SRef l =>
      match σ !! l with
      | Some (CArray elems) => Some elems
      | _ => None
      end
  | SPrim _ => None
  end.

Definition object_of (σ : store) (v : sval) : option (jsobject sval) :=
  match v with
  | SRef l =>
      match σ !! l with
      | Some (CObject props) =>
          Some ((λ kv : string * sval, (kv.1, array_of σ kv.2)) <$> props)
      | _ => None
      end
  | SPrim _ => None
  end.

(** The elements of the input are primitives and references to records. *)
Definition is_record (σ : store) (v : sval) : Prop :=
  match v with
  | SPrim _ => True
  | SRef l => ∃ fields, σ !! l = Some (CRecord fields)
  end.

End Store.

(** A result with every record replaced by what [f] makes of it. *)
Definition obj_map {A B} (f : A → B) (o : jsobject A) : jsobject B :=
  (λ kv : string * option (list A), (kv.1, fmap (M:=list) f <$> kv.2))
  <$> (o : list (string * option (list A))).

(** ** Representation

    The Map cell [lm] of the store [σ] holds the groups [m]: every key
    references an array of its own, allocated since the store [σ0], that
    holds the group of the key. *)
Record map_rep (σ0 σ : Store.store) (lm : Store.loc)
    (m : jsmap (list Store.sval)) (entries : dict prim Store.sval) : Prop := {
  rep_frame : σ0 ⊆ σ;
  rep_map_fresh : σ0 !! lm = None;
  rep_map : σ !! lm = Some (Store.CMap entries);
  rep_keys : dict_keys entries = dict_keys m;
  rep_groups : ∀ k, k ∈ dict_keys m →
    ∃ l g, dict_get entries k = Some (Store.SRef l)
           ∧ dict_get m k = Some g
           ∧ l ≠ lm ∧ σ0 !! l = None ∧ σ !! l = Some (Store.CArray g);
  rep_inj : ∀ k1 k2 l,
    dict_get entries k1 = Some (Store.SRef l) →
    dict_get entries k2 = Some (Store.SRef l) → k1 = k2;
}.

(** During the second loop the store holds the Map [lm], the arrays of
    its groups and the result object [lr] with the properties [props]. *)
Definition emit_inv (lm lr : Store.loc) (m : jsmap (list Store.sval))
    (entries : dict prim Store.sval) (σ : Store.store)
    (props : dict string Store.sval) : Prop :=
  σ !! lm = Some (Store.CMap entries)
  ∧ σ !! lr = Some (Store.CObject props)
  ∧ ∀ k, k ∈ dict_keys m →
      ∃ l g, dict_get entries k = Some (Store.SRef l)
             ∧ dict_get m k = Some g
             ∧ l ≠ lr ∧ σ !! l = Some (Store.CArray g).

(** What a caller observes of a call over the store: the exception, or the
    result object with its arrays and records read. *)
Definition outcome (run : res Store.sval * Store.store)
    : res (option (jsobject value)) :=
  match run.1 with
  | Ok v => Ok (obj_map (Store.reify run.2) <$> Store.object_of run.2 v)
  | Throw e => Throw e
  end.

(** * Specification-level notions

    What follows is not code of [groupBy]: these are the notions its
    properties are stated with. *)

(** ** The sort key

    [sort_compare] orders keys by their string form, with [undefined]
    (no string form is consulted) after every other key. *)
Definition sort_key (p : prim) : option string :=
  match p with
  | PUndefined => None
  | _ => Some (to_string p)
  end.

Definition key_compare (a b : option string) : comparison :=
  match a, b with
  | None, None => Eq
  | None, Some _ => Gt
  | Some _, None => Lt
  | Some s, Some t => String.compare s t
  end.

Definition key_le (a b : option string) : Prop := key_compare a b ≠ Gt.

Definition sort_le (x y : prim) : Prop := sort_compare x y ≠ Gt.

(** ** Keys in order of first occurrence *)

Fixpoint first_seen {A} `{!EqDecision A} (l : list A) : list A :=
  match l with
  | [] => []
  | x :: l' => x :: filter (λ y, y ≠ x) (first_seen l')
  end.

(** ** Keys and groups *)

(** The key a selector computes; only meaningful where the selector
    returns. *)
Definition key_of {A} (sel : A → res prim) (x : A) : prim :=
  match sel x with
  | Ok k => k
  | Throw _ => PUndefined
  end.

(** The records of [objects] whose key is [k], in input order. *)
Definition members {A} (sel : A → res prim) (objects : list A) (k : prim)
    : list A :=
  filter (λ x, key_of sel x = k) objects.

(** The groups of [objects]: one per key, in order of first occurrence. *)
Definition grouped {A} (sel : A → res prim) (objects : list A)
    : jsmap (list A) :=
  (λ k, (k, members sel objects k)) <$> first_seen (key_of sel <$> objects).

Definition returns_on {A} (sel : A → res prim) (objects : list A) : Prop :=
  Forall (λ x, ∃ k, sel x = Ok k) objects.

(** The keys in emission order, and the result they produce. *)
Definition emitted {A} (sel : A → res prim) (objects : list A)
    : list prim :=
  array_sort (first_seen (key_of sel <$> objects)).

(** The number of records in the groups of a result, and the groups of a
    result put back into one sequence: groups in key order, records in
    stored order. *)
Definition group_sizes {A} (result : jsobject A) : nat :=
  sum_list (from_option length 0 <$> obj_values result).

Definition flatten {A} (result : jsobject A) : list A :=
  mjoin (default [] <$> obj_values result).

(** The keys whose groups become own properties of the result. *)
Definition own_key (k : prim) : Prop := to_string k ≠ "__proto__".

Global Instance own_key_dec k : Decision (own_key k).
Proof. unfold own_key. apply _. Defined.

(** The values whose properties cannot be read. *)
Definition nullish (x : value) : Prop :=
  x = VPrim PUndefined ∨ x = VPrim PNull.

(** No two keys computed on [objects] have the same string form, and
    none has the string form [__proto__]. *)
Definition distinct_key_strings {A} (sel : A → res prim)
    (objects : list A) : Prop :=
  (∀ x y, x ∈ objects → y ∈ objects →
     to_string (key_of sel x) = to_string (key_of sel y) →
     key_of sel x = key_of sel y)
  ∧ ∀ x, x ∈ objects → own_key (key_of sel x).

(** ** Where the model computes what the code computes

    [number_to_string] is the exact decimal numeral.  [Number::toString]
    writes that numeral for the integers of magnitude below 2^53; from
    there on it writes the shortest numeral that reads back as the same
    number, [1152921504606847000] for 2^60.  A property about the string
    form of a number is a property of the code for such integers only. *)
Definition safe_integer (n : Z) : Prop := (- (2 ^ 53) < n < 2 ^ 53)%Z.

Definition safe_key (k : prim) : Prop :=
  match k with
  | PNum n => safe_integer n
  | _ => True
  end.

Global Instance safe_key_dec k : Decision (safe_key k).
Proof. destruct k; unfold safe_key, safe_integer; apply _. Defined.

(** Every key computed on [objects] is in that range. *)
Definition safe_keys {A} (sel : A → res prim) (objects : list A) : Prop :=
  Forall (λ x, safe_key (key_of sel x)) objects.

(** The names of the properties a record inherits from [Object.prototype].
    [get] reads own fields; [obj[propName]] in the code goes on to the
    prototype, and under one of these names it finds a function (or, under
    [__proto__], the prototype itself) where [get] finds nothing. *)
Definition object_prototype_names : list string :=
  ["constructor"; "__defineGetter__"; "__defineSetter__"; "hasOwnProperty";
   "__lookupGetter__"; "__lookupSetter__"; "isPrototypeOf";
   "propertyIsEnumerable"; "toString"; "valueOf"; "__proto__";
   "toLocaleString"].

Definition plain_record (x : value) : Prop :=
  match x with
  | VObj _ => True
  | VPrim _ => False
  end.

Global Instance plain_record_dec x : Decision (plain_record x).
Proof. destruct x; apply _. Defined.

(** A property with which [key_selector] reads what the code reads on
    every element of [objects].  A function is the code's function.  A
    value is a field name: its string form has to be exact, it has to name
    nothing inherited, and the elements have to be records, for the
    wrappers of strings, numbers and booleans inherit many more names. *)
Definition reads_own_fields (property : property) (objects : list value)
    : Prop :=
  match property with
  | PFunction _ => True
  | PValue p =>
      safe_key p
      ∧ (to_string p ∉ object_prototype_names)
      ∧ Forall plain_record objects
  end.



(** ** Scenarios *)

Definition rec (fs : list (string * prim)) : value := VObj (list_to_map fs).

Definition steve := rec [("name", PStr "Steve"); ("team", PStr "blue")].
Definition jack := rec [("name", PStr "Jack"); ("team", PStr "red")].
Definition carol := rec [("name", PStr "Carol"); ("team", PStr "blue")].

(** [{n: 1}], [{n: "1"}] and the like. *)
Definition num_rec (n : Z) : value := rec [("n", PNum n)].
Definition str_rec (s : string) : value := rec [("n", PStr s)].

(** The three team records and the array of them, as cells of a store. *)
Definition team_store : Store.store :=
  list_to_map
    [(1%positive, Store.CRecord (list_to_map [("team", PStr "blue")]));
     (2%positive, Store.CRecord (list_to_map [("team", PStr "red")]));
     (3%positive, Store.CRecord (list_to_map [("team", PStr "blue")]));
     (4%positive,
      Store.CArray [Store.SRef 1%positive; Store.SRef 2%positive;
                    Store.SRef 3%positive])].

(** Equal records at other addresses, next to a cell of no concern. *)
Definition team_store_moved : Store.store :=
  list_to_map
    [(5%positive, Store.CObject [("kept", Store.SPrim (PNum 7))]);
     (11%positive, Store.CRecord (list_to_map [("team", PStr "blue")]));
     (12%positive, Store.CRecord (list_to_map [("team", PStr "red")]));
     (13%positive, Store.CRecord (list_to_map [("team", PStr "blue")]));
     (20%positive,
      Store.CArray [Store.SRef 11%positive; Store.SRef 12%positive;
                    Store.SRef 13%positive])].

(** [obj => obj.n % 2] on records whose [n] is a number; [%] takes the
    sign of the dividend.  For another [n] JavaScript computes [NaN], which
    the model does not have: the function is left to throw there. *)
Definition parity (obj : value) : res prim :=
  n ← get obj "n";
  match n with
  | PNum z => Ok (PNum (Z.rem z 2))
  | _ => Throw (UserError "NaN")
  end.

(** * The page script

    The rest of [src/ps5.js] drives a page: two buttons ask the Datamuse
    service for the rhymes or the synonyms of the word in a text input, the
    answer is written into an output element, and every word written comes
    with a button that saves it to a list shown on the page.

    Scope of the model.  The page is the six elements the script looks up,
    the array [savedWordsArray], the console and the requests in flight.
    The text of the input is a string of the model, of code units below
    256; the serialisation of the query is modelled for every sequence of
    UTF-16 code units.
    Markup assigned through [innerHTML] is kept as the string written (a
    node [Html]); what the HTML parser makes of it is not modelled, and so
    neither are the [onclick] attributes inside it.  The body of an answer
    is an array of records and primitives.  A lookup in the object that
    [groupBy] returns sees own properties, as before: an answer in which
    the string [__proto__] stands for a syllable count, by which that object
    would inherit from a group, is outside the model. *)

(** ** URLSearchParams

    [new URLSearchParams(record).toString()] serialises the entries of the
    record as [application/x-www-form-urlencoded].  Name and value are
    first made scalar value strings: two code units that form a surrogate
    pair are one code point, and a surrogate without its partner is
    replaced by U+FFFD.  The code points are encoded as UTF-8, in one to
    four bytes; a space becomes [+], the bytes of ASCII letters and digits
    and of [*], [-], [.] and [_] stand for themselves, and every other byte
    is written [%XX] with upper-case hexadecimal digits. *)

(** The UTF-16 code units of a string of the model, each below 256. *)
Definition code_units (s : string) : list N :=
  N_of_ascii <$> list_ascii_of_string s.

Definition high_surrogate (u : N) : bool :=
  ((55296 <=? u) && (u <? 56320))%N.

Definition low_surrogate (u : N) : bool :=
  ((56320 <=? u) && (u <? 57344))%N.

(** The code points of a sequence of code units, 65533 being U+FFFD. *)
Fixpoint code_points (units : list N) : list N :=
  match units with
  | [] => []
  | u :: rest =>
      if high_surrogate u then
        match rest with
        | l :: rest' =>
            if low_surrogate l
            then (65536 + (u - 55296) * 1024 + (l - 56320))%N
                 :: code_points rest'
            else 65533%N :: code_points rest
        | [] => [65533%N]
        end
      else if low_surrogate u then 65533%N :: code_points rest
      else u :: code_points rest
  end.

Definition utf8_encode_point (c : N) : list N :=
  if (c <? 128)%N then [c]
  else if (c <? 2048)%N then [192 + c / 64; 128 + c mod 64]%N
  else if (c <? 65536)%N
       then [224 + c / 4096; 128 + (c / 64) mod 64; 128 + c mod 64]%N
  else [240 + c / 262144; 128 + (c / 4096) mod 64; 128 + (c / 64) mod 64;
        128 + c mod 64]%N.

Definition utf8_encode (units : list N) : list N :=
  code_points units ≫= utf8_encode_point.

Definition hex_digit (n : N) : ascii :=
  ascii_of_N (if (n <? 10)%N then 48 + n else 55 + n).

Definition percent_encode_byte (b : N) : string :=
  String "%" (String (hex_digit (b / 16))
                (String (hex_digit (b mod 16)) EmptyString)).

Definition urlencoded_keeps (b : N) : bool :=
  ((48 <=? b) && (b <=? 57) || (65 <=? b) && (b <=? 90)
   || (97 <=? b) && (b <=? 122)
   || (b =? 42) || (b =? 45) || (b =? 46) || (b =? 95))%N.

Definition urlencoded_byte (b : N) : string :=
  if (b =? 32)%N then "+"
  else if urlencoded_keeps b then String (ascii_of_N b) EmptyString
  else percent_encode_byte b.

Definition urlencoded_bytes (bs : list N) : string :=
  foldr (λ b rest, urlencoded_byte b +:+ rest) EmptyString bs.

Definition urlencoded_units (units : list N) : string :=
  urlencoded_bytes (utf8_encode units).

Definition urlencoded (s : string) : string :=
  urlencoded_units (code_units s).

Definition URLSearchParams_toString (params : list (string * string))
    : string :=
  String.concat "&"
    ((λ nv : string * string, urlencoded nv.1 +:+ "=" +:+ urlencoded nv.2)
     <$> params).

(** ** The document *)

(** A click listener the script attaches to a button it creates:
    [() => { addToSavedWords(word); }], with the [word] it closes over. *)
Inductive listener : Type :=
  | SaveWord (word : prim).

(** A child of an element: markup assigned through [innerHTML], a text
    node, or an element made by [document.createElement], with its [type],
    its class list, its click listeners and its children. *)
#[warnings="-register-all"]
Inductive node : Type :=
  | Html (markup : string)
  | Text (data : string)
  | Element (localName : string) (type : option string)
      (classList : list string) (click : list listener)
      (childNodes : list node).

(** [e.innerHTML = markup] and [e.textContent = data] replace the children
    of [e]; the empty string leaves none. *)
Definition set_innerHTML (markup : string) : list node :=
  if decide (markup = EmptyString) then [] else [Html markup].

Definition set_textContent (data : string) : list node :=
  if decide (data = EmptyString) then [] else [Text data].

(** [textContent] is a nullable string: [null] and [undefined] assigned to
    it are the empty string, another value is its string form. *)
Definition nullable_string (p : prim) : string :=
  match p with
  | PUndefined | PNull => EmptyString
  | _ => to_string p
  end.

(** [classList]: an ordered set of tokens. *)
Definition classList_contains (token : string) (tokens : list string)
    : bool :=
  bool_decide (token ∈ tokens).

Definition classList_add (token : string) (tokens : list string)
    : list string :=
  if decide (token ∈ tokens) then tokens else tokens ++ [token].

Definition classList_remove (token : string) (tokens : list string)
    : list string :=
  filter (λ t, t ≠ token) tokens.

(** [Array.prototype.join()] with the default separator: [undefined] and
    [null] elements are written as the empty string. *)
Definition join_element (x : prim) : string :=
  match x with
  | PUndefined | PNull => EmptyString
  | _ => to_string x
  end.

Definition array_join (l : list prim) : string :=
  String.concat "," (join_element <$> l).

(** ** The page *)

(** The two functions the script passes to [datamuseRequest]. *)
Inductive callback : Type :=
  | RhymeCallBack
  | SimilarCallBack.

(** A request sent by [fetch] and not answered yet, with the callback that
    waits for the answer. *)
Record request : Type := Request {
  request_url : string;
  request_callback : callback;
}.

(** How a request ends: the body parsed by [response.json()], or the error
    [fetch] or the parser fails with. *)
Inductive answer : Type :=
  | Fulfilled (data : list value)
  | Rejected (err : exn).

Inductive console_entry : Type :=
  | ConsoleLog (data : list value)
  | ConsoleError (err : exn).

(** The state of the page: the children of [outputDescription] and of
    [wordOutput], the class lists of the two buttons, the value of
    [wordInput], the data of the text nodes of [savedWords], the array
    [savedWordsArray], the console and the requests in flight. *)
Record page : Type := Page {
  outputDescription : list node;
  wordOutput : list node;
  showRhymesButton : list string;
  showSynonymsButton : list string;
  wordInput : string;
  savedWords : list string;
  savedWordsArray : list prim;
  console : list console_entry;
  pending : list request;
}.

Definition with_outputDescription (v : list node) (p : page) : page :=
  Page v (wordOutput p) (showRhymesButton p) (showSynonymsButton p)
    (wordInput p) (savedWords p) (savedWordsArray p) (console p) (pending p).

Definition with_wordOutput (v : list node) (p : page) : page :=
  Page (outputDescription p) v (showRhymesButton p) (showSynonymsButton p)
    (wordInput p) (savedWords p) (savedWordsArray p) (console p) (pending p).

Definition with_showRhymesButton (v : list string) (p : page) : page :=
  Page (outputDescription p) (wordOutput p) v (showSynonymsButton p)
    (wordInput p) (savedWords p) (savedWordsArray p) (console p) (pending p).

Definition with_showSynonymsButton (v : list string) (p : page) : page :=
  Page (outputDescription p) (wordOutput p) (showRhymesButton p) v
    (wordInput p) (savedWords p) (savedWordsArray p) (console p) (pending p).

Definition with_wordInput (v : string) (p : page) : page :=
  Page (outputDescription p) (wordOutput p) (showRhymesButton p)
    (showSynonymsButton p) v (savedWords p) (savedWordsArray p) (console p)
    (pending p).

Definition with_savedWords (v : list string) (p : page) : page :=
  Page (outputDescription p) (wordOutput p) (showRhymesButton p)
    (showSynonymsButton p) (wordInput p) v (savedWordsArray p) (console p)
    (pending p).

Definition with_savedWordsArray (v : list prim) (p : page) : page :=
  Page (outputDescription p) (wordOutput p) (showRhymesButton p)
    (showSynonymsButton p) (wordInput p) (savedWords p) v (console p)
    (pending p).

Definition with_console (v : list console_entry) (p : page) : page :=
  Page (outputDescription p) (wordOutput p) (showRhymesButton p)
    (showSynonymsButton p) (wordInput p) (savedWords p) (savedWordsArray p)
    v (pending p).

Definition with_pending (v : list request) (p : page) : page :=
  Page (outputDescription p) (wordOutput p) (showRhymesButton p)
    (showSynonymsButton p) (wordInput p) (savedWords p) (savedWordsArray p)
    (console p) v.

(** Code that updates the page, and returns or throws; what it wrote
    before it throws stays written. *)
Definition PM (A : Type) : Type := page → res A * page.

Global Instance PM_ret : MRet PM := λ A a p, (Ok a, p).
Global Instance PM_bind : MBind PM := λ A B f m p,
  match m p with
  | (Ok a, p') => f a p'
  | (Throw e, p') => (Throw e, p')
  end.

Definition lift {A} (r : res A) : PM A := λ p, (r, p).
Definition read {A} (f : page → A) : PM A := λ p, (Ok (f p), p).
Definition modify (f : page → page) : PM unit := λ p, (Ok (), f p).

Fixpoint for_each {A} (l : list A) (body : A → PM unit) : PM unit :=
  match l with
  | [] => mret ()
  | x :: l' => body x ;; for_each l' body
  end.

(** [wordOutput.innerHTML += markup] and [wordOutput.append(child)]. *)
Definition wordOutput_add_innerHTML (markup : string) : PM unit :=
  modify (λ p, with_wordOutput (wordOutput p ++ [Html markup]) p).

Definition wordOutput_append (child : node) : PM unit :=
  modify (λ p, with_wordOutput (wordOutput p ++ [child]) p).

(** ** The script *)

(** The statements the script runs when it is loaded. *)
Definition main (p : page) : page :=
  with_savedWords ["(None)"] (with_savedWordsArray [] p).

(** [getDatamuseRhymeUrl] and [getDatamuseSimilarToUrl]: both read the
    word from [wordInput], not from their parameter. *)
Definition getDatamuseRhymeUrl (rel_rhy : string) (p : page) : string :=
  "https://api.datamuse.com/words?"
  +:+ URLSearchParams_toString [("rel_rhy", wordInput p)].

Definition getDatamuseSimilarToUrl (ml : string) (p : page) : string :=
  "https://api.datamuse.com/words?"
  +:+ URLSearchParams_toString [("ml", wordInput p)].

(** [addToSavedWords]: [savedWords] is emptied to one blank, the word is
    pushed, and the whole array, joined, is appended as a text node. *)
Definition addToSavedWords (word : prim) (p : page) : page :=
  let p := with_savedWords [" "] p in
  let p := with_savedWordsArray (savedWordsArray p ++ [word]) p in
  let joined := array_join (savedWordsArray p) in
  with_savedWords (savedWords p ++ [joined]) p.

(** [datamuseRequest], up to the call of [fetch]: the output shows
    [Loading] and the request is in flight. *)
Definition datamuseRequest (url : string) (callback : callback) (p : page)
    : page :=
  let p := with_wordOutput (set_innerHTML "Loading") p in
  with_pending (pending p ++ [Request url callback]) p.

(** The markup [rhymeCallBack] writes.  The double quote is written by its
    code, 34. *)
Definition dquote : string := String "034" EmptyString.

Definition rhyme_heading (i : prim) : string :=
  "<h3>Syllables: " +:+ to_string i +:+ "</h3>".

Definition rhyme_item (word : prim) : string :=
  "<li>" +:+ to_string word
  +:+ "<button class=" +:+ dquote +:+ "btn btn-sm btn-outline-success"
  +:+ dquote +:+ " type=" +:+ dquote +:+ "button" +:+ dquote
  +:+ " onclick=" +:+ dquote +:+ "addToSavedWords('" +:+ to_string word
  +:+ "')" +:+ dquote +:+ ">(Save)</button></li>".

(** The elements [for (group in g)] reaches through [g[group]]: those of
    an array, in order, and none when [g] is [undefined]. *)
Definition for_in (g : option (option (list value))) : list value :=
  match g with
  | Some (Some elems) => elems
  | _ => []
  end.

Definition no_results : node :=
  Element "p" None [] [] (set_textContent "No results").

(** [rhymeCallBack]: the inner loop over the words of one group, one
    iteration of the outer loop over [1 .. Object.keys(groups).length], the
    branch of a non-empty answer, and the function. *)
Definition rhyme_group (group : option (option (list value))) : PM unit :=
  for_each (for_in group) (λ item,
    word ← lift (get item "word");
    wordOutput_add_innerHTML (rhyme_item word)).

Definition rhyme_step (groups : jsobject value) (i : nat) : PM unit :=
  wordOutput_add_innerHTML (rhyme_heading (PNum (Z.of_nat i)));;
  rhyme_group (obj_get groups (to_property_key (PNum (Z.of_nat i)))).

Definition rhyme_groups (listOfRhymes : list value) : PM unit :=
  groups ← lift (groupBy listOfRhymes (PValue (PStr "numSyllables")));
  for_each (seq 1 (length (own_keys groups))) (rhyme_step groups).

Definition rhymeCallBack (listOfRhymes : list value) : PM unit :=
  modify (with_wordOutput (set_innerHTML EmptyString));;
  v ← read wordInput;
  modify (with_outputDescription
            (set_innerHTML ("Words that rhyme with" +:+ (" " +:+ v))));;
  if decide (length listOfRhymes ≠ 0) then rhyme_groups listOfRhymes
  else wordOutput_append no_results.

(** The button and the list item [similarCallBack] builds for a word.  The
    script attaches the listener once the button is in the tree, which
    holds the button by reference: the tree ends with the listener on it. *)
Definition save_button (word : prim) : node :=
  Element "button" (Some "button")
    (foldl (λ tokens token, classList_add token tokens) []
       ["btn"; "btn-sm"; "btn-outline-success"])
    [SaveWord word]
    (set_innerHTML "(Save)").

Definition synonym_item (word : prim) : node :=
  Element "li" None [] []
    (set_textContent (nullable_string word) ++ [save_button word]).

(** [similarCallBack]: one iteration of its loop, and the function. *)
Definition synonym_step (item : value) : PM unit :=
  word ← lift (get item "word");
  wordOutput_append (synonym_item word).

Definition similarCallBack (listOfSynonyms : list value) : PM unit :=
  modify (with_wordOutput (set_innerHTML EmptyString));;
  v ← read wordInput;
  modify (with_outputDescription
            (set_innerHTML ("Words with a similar meaning to" +:+ (" " +:+ v))));;
  if decide (length listOfSynonyms ≠ 0) then
    for_each listOfSynonyms synonym_step
  else wordOutput_append no_results.

Definition call (callback : callback) : list value → PM unit :=
  match callback with
  | RhymeCallBack => rhymeCallBack
  | SimilarCallBack => similarCallBack
  end.

(** [datamuseRequest], once the request has ended: the body is logged and
    handed to the callback, or the error is logged.  An exception of the
    callback rejects a promise no one waits for. *)
Definition datamuseRequest_then (callback : callback) (a : answer)
    (p : page) : page :=
  match a with
  | Fulfilled data =>
      let p := with_console (console p ++ [ConsoleLog data]) p in
      (call callback data p).2
  | Rejected err => with_console (console p ++ [ConsoleError err]) p
  end.

(** The click listeners of the two buttons and the keydown listener of the
    input. *)
Definition showRhymesButton_click (p : page) : page :=
  let p := with_showSynonymsButton
             (classList_remove "btn-primary" (showSynonymsButton p)) p in
  let p := with_showSynonymsButton
             (classList_add "btn-secondary" (showSynonymsButton p)) p in
  let p := with_showRhymesButton
             (classList_remove "btn-secondary" (showRhymesButton p)) p in
  let p := with_showRhymesButton
             (classList_add "btn-primary" (showRhymesButton p)) p in
  datamuseRequest (getDatamuseRhymeUrl (wordInput p) p) RhymeCallBack p.

Definition showSynonymsButton_click (p : page) : page :=
  let p := with_showSynonymsButton
             (classList_add "btn-primary" (showSynonymsButton p)) p in
  let p := with_showSynonymsButton
             (classList_remove "btn-secondary" (showSynonymsButton p)) p in
  let p := with_showRhymesButton
             (classList_add "btn-secondary" (showRhymesButton p)) p in
  let p := with_showRhymesButton
             (classList_remove "btn-primary" (showRhymesButton p)) p in
  datamuseRequest (getDatamuseSimilarToUrl (wordInput p) p) SimilarCallBack p.

Definition wordInput_keydown (key : string) (p : page) : page :=
  if decide (key = "Enter") then
    let p :=
      if classList_contains "btn-primary" (showSynonymsButton p)
      then datamuseRequest (getDatamuseSimilarToUrl (wordInput p) p)
             SimilarCallBack p
      else p in
    if classList_contains "btn-primary" (showRhymesButton p)
    then datamuseRequest (getDatamuseRhymeUrl (wordInput p) p)
           RhymeCallBack p
    else p
  else p.

(** A click on a node runs its click listeners, in the order in which they
    were attached. *)
Definition run_listener (p : page) (l : listener) : page :=
  match l with
  | SaveWord word => addToSavedWords word p
  end.

Definition click_node (n : node) (p : page) : page :=
  match n with
  | Element _ _ _ listeners _ => foldl run_listener p listeners
  | _ => p
  end.

(** ** Events

    What happens to a loaded page: a click on one of the two buttons, a
    key pressed in the input, the user changing the text of the input, a
    call of [addToSavedWords] from a save button, and the end of a request
    in flight, whichever it is. *)
Inductive event : Type :=
  | ClickShowRhymes
  | ClickShowSynonyms
  | Keydown (key : string)
  | Edit (text : string)
  | Save (word : prim)
  | Settle (i : nat) (a : answer).

Definition handle (p : page) (e : event) : page :=
  match e with
  | ClickShowRhymes => showRhymesButton_click p
  | ClickShowSynonyms => showSynonymsButton_click p
  | Keydown key => wordInput_keydown key p
  | Edit text => with_wordInput text p
  | Save word => addToSavedWords word p
  | Settle i a =>
      match pending p !! i with
      | Some r =>
          datamuseRequest_then (request_callback r) a
            (with_pending (delete i (pending p)) p)
      | None => p
      end
  end.

Definition run (p : page) (events : list event) : page :=
  foldl handle p events.

(** ** Notions for the page script

    What follows is not code of the script: these are the notions its
    properties are stated with. *)

(** Reading one byte back from the front of a query string. *)
Definition hex_value (c : ascii) : option N :=
  let n := N_of_ascii c in
  if ((48 <=? n) && (n <=? 57))%N then Some (n - 48)%N
  else if ((65 <=? n) && (n <=? 70))%N then Some (n - 55)%N
  else None.

Definition percent_decode (s : string) : option (N * string) :=
  match s with
  | String "%" (String h (String l rest)) =>
      match hex_value h, hex_value l with
      | Some a, Some b => Some (16 * a + b, rest)%N
      | _, _ => None
      end
  | _ => None
  end.

Definition urldecode_byte (s : string) : option (N * string) :=
  match s with
  | EmptyString => None
  | String "+" rest => Some (32%N, rest)
  | String "%" _ => percent_decode s
  | String c rest => Some (N_of_ascii c, rest)
  end.

(** Reading one code point back from the front of a sequence of bytes:
    the first byte tells how many bytes there are. *)
Definition utf8_decode_point (bs : list N) : option (N * list N) :=
  match bs with
  | [] => None
  | b0 :: bs1 =>
      if (b0 <? 128)%N then Some (b0, bs1)
      else if (b0 <? 224)%N then
        match bs1 with
        | b1 :: rest => Some ((b0 - 192) * 64 + (b1 - 128), rest)%N
        | _ => None
        end
      else if (b0 <? 240)%N then
        match bs1 with
        | b1 :: b2 :: rest =>
            Some ((b0 - 224) * 4096 + (b1 - 128) * 64 + (b2 - 128), rest)%N
        | _ => None
        end
      else
        match bs1 with
        | b1 :: b2 :: b3 :: rest =>
            Some ((b0 - 240) * 262144 + (b1 - 128) * 4096 + (b2 - 128) * 64
                  + (b3 - 128), rest)%N
        | _ => None
        end
  end.

(** The code units of a code point: itself, or a surrogate pair. *)
Definition utf16_encode_point (c : N) : list N :=
  if (c <? 65536)%N then [c]
  else [55296 + (c - 65536) / 1024; 56320 + (c - 65536) mod 1024]%N.

(** A UTF-16 code unit, and a text in which every surrogate is one of a
    pair: what [String.prototype.isWellFormed] tells. *)
Definition code_unit (u : N) : Prop := (u < 65536)%N.

Fixpoint well_formed (units : list N) : bool :=
  match units with
  | [] => true
  | u :: rest =>
      if high_surrogate u then
        match rest with
        | l :: rest' => low_surrogate l && well_formed rest'
        | [] => false
        end
      else negb (low_surrogate u) && well_formed rest
  end.

(** The characters of an encoded query: ASCII letters and digits, [*],
    [-], [.], [_], and the [%] and [+] of the encoding. *)
Definition query_char (c : ascii) : bool :=
  let n := N_of_ascii c in
  (urlencoded_keeps n || (n =? 37) || (n =? 43))%N.

Definition alphanumeric (c : ascii) : bool :=
  let n := N_of_ascii c in
  ((48 <=? n) && (n <=? 57) || (65 <=? n) && (n <=? 90)
   || (97 <=? n) && (n <=? 122))%N.

(** [savedWords.textContent]: the data of its text nodes, one after the
    other. *)
Definition textContent (texts : list string) : string :=
  foldr String.append EmptyString texts.

(** The [word] and the syllable count of an item of an answer; an item
    without the field has [undefined]. *)
Definition word_of (item : value) : prim :=
  key_of (λ x, get x "word") item.

Definition syllables_of (item : value) : prim :=
  key_of (key_selector (PValue (PStr "numSyllables"))) item.

(** An item that is not [null] or [undefined] and whose syllable count is
    a number or is missing. *)
Definition counted (item : value) : Prop :=
  ¬ nullish item
  ∧ (syllables_of item = PUndefined ∨ ∃ n, syllables_of item = PNum n).

(** The syllable counts of an answer, each once, in order of first
    occurrence. *)
Definition syllable_counts (data : list value) : list prim :=
  first_seen (syllables_of <$> data).

(** The items of an answer with [i] syllables, in the order of the
    answer, and what [rhymeCallBack] writes for them: the heading and one
    list item each. *)
Definition with_syllables (i : nat) (data : list value) : list value :=
  filter (λ x, syllables_of x = PNum (Z.of_nat i)) data.

Definition rhyme_section (i : nat) (items : list value) : list node :=
  Html (rhyme_heading (PNum (Z.of_nat i)))
  :: ((λ x, Html (rhyme_item (word_of x))) <$> items).

(** The descriptions the two callbacks write. *)
Definition description (callback : callback) (text : string) : list node :=
  match callback with
  | RhymeCallBack => [Html ("Words that rhyme with " +:+ text)]
  | SimilarCallBack => [Html ("Words with a similar meaning to " +:+ text)]
  end.

(** Code that only appends to [wordOutput]: it ends as [r] after adding
    the children [nodes]. *)
Definition writes (m : PM unit) (r : res unit) (nodes : list node) : Prop :=
  ∀ p, m p = (r, with_wordOutput (wordOutput p ++ nodes) p).

(** The children of a node. *)
Definition childNodes (n : node) : list node :=
  match n with
  | Element _ _ _ _ children => children
  | _ => []
  end.

(** Which of the two buttons is highlighted: it has the class
    [btn-primary] and not [btn-secondary], and the other button the
    reverse. *)
Definition highlighted (tokens : list string) : Prop :=
  "btn-primary" ∈ tokens.

Definition shows_rhymes (p : page) : Prop :=
  highlighted (showRhymesButton p)
  ∧ ("btn-secondary" ∉ showRhymesButton p)
  ∧ (¬ highlighted (showSynonymsButton p))
  ∧ "btn-secondary" ∈ showSynonymsButton p.

Definition shows_synonyms (p : page) : Prop :=
  highlighted (showSynonymsButton p)
  ∧ ("btn-secondary" ∉ showSynonymsButton p)
  ∧ (¬ highlighted (showRhymesButton p))
  ∧ "btn-secondary" ∈ showRhymesButton p.

Definition is_click (e : event) : Prop :=
  e = ClickShowRhymes ∨ e = ClickShowSynonyms.

(** ** Scenarios of the page script *)

Definition blank_page : page :=
  Page [] [] [] [] EmptyString [] [] [] [].

Definition word_rec (word : string) (numSyllables : Z) : value :=
  rec [("word", PStr word); ("numSyllables", PNum numSyllables)].

(** [obj => { if (typeof obj.n !== 'number') throw new Error('no number');
    return obj.n; }] *)
Definition number_key (obj : value) : res prim :=
  n ← get obj "n";
  match n with
  | PNum z => Ok (PNum z)
  | _ => Throw (UserError "no number")
  end.

Definition cat : value := word_rec "cat" 1.
Definition hat : value := word_rec "hat" 1.
Definition combat : value := word_rec "combat" 2.
Definition acrobat : value := word_rec "acrobat" 3.


(** * Properties *)

(** ** Scenarios of the specification *)

Example groupBy_empty : groupBy [] (PValue (PStr "team")) = Ok [].
Proof. reflexivity. Qed.

Example groupBy_single :
  groupBy [steve] (PValue (PStr "team")) = Ok [("blue", Some [steve])].
Proof. vm_compute. reflexivity. Qed.

Example groupBy_parity :
  groupBy [num_rec 1; num_rec 2; num_rec 1] (PFunction parity)
  = Ok [("0", Some [num_rec 2]); ("1", Some [num_rec 1; num_rec 1])].
Proof. vm_compute. reflexivity. Qed.

Example groupBy_teams :
  groupBy [steve; jack; carol] (PValue (PStr "team"))
  = Ok [("blue", Some [steve; carol]); ("red", Some [jack])].
Proof. vm_compute. reflexivity. Qed.

(** ** The error monad *)

Lemma res_bind_Ok {A B} (f : A → res B) (m : res A) (b : B) :
  m ≫= f = Ok b ↔ ∃ a, m = Ok a ∧ f a = Ok b.
Proof.
  destruct m as [a|e]; simpl; split.
  - intros Hf. by exists a.
  - by intros (a' & [= ->] & Hf).
  - done.
  - by intros (a' & [=] & _).
Qed.

(** ** String order *)

Lemma ascii_compare_refl (c : ascii) : Ascii.compare c c = Eq.
Proof. unfold Ascii.compare. apply N.compare_refl. Qed.

Lemma string_compare_refl (s : string) : String.compare s s = Eq.
Proof.
  induction s as [|c s IH]; simpl; [done|].
  by rewrite ascii_compare_refl.
Qed.

Lemma string_compare_Eq (s t : string) : String.compare s t = Eq ↔ s = t.
Proof.
  split; [apply String.compare_eq_iff|].
  intros ->. apply string_compare_refl.
Qed.

Lemma string_compare_Lt_trans (s t u : string) :
  String.compare s t = Lt → String.compare t u = Lt → String.compare s u = Lt.
Proof.
  revert t u. induction s as [|a s IH]; intros [|b t] [|c u]; simpl; try done.
  unfold Ascii.compare.
  destruct (N.compare_spec (N_of_ascii a) (N_of_ascii b)) as [Hab|Hab|Hab];
    try done;
    destruct (N.compare_spec (N_of_ascii b) (N_of_ascii c)) as [Hbc|Hbc|Hbc];
    try done; intros Hst Htu.
  - rewrite Hab, Hbc, N.compare_refl. eauto.
  - rewrite Hab. by apply N.compare_lt_iff in Hbc as ->.
  - rewrite <-Hbc. by apply N.compare_lt_iff in Hab as ->.
  - assert (N_of_ascii a < N_of_ascii c)%N as Hac by lia.
    by apply N.compare_lt_iff in Hac as ->.
Qed.


Lemma sort_compare_key (x y : prim) :
  sort_compare x y = key_compare (sort_key x) (sort_key y).
Proof. by destruct x, y. Qed.

Lemma key_compare_antisym (a b : option string) :
  key_compare a b = CompOpp (key_compare b a).
Proof. destruct a, b; simpl; try done. apply String.compare_antisym. Qed.

Lemma key_compare_Eq (a b : option string) : key_compare a b = Eq ↔ a = b.
Proof.
  destruct a, b; simpl; try done.
  rewrite string_compare_Eq. naive_solver.
Qed.

Lemma key_compare_Lt_trans (a b c : option string) :
  key_compare a b = Lt → key_compare b c = Lt → key_compare a c = Lt.
Proof.
  destruct a, b, c; simpl; try done. apply string_compare_Lt_trans.
Qed.

Global Instance key_le_trans : Transitive key_le.
Proof.
  intros a b c. unfold key_le. intros Hab Hbc.
  destruct (key_compare a b) eqn:E1; [|clear Hab|done].
  { by apply key_compare_Eq in E1 as ->. }
  destruct (key_compare b c) eqn:E2; [|clear Hbc|done].
  { apply key_compare_Eq in E2 as <-. by rewrite E1. }
  by rewrite (key_compare_Lt_trans a b c).
Qed.

Global Instance key_le_antisymm : AntiSymm (=) key_le.
Proof.
  intros a b. unfold key_le. rewrite (key_compare_antisym b a).
  destruct (key_compare a b) eqn:E; simpl; try done.
  intros _ _. by apply key_compare_Eq.
Qed.

Lemma sort_compare_antisym (x y : prim) :
  sort_compare x y = CompOpp (sort_compare y x).
Proof. rewrite !sort_compare_key. apply key_compare_antisym. Qed.

Global Instance sort_le_trans : Transitive sort_le.
Proof.
  intros x y z. unfold sort_le. rewrite !sort_compare_key.
  apply key_le_trans.
Qed.

Lemma to_string_sort_key (p : prim) :
  to_string p = default "undefined" (sort_key p).
Proof. by destruct p. Qed.

(** ** Sorting: permutation, order, stability *)

Section sort_facts.
Context {A : Type} (cmp : A → A → comparison).
Hypothesis cmp_antisym : ∀ x y, cmp x y = CompOpp (cmp y x).
Hypothesis cmp_le_trans : Transitive (λ x y, cmp x y ≠ Gt).

Local Abbreviation le := (λ x y, cmp x y ≠ Gt).

Lemma sort_insert_Permutation (x : A) (l : list A) :
  sort_insert cmp x l ≡ₚ x :: l.
Proof.
  induction l as [|y l IH]; simpl; [done|].
  destruct (cmp x y); try done.
  by rewrite IH, Permutation_swap.
Qed.

Lemma sort_by_Permutation (l : list A) : sort_by cmp l ≡ₚ l.
Proof.
  induction l as [|x l IH]; simpl; [done|].
  by rewrite sort_insert_Permutation, IH.
Qed.

Lemma sort_insert_StronglySorted (x : A) (l : list A) :
  StronglySorted le l → StronglySorted le (sort_insert cmp x l).
Proof.
  induction 1 as [|y l Hl IH Hy]; simpl.
  { repeat constructor. }
  destruct (cmp x y) eqn:E.
  - constructor; [by constructor|]. constructor; [by rewrite E|].
    eapply Forall_impl; [done|]. intros z Hz. simpl.
    eapply (cmp_le_trans x y z); [by rewrite E|done].
  - constructor; [by constructor|]. constructor; [by rewrite E|].
    eapply Forall_impl; [done|]. intros z Hz. simpl.
    eapply (cmp_le_trans x y z); [by rewrite E|done].
  - constructor; [done|].
    rewrite sort_insert_Permutation. constructor; [|done].
    rewrite cmp_antisym, E. done.
Qed.

Lemma sort_by_StronglySorted (l : list A) :
  StronglySorted le (sort_by cmp l).
Proof.
  induction l as [|x l IH]; simpl; [constructor|].
  by apply sort_insert_StronglySorted.
Qed.

(** Stability: elements that compare equal keep their relative order. *)
Lemma sort_insert_stable (P : A → Prop) `{!∀ x, Decision (P x)} x l :
  (∀ y z, P y → P z → cmp y z = Eq) →
  filter P (sort_insert cmp x l) = filter P (x :: l).
Proof.
  intros HP. induction l as [|y l IH]; simpl; [done|].
  destruct (cmp x y) eqn:E; try done.
  rewrite filter_cons, IH, !filter_cons.
  destruct (decide (P y)) as [Hy|Hy], (decide (P x)) as [Hx|Hx]; try done.
  by rewrite (HP x y) in E.
Qed.

Lemma sort_by_stable (P : A → Prop) `{!∀ x, Decision (P x)} l :
  (∀ y z, P y → P z → cmp y z = Eq) →
  filter P (sort_by cmp l) = filter P l.
Proof.
  intros HP. induction l as [|x l IH]; simpl; [done|].
  rewrite sort_insert_stable by done.
  by rewrite !filter_cons, IH.
Qed.
(** The three properties determine the outcome: whatever computes a
    stable sorted permutation computes what [sort_by] computes. *)
Lemma stable_sorted_unique (l1 l2 : list A) :
  (∀ x, cmp x x = Eq) →
  StronglySorted le l1 → StronglySorted le l2 → l1 ≡ₚ l2 →
  (∀ x, filter (λ y, cmp x y = Eq) l1 = filter (λ y, cmp x y = Eq) l2) →
  l1 = l2.
Proof.
  intros Hrefl Hs1. revert l2.
  induction Hs1 as [|a l1 Hs1 IH Ha]; intros l2 Hs2 Hperm Hstable.
  { by apply Permutation_nil_l in Hperm. }
  destruct Hs2 as [|b l2 Hs2 Hb].
  { by apply Permutation_nil_r in Hperm. }
  assert (cmp a b = Eq) as Hab.
  { assert (cmp a b ≠ Gt) as Hle1.
    { assert (b ∈ a :: l1) as [->|Hin]%elem_of_cons
        by (rewrite Hperm; left).
      - by rewrite Hrefl.
      - by apply (proj1 (Forall_forall _ _) Ha). }
    assert (cmp b a ≠ Gt) as Hle2.
    { assert (a ∈ b :: l2) as [->|Hin]%elem_of_cons
        by (rewrite <-Hperm; left).
      - by rewrite Hrefl.
      - by apply (proj1 (Forall_forall _ _) Hb). }
    rewrite cmp_antisym in Hle2. by destruct (cmp a b). }
  assert (a = b) as <-.
  { specialize (Hstable a). rewrite !filter_cons in Hstable.
    rewrite !decide_True in Hstable by done. by injection Hstable. }
  f_equal. apply IH; [done|by eapply Permutation_cons_inv|].
  intros x. specialize (Hstable x). rewrite !filter_cons in Hstable.
  destruct (decide (cmp x a = Eq)); [by injection Hstable|done].
Qed.

Lemma sort_by_unique (l l' : list A) :
  (∀ x, cmp x x = Eq) →
  StronglySorted le l' → l' ≡ₚ l →
  (∀ x, filter (λ y, cmp x y = Eq) l' = filter (λ y, cmp x y = Eq) l) →
  l' = sort_by cmp l.
Proof.
  intros Hrefl Hsorted Hperm Hstable.
  apply stable_sorted_unique; [done|done| | |].
  - apply sort_by_StronglySorted.
  - by rewrite sort_by_Permutation.
  - intros x. rewrite Hstable. symmetry. apply sort_by_stable.
    intros y z Hy Hz.
    assert (cmp y x = Eq) as Hyx by (by rewrite cmp_antisym, Hy).
    assert (cmp z x = Eq) as Hzx by (by rewrite cmp_antisym, Hz).
    assert (cmp y z ≠ Gt) as H1.
    { apply (cmp_le_trans y x z); [by rewrite Hyx|by rewrite Hz]. }
    assert (cmp z y ≠ Gt) as H2.
    { apply (cmp_le_trans z x y); [by rewrite Hzx|by rewrite Hy]. }
    rewrite cmp_antisym in H2. by destruct (cmp y z).
Qed.
End sort_facts.

(** ** Lists *)

Lemma filter_all {A} (P : A → Prop) `{!∀ x, Decision (P x)} (l : list A) :
  Forall P l → filter P l = l.
Proof.
  induction 1 as [|x l Hx Hl IH]; [done|].
  by rewrite filter_cons_True, IH.
Qed.

Lemma filter_none {A} (P : A → Prop) `{!∀ x, Decision (P x)} (l : list A) :
  Forall (λ x, ¬ P x) l → filter P l = [].
Proof.
  induction 1 as [|x l Hx Hl IH]; [done|].
  by rewrite filter_cons_False.
Qed.

Lemma filter_fmap {A B} (f : A → B) (P : B → Prop) `{!∀ y, Decision (P y)}
    (l : list A) :
  filter P (f <$> l) = f <$> filter (λ x, P (f x)) l.
Proof.
  induction l as [|x l IH]; csimpl; [done|].
  rewrite !filter_cons, IH. by destruct (decide (P (f x))).
Qed.

(** ** Keys in order of first occurrence *)

Section first_seen.
Context {A : Type} `{!EqDecision A}.


Lemma elem_of_first_seen (l : list A) x : x ∈ first_seen l ↔ x ∈ l.
Proof.
  induction l as [|y l IH]; simpl; [done|].
  rewrite !elem_of_cons, list_elem_of_filter, IH.
  destruct (decide (x = y)); naive_solver.
Qed.

Lemma NoDup_first_seen (l : list A) : NoDup (first_seen l).
Proof.
  induction l as [|y l IH]; simpl; constructor.
  - rewrite list_elem_of_filter. naive_solver.
  - by apply NoDup_filter.
Qed.

Lemma first_seen_NoDup (l : list A) : NoDup l → first_seen l = l.
Proof.
  induction 1 as [|x l Hx Hl IH]; simpl; [done|].
  rewrite IH. f_equal. apply filter_all, Forall_forall.
  intros y Hy ->. done.
Qed.

Lemma filter_first_seen (P : A → Prop) `{!∀ x, Decision (P x)} l :
  filter P (first_seen l) = first_seen (filter P l).
Proof.
  induction l as [|x l IH]; simpl; [done|].
  rewrite !filter_cons. destruct (decide (P x)); simpl.
  - by rewrite <-IH, !list_filter_filter, (list_filter_iff (λ y, P y ∧ y ≠ x) (λ y, y ≠ x ∧ P y)) by naive_solver.
  - rewrite <-IH, list_filter_filter. apply list_filter_iff. naive_solver.
Qed.

Lemma first_seen_app (l1 l2 : list A) :
  first_seen (l1 ++ l2)
  = first_seen l1 ++ filter (λ y, y ∉ l1) (first_seen l2).
Proof.
  induction l1 as [|x l1 IH]; simpl.
  { symmetry. apply filter_all, Forall_forall.
    intros y _. apply not_elem_of_nil. }
  rewrite IH, filter_app, list_filter_filter. do 2 f_equal.
  apply list_filter_iff. intros y. rewrite not_elem_of_cons. naive_solver.
Qed.
End first_seen.

(** ** Dictionaries *)

Section dict_facts.
Context {K : Type} `{!EqDecision K} {V : Type}.
Implicit Types (m : dict K V) (k : K) (v : V).

Lemma dict_get_is_Some m k : is_Some (dict_get m k) ↔ k ∈ dict_keys m.
Proof.
  unfold dict_keys. induction m as [|[k' v'] m IH]; simpl.
  - rewrite elem_of_nil. split; [by intros [? ?]|done].
  - rewrite elem_of_cons. destruct (decide (k' = k)) as [->|Hne].
    + split; eauto.
    + rewrite IH. naive_solver.
Qed.

Lemma dict_get_None m k : dict_get m k = None ↔ k ∉ dict_keys m.
Proof. rewrite <-dict_get_is_Some, eq_None_not_Some. done. Qed.

Lemma dict_has_true m k : dict_has m k = true ↔ k ∈ dict_keys m.
Proof. unfold dict_has. by rewrite bool_decide_eq_true, dict_get_is_Some. Qed.

Lemma dict_has_false m k : dict_has m k = false ↔ k ∉ dict_keys m.
Proof. unfold dict_has. by rewrite bool_decide_eq_false, dict_get_is_Some. Qed.

Lemma dict_get_set m k v k' :
  dict_get (dict_set m k v) k'
  = if decide (k = k') then Some v else dict_get m k'.
Proof.
  induction m as [|[k0 v0] m IH]; simpl.
  - by destruct (decide (k = k')).
  - destruct (decide (k0 = k)) as [->|Hne]; simpl.
    + by destruct (decide (k = k')).
    + rewrite IH. destruct (decide (k0 = k')) as [->|?]; [|done].
      by rewrite decide_False by done.
Qed.

Lemma dict_keys_set_old m k v :
  k ∈ dict_keys m → dict_keys (dict_set m k v) = dict_keys m.
Proof.
  unfold dict_keys. induction m as [|[k0 v0] m IH]; simpl.
  - by intros ?%elem_of_nil.
  - intros Hin. destruct (decide (k0 = k)) as [->|Hne]; simpl; [done|].
    f_equal. apply IH. apply elem_of_cons in Hin as [?|?]; [congruence|done].
Qed.

Lemma dict_keys_set_new m k v :
  k ∉ dict_keys m → dict_keys (dict_set m k v) = dict_keys m ++ [k].
Proof.
  unfold dict_keys. induction m as [|[k0 v0] m IH]; simpl; [done|].
  intros [Hne Hin]%not_elem_of_cons.
  rewrite decide_False by done. simpl. f_equal. by apply IH.
Qed.

Lemma dict_keys_set m k v :
  dict_keys (dict_set m k v)
  = dict_keys m ++ (if decide (k ∈ dict_keys m) then [] else [k]).
Proof.
  destruct (decide (k ∈ dict_keys m)).
  - by rewrite dict_keys_set_old, app_nil_r.
  - by rewrite dict_keys_set_new.
Qed.

Lemma dict_keys_set_NoDup m k v :
  NoDup (dict_keys m) → NoDup (dict_keys (dict_set m k v)).
Proof.
  intros Hnd. rewrite dict_keys_set. case_decide.
  - by rewrite app_nil_r.
  - apply NoDup_app. split_and!; [done| |apply NoDup_singleton].
    intros x Hx ->%list_elem_of_singleton. done.
Qed.

(** A dictionary is determined by its key sequence and its lookups. *)
Lemma dict_eq m1 m2 :
  NoDup (dict_keys m1) →
  dict_keys m1 = dict_keys m2 →
  (∀ k, k ∈ dict_keys m1 → dict_get m1 k = dict_get m2 k) →
  m1 = m2.
Proof.
  unfold dict_keys. revert m2.
  induction m1 as [|[k1 v1] m1 IH]; intros [|[k2 v2] m2]; simpl; try done.
  intros [Hk1 Hnd]%NoDup_cons [= <- Hks] Hget.
  pose proof (Hget k1 (list_elem_of_here _ _)) as Hv.
  rewrite !decide_True in Hv by done. injection Hv as <-.
  f_equal. apply IH; [done..|]. intros k Hk.
  specialize (Hget k (list_elem_of_further _ _ _ Hk)).
  by rewrite !decide_False in Hget by (by intros ->).
Qed.

Lemma dict_get_elem_of m k v : dict_get m k = Some v → (k, v) ∈ m.
Proof.
  induction m as [|[k0 v0] m IH]; simpl; [done|].
  destruct (decide (k0 = k)) as [->|Hne].
  - intros [= ->]. left.
  - intros Hget. right. by apply IH.
Qed.

Lemma dict_elem_of_get m k v :
  NoDup (dict_keys m) → (k, v) ∈ m → dict_get m k = Some v.
Proof.
  unfold dict_keys. induction m as [|[k0 v0] m IH]; simpl.
  { by intros _ ?%elem_of_nil. }
  intros [Hk0 Hnd]%NoDup_cons [[= -> ->]|Hin]%elem_of_cons.
  - by rewrite decide_True.
  - rewrite decide_False; [by apply IH|]. intros ->. apply Hk0.
    apply list_elem_of_fmap. by exists (k, v).
Qed.
End dict_facts.

(** ** The first loop builds the groups in first-seen key order *)


Lemma returns_on_key_of {A} (sel : A → res prim) x k : sel x = Ok k → key_of sel x = k.
Proof. unfold key_of. by intros ->. Qed.

Section group_loop.
Context {A : Type} (sel : A → res prim).
Implicit Types (m : jsmap (list A)) (x : A) (k : prim).

Lemma group_step_Ok m x k :
  sel x = Ok k →
  group_step sel m x
  = Ok (map_set (if map_has m k then m else map_set m k []) k
          (default [] (map_get m k) ++ [x])).
Proof.
  intros Hsel. unfold group_step. rewrite Hsel. simpl.
  unfold map_push. destruct (map_has m k) eqn:Hhas.
  - apply dict_has_true, dict_get_is_Some in Hhas as [arr Harr].
    by rewrite Harr.
  - apply dict_has_false, dict_get_None in Hhas.
    by rewrite dict_get_set, decide_True, Hhas.
Qed.

Lemma group_step_Throw m x e :
  sel x = Throw e → group_step sel m x = Throw e.
Proof. intros Hsel. unfold group_step. by rewrite Hsel. Qed.

Lemma group_step_returns m x m' :
  group_step sel m x = Ok m' → ∃ k, sel x = Ok k.
Proof.
  destruct (sel x) as [k|e] eqn:Hsel; [by eauto|].
  by rewrite (group_step_Throw _ _ e).
Qed.

Lemma group_loop_returns m objects m' :
  group_loop sel m objects = Ok m' → returns_on sel objects.
Proof.
  revert m. induction objects as [|x objects IH]; intros m; simpl.
  { constructor. }
  intros (m1 & Hstep & Hloop)%res_bind_Ok.
  constructor; [by eapply group_step_returns|by eapply IH].
Qed.

Lemma group_loop_snoc m objects x :
  group_loop sel m (objects ++ [x])
  = group_loop sel m objects ≫= λ m', group_step sel m' x.
Proof.
  revert m. induction objects as [|y objects IH]; intros m; simpl.
  { by destruct (group_step sel m x). }
  destruct (group_step sel m y) as [m1|e]; simpl; [apply IH|done].
Qed.

Lemma grouped_keys objects :
  map_keys (grouped sel objects) = first_seen (key_of sel <$> objects).
Proof.
  unfold map_keys, grouped. rewrite <-list_fmap_compose.
  apply list_fmap_id.
Qed.

Lemma grouped_get objects k :
  k ∈ key_of sel <$> objects →
  map_get (grouped sel objects) k = Some (members sel objects k).
Proof.
  intros Hk%elem_of_first_seen. unfold grouped.
  induction (first_seen (key_of sel <$> objects)) as [|k' ks IH]; simpl.
  { by apply elem_of_nil in Hk. }
  destruct (decide (k' = k)) as [->|Hne]; [done|].
  apply IH. apply elem_of_cons in Hk as [?|?]; [congruence|done].
Qed.

Lemma grouped_get_None objects k :
  k ∉ key_of sel <$> objects → map_get (grouped sel objects) k = None.
Proof.
  intros Hk. apply dict_get_None. by rewrite grouped_keys, elem_of_first_seen.
Qed.

(** The loop invariant in closed form. *)
Lemma group_loop_grouped objects :
  returns_on sel objects →
  group_loop sel [] objects = Ok (grouped sel objects).
Proof.
  induction objects as [|x objects IH] using rev_ind; [done|].
  intros [Hobjs Hx]%Forall_app. apply Forall_singleton in Hx as [k Hk].
  rewrite group_loop_snoc, IH by done. simpl.
  rewrite (group_step_Ok _ _ k) by done. f_equal.
  pose proof (returns_on_key_of _ _ _ Hk) as Hkey.
  assert (map_keys (map_set (if map_has (grouped sel objects) k
                             then grouped sel objects
                             else map_set (grouped sel objects) k []) k
                      (default [] (map_get (grouped sel objects) k) ++ [x]))
          = map_keys (grouped sel (objects ++ [x]))) as Hkeys.
  { rewrite !grouped_keys, fmap_app, first_seen_app. simpl. rewrite Hkey.
    destruct (map_has (grouped sel objects) k) eqn:Hhas.
    - apply dict_has_true in Hhas.
      rewrite dict_keys_set_old, grouped_keys by done.
      rewrite grouped_keys, elem_of_first_seen in Hhas.
      rewrite filter_cons_False by naive_solver.
      by rewrite filter_nil, app_nil_r.
    - apply dict_has_false in Hhas.
      rewrite dict_keys_set_old, dict_keys_set_new, grouped_keys.
      + rewrite grouped_keys, elem_of_first_seen in Hhas.
        by rewrite filter_cons_True, filter_nil.
      + done.
      + rewrite dict_keys_set_new by done. set_solver. }
  symmetry. apply dict_eq.
  - rewrite grouped_keys. apply NoDup_first_seen.
  - done.
  - intros k' Hk'. rewrite grouped_keys, elem_of_first_seen in Hk'.
    rewrite grouped_get by done. rewrite dict_get_set.
    unfold members. rewrite filter_app, filter_cons, filter_nil, Hkey.
    destruct (decide (k = k')) as [<-|Hne].
    + f_equal. f_equal.
      destruct (decide (k ∈ key_of sel <$> objects)) as [Hin|Hin].
      * by rewrite grouped_get.
      * rewrite grouped_get_None by done. simpl.
        rewrite filter_none; [done|]. apply Forall_forall. intros y Hy Hyk. apply Hin.
        apply list_elem_of_fmap. eauto.
    + rewrite app_nil_r.
      assert (k' ∈ key_of sel <$> objects) as Hin.
      { rewrite fmap_app in Hk'. simpl in Hk'. rewrite Hkey in Hk'.
        set_solver. }
      destruct (map_has (grouped sel objects) k).
      * by rewrite grouped_get.
      * rewrite dict_get_set, decide_False by done. by rewrite grouped_get.
Qed.

Lemma group_loop_Ok objects m :
  group_loop sel [] objects = Ok m ↔
  returns_on sel objects ∧ m = grouped sel objects.
Proof.
  split.
  - intros Hloop. pose proof (group_loop_returns _ _ _ Hloop) as Hret.
    rewrite group_loop_grouped in Hloop by done. naive_solver.
  - intros [Hret ->]. by apply group_loop_grouped.
Qed.
End group_loop.

(** ** The second loop builds the result object *)

Section emit.
Context {A : Type} (m : jsmap (list A)).
Implicit Types (o : jsobject A) (ks : list prim) (s : string).

Lemma emit_own o k :
  own_key k → emit m o k = dict_set o (to_string k) (map_get m k).
Proof.
  intros Hk. unfold emit, obj_set, to_property_key. by rewrite decide_False.
Qed.

Lemma emit_proto o k : ¬ own_key k → emit m o k = o.
Proof.
  intros Hk. unfold emit, obj_set, to_property_key. rewrite decide_True; [done|].
  unfold own_key in Hk. by destruct (decide (to_string k = "__proto__")).
Qed.

(** Only the keys other than [__proto__] leave a trace in the result. *)
Lemma emit_loop_filter o ks :
  foldl (emit m) o ks = foldl (emit m) o (filter own_key ks).
Proof.
  revert o. induction ks as [|k ks IH]; intros o; simpl; [done|].
  rewrite filter_cons. destruct (decide (own_key k)) as [Hk|Hk]; simpl.
  - apply IH.
  - by rewrite emit_proto.
Qed.

Lemma emit_loop_keys_own o ks :
  Forall own_key ks →
  dict_keys (foldl (emit m) o ks)
  = dict_keys o
    ++ filter (λ s, s ∉ dict_keys o) (first_seen (to_string <$> ks)).
Proof.
  intros Hown. revert o. induction Hown as [|k ks Hk Hown IH]; intros o; simpl.
  { by rewrite app_nil_r. }
  rewrite IH, emit_own, dict_keys_set, filter_cons by done.
  destruct (decide (to_string k ∈ dict_keys o)) as [Hin|Hin].
  - rewrite decide_False by naive_solver. rewrite app_nil_r. f_equal.
    rewrite list_filter_filter. apply list_filter_iff. intros s.
    split; [|naive_solver]. intros Hs. split; [done|]. by intros ->.
  - rewrite decide_True by done. rewrite <-app_assoc. simpl. do 2 f_equal.
    rewrite list_filter_filter. apply list_filter_iff. intros s.
    rewrite not_elem_of_app, list_elem_of_singleton. naive_solver.
Qed.

Lemma emit_loop_get_own o ks s :
  Forall own_key ks →
  dict_get (foldl (emit m) o ks) s
  = match last (filter (λ k, to_string k = s) ks) with
    | Some k => Some (map_get m k)
    | None => dict_get o s
    end.
Proof.
  intros Hown. revert o. induction Hown as [|k ks Hk Hown IH]; intros o; simpl.
  { done. }
  rewrite IH, filter_cons, emit_own, dict_get_set by done.
  destruct (decide (to_string k = s)) as [Hs|Hs].
  - rewrite last_cons. by destruct (last _).
  - done.
Qed.

Lemma Forall_filter_own ks : Forall own_key (filter own_key ks).
Proof. apply Forall_forall. by intros k [? _]%list_elem_of_filter. Qed.

Lemma emit_loop_keys o ks :
  dict_keys (foldl (emit m) o ks)
  = dict_keys o
    ++ filter (λ s, s ∉ dict_keys o)
         (first_seen (to_string <$> filter own_key ks)).
Proof.
  rewrite emit_loop_filter. apply emit_loop_keys_own, Forall_filter_own.
Qed.

Lemma emit_loop_get o ks s :
  dict_get (foldl (emit m) o ks) s
  = match last (filter (λ k, to_string k = s) (filter own_key ks)) with
    | Some k => Some (map_get m k)
    | None => dict_get o s
    end.
Proof.
  rewrite emit_loop_filter. apply emit_loop_get_own, Forall_filter_own.
Qed.
End emit.


Lemma groupBy_Ok objects property result :
  groupBy objects property = Ok result ↔
  returns_on (key_selector property) objects ∧
  result = foldl (emit (grouped (key_selector property) objects)) []
             (emitted (key_selector property) objects).
Proof.
  unfold groupBy, emitted. split.
  - intros (m & [Hret ->]%group_loop_Ok & [= <-])%res_bind_Ok.
    by rewrite grouped_keys.
  - intros [Hret ->]. rewrite group_loop_grouped by done. simpl.
    by rewrite grouped_keys.
Qed.

Lemma groupBy_Throw objects property :
  ¬ returns_on (key_selector property) objects →
  ∃ e, groupBy objects property = Throw e.
Proof.
  intros Hret. destruct (groupBy objects property) as [r|e] eqn:E; [|eauto].
  by apply groupBy_Ok in E as [? _].
Qed.

Lemma emitted_Permutation {A} (sel : A → res prim) objects :
  emitted sel objects ≡ₚ first_seen (key_of sel <$> objects).
Proof. apply sort_by_Permutation. Qed.

Lemma emitted_NoDup {A} (sel : A → res prim) objects : NoDup (emitted sel objects).
Proof. rewrite emitted_Permutation. apply NoDup_first_seen. Qed.

Lemma elem_of_emitted {A} (sel : A → res prim) objects k :
  k ∈ emitted sel objects ↔ ∃ x, x ∈ objects ∧ key_of sel x = k.
Proof.
  rewrite emitted_Permutation, elem_of_first_seen, list_elem_of_fmap.
  naive_solver.
Qed.

Lemma elem_of_emitted_returns {A} (sel : A → res prim) objects k :
  returns_on sel objects →
  k ∈ emitted sel objects ↔ ∃ x, x ∈ objects ∧ sel x = Ok k.
Proof.
  intros Hret. rewrite elem_of_emitted. split.
  - intros (x & Hx & <-). exists x. split; [done|].
    destruct (proj1 (Forall_forall _ _) Hret x Hx) as [k Hk].
    by rewrite (returns_on_key_of _ _ _ Hk).
  - intros (x & Hx & Hk). exists x. split; [done|].
    by apply returns_on_key_of.
Qed.

Lemma emitted_StronglySorted {A} (sel : A → res prim) objects :
  StronglySorted sort_le (emitted sel objects).
Proof.
  apply sort_by_StronglySorted.
  - apply sort_compare_antisym.
  - apply sort_le_trans.
Qed.

Section result.
Context {A : Type} (sel : A → res prim) (objects : list A).

Let result : jsobject A :=
  foldl (emit (grouped sel objects)) [] (emitted sel objects).

Lemma result_keys :
  dict_keys result
  = first_seen (to_string <$> filter own_key (emitted sel objects)).
Proof.
  unfold result. rewrite emit_loop_keys. simpl.
  apply filter_all, Forall_forall. intros s _. apply not_elem_of_nil.
Qed.

Lemma result_keys_NoDup : NoDup (dict_keys result).
Proof. rewrite result_keys. apply NoDup_first_seen. Qed.

Lemma elem_of_result_keys s :
  s ∈ dict_keys result ↔
  s ≠ "__proto__" ∧ ∃ x, x ∈ objects ∧ to_string (key_of sel x) = s.
Proof.
  rewrite result_keys, elem_of_first_seen, list_elem_of_fmap.
  split.
  - intros (k & -> & [Hk (x & Hx & <-)%elem_of_emitted]%list_elem_of_filter).
    eauto.
  - intros (Hs & x & Hx & <-). exists (key_of sel x). split; [done|].
    apply list_elem_of_filter. split; [done|]. apply elem_of_emitted. eauto.
Qed.

(** The property named [s] holds the group of the last emitted key whose
    string form is [s]. *)
Lemma result_get s :
  dict_get result s
  = (λ k, Some (members sel objects k))
    <$> last (filter (λ k, to_string k = s)
                (filter own_key (emitted sel objects))).
Proof.
  unfold result. rewrite emit_loop_get. simpl.
  destruct (last _) as [k|] eqn:Hlast; simpl; [|done].
  f_equal. apply grouped_get.
  apply last_Some_elem_of, list_elem_of_filter in Hlast as [_ Hk].
  apply list_elem_of_filter in Hk as [_ Hk].
  apply elem_of_emitted in Hk as (x & Hx & <-).
  by apply list_elem_of_fmap_2.
Qed.

Lemma result_get_own s :
  s ≠ "__proto__" →
  dict_get result s
  = (λ k, Some (members sel objects k))
    <$> last (filter (λ k, to_string k = s) (emitted sel objects)).
Proof.
  intros Hs. rewrite result_get, list_filter_filter. do 2 f_equal.
  apply list_filter_iff. intros k. unfold own_key. naive_solver.
Qed.

Lemma result_get_Some s v :
  dict_get result s = Some v →
  ∃ k, k ∈ emitted sel objects ∧ to_string k = s
       ∧ v = Some (members sel objects k).
Proof.
  rewrite result_get. destruct (last _) as [k|] eqn:Hlast; simpl; [|done].
  intros [= <-]. exists k.
  apply last_Some_elem_of, list_elem_of_filter in Hlast as [? Hk].
  by apply list_elem_of_filter in Hk as [_ Hk].
Qed.
End result.

(** ** Array indices and the enumeration order of own properties *)

Lemma N_to_uint_nonnil (n : N) : N.to_uint n ≠ Nil.
Proof.
  destruct n as [|p]; simpl; [done|].
  intros Hnil. pose proof (DecimalPos.Unsigned.to_uint_nonnil p). done.
Qed.

Lemma index_to_string_inj : Inj (=) (=) index_to_string.
Proof.
  intros n n' Heq. unfold index_to_string in Heq.
  apply DecimalN.Unsigned.to_uint_inj.
  assert (Some (N.to_uint n) = Some (N.to_uint n')) as [=]; [|done].
  rewrite <-!NilZero.usu by apply N_to_uint_nonnil. by rewrite Heq.
Qed.

Lemma array_index_Some (s : string) (n : N) :
  array_index s = Some n → index_to_string n = s ∧ (n < 4294967295)%N.
Proof.
  unfold array_index, index_to_string.
  destruct (NilZero.uint_of_string s) as [d|]; [|done].
  destruct (String.eqb_spec (NilZero.string_of_uint (N.to_uint (N.of_uint d))) s)
    as [Heq|Hne]; simpl; [|done].
  destruct (N.ltb_spec (N.of_uint d) 4294967295); [|done].
  by intros [= <-].
Qed.

Lemma array_index_to_string (n : N) :
  (n < 4294967295)%N → array_index (index_to_string n) = Some n.
Proof.
  intros Hn. unfold array_index, index_to_string.
  rewrite NilZero.usu by apply N_to_uint_nonnil.
  rewrite DecimalN.Unsigned.of_to, String.eqb_refl. simpl.
  by apply N.ltb_lt in Hn as ->.
Qed.

Lemma N_compare_antisym (x y : N) : (x ?= y)%N = CompOpp (y ?= x)%N.
Proof. apply N.compare_antisym. Qed.

Lemma N_compare_le_trans : Transitive (λ x y : N, (x ?= y)%N ≠ Gt).
Proof. intros x y z. rewrite !N.compare_le_iff. lia. Qed.

Lemma index_keys_sorted {A} (o : jsobject A) :
  NoDup (dict_keys o) →
  StronglySorted N.lt (sort_by N.compare (index_keys o)).
Proof.
  intros Hnd.
  assert (NoDup (sort_by N.compare (index_keys o))) as Hnd'.
  { rewrite sort_by_Permutation. unfold index_keys.
    fold (dict_keys o). clear -Hnd. induction Hnd as [|s l Hs Hl IH]; simpl.
    { constructor. }
    destruct (array_index s) as [n|] eqn:Hn; [|done].
    constructor; [|done]. intros (s' & Hs' & Hn')%list_elem_of_omap.
    apply array_index_Some in Hn as [<- _]. apply array_index_Some in Hn' as [<- _].
    done. }
  pose proof (sort_by_StronglySorted N.compare N_compare_antisym
                N_compare_le_trans (index_keys o)) as Hsorted.
  induction Hsorted as [|n l Hl IH Hn]; [constructor|].
  apply NoDup_cons in Hnd' as [Hnl Hnd']. constructor; [by apply IH|].
  apply Forall_forall. intros n' Hn'.
  rewrite Forall_forall in Hn. specialize (Hn n' Hn').
  assert (n ≤ n')%N by (by apply N.compare_le_iff).
  assert (n ≠ n') by (by intros ->). lia.
Qed.

Lemma index_keys_strings (l : list string) :
  index_to_string <$> omap array_index l
  = filter (λ s, ¬ array_index s = None) l.
Proof.
  induction l as [|s l IH]; simpl; [done|].
  destruct (array_index s) as [n|] eqn:Hn; simpl.
  - rewrite filter_cons_True by (by rewrite Hn).
    f_equal; [by apply array_index_Some in Hn as [? _]|exact IH].
  - rewrite filter_cons_False by naive_solver. exact IH.
Qed.

Lemma own_keys_Permutation {A} (o : jsobject A) : own_keys o ≡ₚ dict_keys o.
Proof.
  unfold own_keys, name_keys, index_keys. fold (dict_keys o).
  rewrite sort_by_Permutation, index_keys_strings.
  rewrite (comm (++)). apply filter_app_complement.
Qed.

Lemma own_keys_NoDup {A} (o : jsobject A) : NoDup (dict_keys o) → NoDup (own_keys o).
Proof. by rewrite own_keys_Permutation. Qed.

Lemma elem_of_own_keys {A} (o : jsobject A) s : s ∈ own_keys o ↔ s ∈ dict_keys o.
Proof. by rewrite own_keys_Permutation. Qed.

Lemma dict_entries_of_keys {K V} `{!EqDecision K} (m : dict K V) :
  NoDup (dict_keys m) →
  omap (λ k, (k,.) <$> dict_get m k) (dict_keys m) = m.
Proof.
  unfold dict_keys. induction m as [|[k v] m IH]; simpl; [done|].
  intros [Hk Hnd]%NoDup_cons. rewrite decide_True by done. simpl. f_equal.
  etrans; [|by apply IH]. apply list_omap_ext, Forall2_same_length_lookup.
  split; [done|]. intros i k1 k2 Hk1 Hk2.
  assert (k1 = k2) as <-.
  { apply (inj Some). rewrite <-Hk1. exact Hk2. }
  rewrite decide_False; [done|]. intros ->.
  by apply list_elem_of_lookup_2 in Hk1.
Qed.

Lemma obj_entries_Permutation {A} (o : jsobject A) :
  NoDup (dict_keys o) → obj_entries o ≡ₚ o.
Proof.
  intros Hnd. unfold obj_entries.
  rewrite own_keys_Permutation. by rewrite dict_entries_of_keys.
Qed.

Lemma elem_of_obj_entries {A} (o : jsobject A) s v :
  (s, v) ∈ obj_entries o ↔ dict_get o s = Some v.
Proof.
  unfold obj_entries. rewrite list_elem_of_omap. split.
  - intros (k & _ & Hk). destruct (dict_get o k) eqn:E; naive_solver.
  - intros Hget. exists s. rewrite Hget. split; [|done].
    apply elem_of_own_keys, dict_get_is_Some. eauto.
Qed.

(** ** Groups are the records of one key, in input order *)

Lemma members_filter {A} (sel : A → res prim) objects k :
  returns_on sel objects →
  members sel objects k = filter (λ x, sel x = Ok k) objects.
Proof.
  unfold members, returns_on. induction 1 as [|x l [k' Hx] Hl IH]; [done|].
  rewrite !filter_cons, IH. unfold key_of. rewrite Hx.
  destruct (decide (k' = k)) as [->|Hne].
  - by rewrite decide_True.
  - by rewrite decide_False by congruence.
Qed.

Lemma elem_of_members {A} (sel : A → res prim) objects k x :
  x ∈ members sel objects k ↔ x ∈ objects ∧ key_of sel x = k.
Proof. unfold members. rewrite list_elem_of_filter. naive_solver. Qed.

Lemma members_nonempty {A} (sel : A → res prim) objects k :
  k ∈ emitted sel objects → members sel objects k ≠ [].
Proof.
  intros (x & Hx & Hk)%elem_of_emitted Hnil.
  assert (x ∈ members sel objects k) as Hin by by apply elem_of_members.
  rewrite Hnil in Hin. by apply elem_of_nil in Hin.
Qed.

(** C4.  Stable grouping: every group of the result is, for one key, the
    list of the input records having that key, in the order in which they
    stand in the input; in particular it is a subsequence of the input. *)
Theorem groupBy_stable objects property result s v :
  groupBy objects property = Ok result →
  (s, v) ∈ obj_entries result →
  ∃ k, to_string k = s
       ∧ v = Some (filter (λ x, key_selector property x = Ok k) objects)
       ∧ filter (λ x, key_selector property x = Ok k) objects `sublist_of` objects.
Proof.
  intros [Hret ->]%groupBy_Ok Hentry%elem_of_obj_entries.
  apply result_get_Some in Hentry as (k & _ & Hs & ->).
  exists k. rewrite members_filter by done.
  split_and!; [done..|]. apply sublist_filter.
Qed.

Lemma groupBy_stable_witness :
  ∃ k, to_string k = "blue"
       ∧ Some [steve; carol]
         = Some (filter (λ x, key_selector (PValue (PStr "team")) x = Ok k)
                   [steve; jack; carol])
       ∧ filter (λ x, key_selector (PValue (PStr "team")) x = Ok k)
           [steve; jack; carol] `sublist_of` [steve; jack; carol].
Proof.
  apply (groupBy_stable [steve; jack; carol] (PValue (PStr "team"))
           [("blue", Some [steve; carol]); ("red", Some [jack])]).
  - vm_compute. reflexivity.
  - vm_compute. left.
Defined.

(** ** Result keys are string forms of the computed keys *)













(** ** Keys whose string forms collide *)

(** C1 on the input [[{n: 1}, {n: "1"}]], grouped by ["n"]: the keys [1] and
    ["1"] are different keys of the Map and one property of the result, so
    the record of the key [1] is dropped and the group sizes add up to 1,
    not to the length 2 of the input. *)
Theorem groupBy_collision_drops_record :
  groupBy [num_rec 1; str_rec "1"] (PValue (PStr "n"))
  = Ok [("1", Some [str_rec "1"])]
  ∧ group_sizes [("1", Some [str_rec "1"])] = 1
  ∧ length [num_rec 1; str_rec "1"] = 2.
Proof. by vm_compute. Qed.

(** A key whose string form is [__proto__] leaves no property at all. *)
Example groupBy_proto_key_dropped :
  groupBy [str_rec "__proto__"; str_rec "a"] (PValue (PStr "n"))
  = Ok [("a", Some [str_rec "a"])].
Proof. by vm_compute. Qed.

(** C2 on the input [[{n: 1}, {n: "1"}]], grouped by ["n"]: the record
    [{n: 1}] stands in the input and in no group of the result; the property
    named by its key holds another group. *)
Theorem groupBy_collision_record_in_no_group :
  ∃ result,
    groupBy [num_rec 1; str_rec "1"] (PValue (PStr "n")) = Ok result
    ∧ num_rec 1 ∈ [num_rec 1; str_rec "1"]
    ∧ key_selector (PValue (PStr "n")) (num_rec 1) = Ok (PNum 1)
    ∧ obj_get result (to_property_key (PNum 1)) = Some (Some [str_rec "1"])
    ∧ ∀ s g, (s, Some g) ∈ obj_entries result → num_rec 1 ∉ g.
Proof.
  exists [("1", Some [str_rec "1"])].
  split_and!; [by vm_compute|left|by vm_compute|by vm_compute|].
  intros s g Hin.
  assert (obj_entries [("1", Some [str_rec "1"])] = [("1", Some [str_rec "1"])])
    as Heq by by vm_compute.
  rewrite Heq in Hin. apply list_elem_of_singleton in Hin as [= -> ->].
  intros Hin%list_elem_of_singleton. by vm_compute in Hin.
Qed.

(** ** The order of the groups *)

(** C3 as the specification states it fails on the number keys [-2] and
    [-1]: the group of [-1] is emitted first and enumerated first, though
    [-2] is the smaller number. *)
Lemma groupBy_number_keys_not_numeric :
  groupBy [num_rec (-2); num_rec (-1)] (PValue (PStr "n"))
  = Ok [("-1", Some [num_rec (-1)]); ("-2", Some [num_rec (-2)])]
  ∧ emitted (key_selector (PValue (PStr "n"))) [num_rec (-2); num_rec (-1)]
    = [PNum (-1); PNum (-2)]
  ∧ own_keys [("-1", Some [num_rec (-1)]); ("-2", Some [num_rec (-2)])]
    = [to_string (PNum (-1)); to_string (PNum (-2))]
  ∧ ¬ (-1 < -2)%Z.
Proof. split_and!; [by vm_compute..|lia]. Qed.

(** The same default comparator puts [10] before [2]. *)
Example emitted_ten_before_two :
  emitted (key_selector (PValue (PStr "n"))) [num_rec 2; num_rec 10]
  = [PNum 10; PNum 2].
Proof. by vm_compute. Qed.

(** Array-index names are enumerated first whatever the emission order. *)
Example own_keys_index_names_first :
  groupBy [str_rec "b"; str_rec "10"; str_rec "9"; str_rec "-1"]
    (PValue (PStr "n"))
  = Ok [("-1", Some [str_rec "-1"]); ("10", Some [str_rec "10"]);
        ("9", Some [str_rec "9"]); ("b", Some [str_rec "b"])]
  ∧ own_keys [("-1", Some [str_rec "-1"]); ("10", Some [str_rec "10"]);
              ("9", Some [str_rec "9"]); ("b", Some [str_rec "b"])]
    = ["9"; "10"; "-1"; "b"].
Proof. by vm_compute. Qed.

Lemma elem_of_index_keys {A} (o : jsobject A) n :
  n ∈ index_keys o ↔ ∃ s, s ∈ dict_keys o ∧ array_index s = Some n.
Proof. unfold index_keys. apply list_elem_of_omap. Qed.

(** The enumeration of the result's names: array indices in ascending
    numeric order, then the other names in the order of assignment. *)
Lemma result_own_keys {A} (sel : A → res prim) objects :
  ∃ idx,
    StronglySorted N.lt idx
    ∧ (∀ n, n ∈ idx ↔
            ∃ k, k ∈ emitted sel objects
                 ∧ array_index (to_string k) = Some n)
    ∧ own_keys (foldl (emit (grouped sel objects)) [] (emitted sel objects))
      = (index_to_string <$> idx)
        ++ filter (λ s, array_index s = None)
             (first_seen
                (to_string <$> filter own_key (emitted sel objects))).
Proof.
  exists (sort_by N.compare (index_keys (foldl
    (emit (grouped sel objects)) [] (emitted sel objects)))).
  split_and!.
  - apply index_keys_sorted, result_keys_NoDup.
  - intros n. rewrite sort_by_Permutation, elem_of_index_keys. split.
    + intros (s & Hs & Hn). rewrite result_keys, elem_of_first_seen in Hs.
      apply list_elem_of_fmap in Hs as (k & -> & [_ Hk]%list_elem_of_filter).
      eauto.
    + intros (k & Hk & Hn). exists (to_string k). split; [|done].
      rewrite result_keys, elem_of_first_seen. apply list_elem_of_fmap_2.
      apply list_elem_of_filter. split; [|done].
      unfold own_key. intros Hproto. by rewrite Hproto in Hn.
  - unfold own_keys, name_keys. fold (dict_keys (foldl
      (emit (grouped sel objects)) [] (emitted sel objects))).
    by rewrite result_keys.
Qed.

(** C3, amended.  The groups are assigned to the result in the order of the
    sorted keys: ascending by string form, compared code unit by code unit,
    an [undefined] key last, each key once.  The names of the result are
    enumerated with the array indices first, in ascending numeric order,
    then the other names in the order of assignment ([__proto__], which a
    plain object does not keep as a property, is not among them).  Number
    keys are integers of magnitude below 2^53, where the string form is the
    exact numeral, and a field name names nothing inherited. *)
Theorem groupBy_emission_order objects property result :
  groupBy objects property = Ok result →
  reads_own_fields property objects →
  safe_keys (key_selector property) objects →
  result = foldl (emit (grouped (key_selector property) objects)) []
             (emitted (key_selector property) objects)
  ∧ StronglySorted sort_le (emitted (key_selector property) objects)
  ∧ NoDup (emitted (key_selector property) objects)
  ∧ (∀ k, k ∈ emitted (key_selector property) objects ↔
          ∃ x, x ∈ objects ∧ key_selector property x = Ok k)
  ∧ ∃ idx,
      StronglySorted N.lt idx
      ∧ (∀ n, n ∈ idx ↔
              ∃ k, k ∈ emitted (key_selector property) objects
                   ∧ array_index (to_string k) = Some n)
      ∧ own_keys result
        = (index_to_string <$> idx)
          ++ filter (λ s, array_index s = None)
               (first_seen
                  (to_string
                   <$> filter own_key
                         (emitted (key_selector property) objects))).
Proof.
  intros [Hret ->]%groupBy_Ok _ _. split_and!.
  - done.
  - apply emitted_StronglySorted.
  - apply emitted_NoDup.
  - intros k. by apply elem_of_emitted_returns.
  - apply result_own_keys.
Qed.

Lemma groupBy_emission_order_witness :
  [("-1", Some [num_rec (-1)]); ("-2", Some [num_rec (-2)])]
  = foldl (emit (grouped (key_selector (PValue (PStr "n")))
                   [num_rec (-2); num_rec (-1)])) []
      (emitted (key_selector (PValue (PStr "n")))
         [num_rec (-2); num_rec (-1)])
  ∧ StronglySorted sort_le
      (emitted (key_selector (PValue (PStr "n")))
         [num_rec (-2); num_rec (-1)]).
Proof.
  destruct (groupBy_emission_order [num_rec (-2); num_rec (-1)]
              (PValue (PStr "n"))
              [("-1", Some [num_rec (-1)]); ("-2", Some [num_rec (-2)])])
    as (Hresult & Hsorted & _).
  - vm_compute. reflexivity.
  - split_and!; [done|by apply (bool_decide_unpack _)|by repeat constructor].
  - by repeat constructor.
  - split; [exact Hresult|exact Hsorted].
Defined.

(** Keys that are array indices, as syllable counts are: the names of the
    result are enumerated in ascending numeric order. *)
Lemma number_to_string_index (n : N) :
  number_to_string (Z.of_N n) = index_to_string n.
Proof. by destruct n. Qed.

Lemma groupBy_index_keys_ascending objects property result :
  groupBy objects property = Ok result →
  (∀ x k, x ∈ objects → key_selector property x = Ok k →
          ∃ n, k = PNum (Z.of_N n) ∧ (n < 4294967295)%N) →
  ∃ idx,
    own_keys result = index_to_string <$> idx
    ∧ StronglySorted N.lt idx
    ∧ ∀ n, n ∈ idx ↔
           ∃ x, x ∈ objects ∧ key_selector property x = Ok (PNum (Z.of_N n)).
Proof.
  intros [Hret ->]%groupBy_Ok Hindex.
  pose proof (λ k, elem_of_emitted_returns (key_selector property) objects k
                     Hret) as Hkeys.
  destruct (result_own_keys (key_selector property) objects)
    as (idx & Hsorted & Hidx & Hown).
  assert (∀ k, k ∈ emitted (key_selector property) objects →
               ∃ n, k = PNum (Z.of_N n)
                    ∧ array_index (to_string k) = Some n) as Hall.
  { intros k (x & Hx & Hk)%Hkeys.
    destruct (Hindex x k Hx Hk) as (n & -> & Hn). exists n. split; [done|].
    simpl. rewrite number_to_string_index. by apply array_index_to_string. }
  exists idx. split_and!; [|done|].
  - rewrite Hown, filter_none; [by rewrite app_nil_r|].
    apply Forall_forall. intros s Hs. rewrite elem_of_first_seen in Hs.
    apply list_elem_of_fmap in Hs as (k & -> & [_ Hk]%list_elem_of_filter).
    destruct (Hall k Hk) as (n & _ & Hn). by rewrite Hn.
  - intros n. rewrite Hidx. split.
    + intros (k & Hk & Hn). destruct (Hall k Hk) as (n' & -> & Hn').
      rewrite Hn in Hn'. injection Hn' as <-. by apply Hkeys.
    + intros (x & Hx & Hk). exists (PNum (Z.of_N n)). split.
      * apply Hkeys. eauto.
      * destruct (Hindex x _ Hx Hk) as (n' & [= Heq%N2Z.inj] & Hn').
        subst n'. simpl. rewrite number_to_string_index.
        by apply array_index_to_string.
Qed.

(** ** Failure *)

Lemma group_step_Throw_inv {A} (sel : A → res prim) m x e :
  group_step sel m x = Throw e → sel x = Throw e.
Proof.
  destruct (sel x) as [k|e'] eqn:Hsel; intros Hstep.
  - rewrite (group_step_Ok _ _ _ k Hsel) in Hstep. discriminate.
  - rewrite (group_step_Throw _ _ _ e' Hsel) in Hstep. by injection Hstep as ->.
Qed.

Lemma group_loop_Throw_inv {A} (sel : A → res prim) m objects e :
  group_loop sel m objects = Throw e → ∃ x, x ∈ objects ∧ sel x = Throw e.
Proof.
  revert m. induction objects as [|x objects IH]; intros m; simpl; [done|].
  destruct (group_step sel m x) as [m'|e'] eqn:Hstep; simpl.
  - intros (y & Hy & Hsel)%IH. exists y. split; [by right|done].
  - intros [= ->]. exists x. split; [left|by eapply group_step_Throw_inv].
Qed.

(** [groupBy] throws exactly what its key selector throws. *)
Lemma groupBy_Throw_inv objects property e :
  groupBy objects property = Throw e →
  ∃ x, x ∈ objects ∧ key_selector property x = Throw e.
Proof.
  unfold groupBy.
  destruct (group_loop (key_selector property) [] objects) as [m|e'] eqn:Hloop;
    simpl; [done|].
  intros [= ->]. by eapply group_loop_Throw_inv.
Qed.

Lemma get_Ok obj key : ¬ nullish obj → ∃ k, get obj key = Ok k.
Proof.
  unfold nullish. destruct obj as [[| | | |]|]; simpl; eauto; naive_solver.
Qed.

Lemma get_Throw obj key e : get obj key = Throw e → e = TypeError ∧ nullish obj.
Proof.
  unfold nullish. destruct obj as [[| | | |]|]; simpl; naive_solver.
Qed.







(** ** Records without the requested field *)



(** ** When no two keys share a string form and none is [__proto__] *)

Lemma dict_set_new {K V} `{!EqDecision K} (m : dict K V) k v :
  k ∉ dict_keys m → dict_set m k v = m ++ [(k, v)].
Proof.
  unfold dict_keys. induction m as [|[k0 v0] m IH]; simpl; [done|].
  intros [Hne Hin]%not_elem_of_cons.
  rewrite decide_False by done. f_equal. by apply IH.
Qed.

Lemma emit_loop_fresh {A} (m : jsmap (list A)) (o : jsobject A) ks :
  Forall own_key ks →
  NoDup (dict_keys o ++ (to_string <$> ks)) →
  foldl (emit m) o ks = o ++ ((λ k, (to_string k, map_get m k)) <$> ks).
Proof.
  intros Hown. revert o.
  induction Hown as [|k ks Hown Hks IH]; intros o; simpl.
  { intros _. by rewrite app_nil_r. }
  intros Hnd. pose proof Hnd as (_ & Hfresh & _)%NoDup_app.
  assert (to_string k ∉ dict_keys o) as Hk.
  { intros Hin. apply (Hfresh _ Hin). left. }
  rewrite emit_own, dict_set_new by done.
  rewrite IH.
  - by rewrite <-app_assoc.
  - unfold dict_keys. rewrite fmap_app. simpl. by rewrite <-app_assoc.
Qed.

Section distinct.
Context {A : Type} (sel : A → res prim) (objects : list A).
Hypothesis Hdistinct : distinct_key_strings sel objects.

Lemma to_string_emitted_inj k1 k2 :
  k1 ∈ emitted sel objects → k2 ∈ emitted sel objects →
  to_string k1 = to_string k2 → k1 = k2.
Proof.
  intros (x & Hx & <-)%elem_of_emitted (y & Hy & <-)%elem_of_emitted.
  by apply Hdistinct.
Qed.

Lemma emitted_own : Forall own_key (emitted sel objects).
Proof.
  apply Forall_forall. intros k (x & Hx & <-)%elem_of_emitted.
  by apply Hdistinct.
Qed.

Lemma to_string_emitted_NoDup : NoDup (to_string <$> emitted sel objects).
Proof.
  pose proof (emitted_NoDup sel objects) as Hnd.
  pose proof to_string_emitted_inj as Hinj.
  induction Hnd as [|k ks Hk Hnd IH]; csimpl; constructor.
  - intros (k' & Heq & Hk')%list_elem_of_fmap.
    rewrite (Hinj k k') in Hk; [done|left|by right|done].
  - apply IH. intros k1 k2 H1 H2. apply Hinj; by right.
Qed.

(** The result in closed form: one property per key, in emission order. *)
Lemma result_distinct :
  foldl (emit (grouped sel objects)) [] (emitted sel objects)
  = (λ k, (to_string k, Some (members sel objects k))) <$> emitted sel objects.
Proof.
  rewrite emit_loop_fresh
    by (apply emitted_own || apply to_string_emitted_NoDup).
  simpl.
  apply list_fmap_ext. intros i k Hk. f_equal. apply grouped_get.
  apply list_elem_of_lookup_2, elem_of_emitted in Hk as (x & Hx & <-).
  by apply list_elem_of_fmap_2.
Qed.
End distinct.

(** The groups of all keys together are the input, rearranged. *)
Lemma members_members {A} (sel : A → res prim) objects k k' :
  filter (λ x, key_of sel x = k) (members sel objects k')
  = if decide (k' = k) then members sel objects k else [].
Proof.
  unfold members. rewrite list_filter_filter. case_decide as Hk.
  - subst. apply list_filter_iff. naive_solver.
  - apply filter_none, Forall_forall. intros x _ [? ?]. congruence.
Qed.

Lemma members_join {A} (sel : A → res prim) objects ks k :
  NoDup ks →
  filter (λ x, key_of sel x = k) (mjoin (members sel objects <$> ks))
  = if decide (k ∈ ks) then members sel objects k else [].
Proof.
  induction 1 as [|k' ks Hk' Hnd IH]; csimpl; [done|].
  rewrite filter_app, IH, members_members.
  destruct (decide (k' = k)) as [->|Hne].
  - rewrite decide_False by done. rewrite decide_True by left.
    by rewrite app_nil_r.
  - simpl. destruct (decide (k ∈ ks)) as [Hin|Hin].
    + by rewrite decide_True by by right.
    + rewrite decide_False; [done|]. rewrite not_elem_of_cons. naive_solver.
Qed.

Lemma join_members_Permutation {A} (sel : A → res prim) objects ks :
  NoDup ks → (∀ x, x ∈ objects → key_of sel x ∈ ks) →
  mjoin (members sel objects <$> ks) ≡ₚ objects.
Proof.
  intros Hnd. revert objects.
  induction Hnd as [|k ks Hk Hnd IH]; intros objects Hcover; csimpl.
  { destruct objects as [|x objects]; [done|].
    specialize (Hcover x (list_elem_of_here _ _)). by apply elem_of_nil in Hcover. }
  rewrite <-(filter_app_complement (λ x, key_of sel x = k) objects) at 3.
  f_equiv; [done|].
  rewrite <-(IH (filter (λ x, ¬ key_of sel x = k) objects)).
  - assert (members sel (filter (λ x, ¬ key_of sel x = k) objects) <$> ks
            = members sel objects <$> ks) as ->; [|done].
    apply list_fmap_ext. intros i k' Hk'. unfold members.
    rewrite list_filter_filter.
    apply list_filter_iff. intros x. split; [naive_solver|].
    intros Hx. split; [done|]. intros Hxk. apply Hk.
    rewrite <-Hxk, Hx. by eapply list_elem_of_lookup_2.
  - intros x [Hne Hx]%list_elem_of_filter.
    specialize (Hcover x Hx). apply elem_of_cons in Hcover. naive_solver.
Qed.

Lemma obj_values_Permutation {A} (o : jsobject A) :
  NoDup (dict_keys o) → obj_values o ≡ₚ o.*2.
Proof. intros Hnd. unfold obj_values. by rewrite obj_entries_Permutation. Qed.

Lemma flatten_distinct {A} (sel : A → res prim) objects :
  returns_on sel objects → distinct_key_strings sel objects →
  ∃ ks, ks ≡ₚ emitted sel objects
        ∧ flatten (foldl (emit (grouped sel objects)) [] (emitted sel objects))
          = mjoin (members sel objects <$> ks).
Proof.
  intros Hret Hdistinct. rewrite result_distinct by done.
  set (F := λ k, (to_string k, Some (members sel objects k))).
  assert (NoDup (dict_keys (F <$> emitted sel objects))) as Hnd.
  { unfold dict_keys. rewrite <-list_fmap_compose.
    by apply to_string_emitted_NoDup. }
  pose proof (obj_entries_Permutation _ Hnd) as Hperm.
  apply Permutation_map_inv in Hperm as (ks & Hks & Hperm).
  exists ks. split; [done|]. unfold flatten, obj_values.
  change (map F ks) with (F <$> ks) in Hks. rewrite Hks.
  by rewrite <-!list_fmap_compose.
Qed.

(** Totality when no two keys share a string form and none is
    [__proto__]: the group sizes add up to the length of the input. *)
Lemma groupBy_total_distinct objects property result :
  groupBy objects property = Ok result →
  distinct_key_strings (key_selector property) objects →
  group_sizes result = length objects.
Proof.
  intros [Hret ->]%groupBy_Ok Hdistinct.
  unfold group_sizes. rewrite obj_values_Permutation by apply result_keys_NoDup.
  rewrite result_distinct by done. rewrite <-!list_fmap_compose.
  rewrite <-(Permutation_length
    (join_members_Permutation (key_selector property) objects
       (emitted (key_selector property) objects)
       (emitted_NoDup _ _)
       (λ x Hx, proj2 (elem_of_emitted _ _ _) (ex_intro _ x (conj Hx eq_refl))))).
  rewrite length_join, <-list_fmap_compose. done.
Qed.

(** X19.  Partition when no two keys share a string form and none is
    [__proto__]: every record stands in the group kept under its key, and
    in no other.  Number keys are integers of magnitude below 2^53, and a
    field name names nothing inherited. *)
Lemma groupBy_partition_distinct objects property result x :
  groupBy objects property = Ok result →
  reads_own_fields property objects →
  safe_keys (key_selector property) objects →
  distinct_key_strings (key_selector property) objects →
  x ∈ objects →
  ∃ k g, key_selector property x = Ok k
         ∧ obj_get result (to_property_key k) = Some (Some g)
         ∧ x ∈ g
         ∧ ∀ s g', (s, Some g') ∈ obj_entries result → x ∈ g' →
                   s = to_property_key k.
Proof.
  intros [Hret ->]%groupBy_Ok _ _ Hdistinct Hx.
  destruct (proj1 (Forall_forall _ _) Hret x Hx) as [k Hk].
  pose proof (returns_on_key_of _ _ _ Hk) as Hkey.
  exists k, (members (key_selector property) objects k). split_and!.
  - done.
  - rewrite result_distinct by done. apply dict_elem_of_get.
    + unfold dict_keys. rewrite <-list_fmap_compose.
      by apply to_string_emitted_NoDup.
    + apply list_elem_of_fmap. exists k. split; [done|].
      apply elem_of_emitted. eauto.
  - by apply elem_of_members.
  - intros s g' Hentry%elem_of_obj_entries Hin.
    apply result_get_Some in Hentry as (k' & _ & <- & [= ->]).
    apply elem_of_members in Hin as [_ Hk']. unfold to_property_key.
    congruence.
Qed.

(** ** The sorted order of keys with distinct sort keys is unique *)

Lemma array_sort_sort_keys ks :
  StronglySorted key_le (sort_key <$> array_sort ks).
Proof.
  apply (StronglySorted_fmap sort_key sort_le key_le).
  - intros x y. unfold sort_le, key_le. by rewrite sort_compare_key.
  - apply sort_by_StronglySorted;
      [apply sort_compare_antisym|apply sort_le_trans].
Qed.

Lemma fmap_inj_on {A B} (f : A → B) (l1 l2 : list A) :
  (∀ x y, x ∈ l1 → y ∈ l2 → f x = f y → x = y) →
  f <$> l1 = f <$> l2 → l1 = l2.
Proof.
  revert l2. induction l1 as [|x l1 IH]; intros [|y l2] Hinj; csimpl; try done.
  intros [= Hxy Heq]. f_equal.
  - apply Hinj; [left|left|done].
  - apply IH; [|done]. intros x' y' Hx' Hy'. apply Hinj; by right.
Qed.

(** Sorting two arrangements of the same keys gives the same sequence of
    sort keys, hence of string forms. *)
Lemma array_sort_sort_keys_Permutation ks1 ks2 :
  ks1 ≡ₚ ks2 → sort_key <$> array_sort ks1 = sort_key <$> array_sort ks2.
Proof.
  intros Hperm. apply (StronglySorted_unique key_le).
  - apply array_sort_sort_keys.
  - apply array_sort_sort_keys.
  - unfold array_sort. by rewrite !sort_by_Permutation, Hperm.
Qed.

Lemma array_sort_unique ks1 ks2 :
  ks1 ≡ₚ ks2 →
  (∀ x y, x ∈ ks1 → y ∈ ks1 → sort_key x = sort_key y → x = y) →
  array_sort ks1 = array_sort ks2.
Proof.
  intros Hperm Hinj. apply (fmap_inj_on sort_key).
  - unfold array_sort. intros x y. rewrite !sort_by_Permutation, <-Hperm.
    apply Hinj.
  - by apply array_sort_sort_keys_Permutation.
Qed.

Lemma sort_key_to_string k1 k2 :
  sort_key k1 = sort_key k2 → to_string k1 = to_string k2.
Proof. rewrite !to_string_sort_key. by intros ->. Qed.

Lemma sort_compare_refl k : sort_compare k k = Eq.
Proof. rewrite sort_compare_key. by apply key_compare_Eq. Qed.

(** [array_sort] is the one stable sorted permutation of the keys. *)
Lemma array_sort_stable_unique ks ks' :
  StronglySorted sort_le ks' → ks' ≡ₚ ks →
  (∀ x, filter (λ y, sort_compare x y = Eq) ks'
        = filter (λ y, sort_compare x y = Eq) ks) →
  ks' = array_sort ks.
Proof.
  apply sort_by_unique.
  - apply sort_compare_antisym.
  - apply sort_le_trans.
  - apply sort_compare_refl.
Qed.

(** Keys with distinct string forms are emitted in strictly ascending
    order. *)
Lemma emitted_strict {A} (sel : A → res prim) objects :
  distinct_key_strings sel objects →
  StronglySorted (λ x y, sort_compare x y = Lt) (emitted sel objects).
Proof.
  intros Hdistinct.
  pose proof (emitted_StronglySorted sel objects) as Hsorted.
  pose proof (emitted_NoDup sel objects) as Hnd.
  pose proof (to_string_emitted_inj sel objects Hdistinct) as Hinj.
  induction Hsorted as [|k ks Hsorted IH Hk]; [constructor|].
  apply NoDup_cons in Hnd as [Hnotin Hnd]. constructor.
  - apply IH; [done|]. intros k1 k2 H1 H2. apply Hinj; by right.
  - apply Forall_forall. intros k' Hk'.
    pose proof (proj1 (Forall_forall _ _) Hk k' Hk') as Hle.
    unfold sort_le in Hle. destruct (sort_compare k k') eqn:Hcmp; try done.
    rewrite sort_compare_key in Hcmp.
    apply key_compare_Eq, sort_key_to_string in Hcmp.
    apply Hinj in Hcmp; [|left|by right]. by subst.
Qed.

(** ** Regrouping *)

(** X20.  Idempotence of regrouping when no two keys share a string form
    and none is [__proto__]: grouping the flattened result again gives the very
    same object.  Number keys are integers of magnitude below 2^53, and a
    field name names nothing inherited. *)
Lemma groupBy_regroup_distinct objects property result :
  groupBy objects property = Ok result →
  reads_own_fields property objects →
  safe_keys (key_selector property) objects →
  distinct_key_strings (key_selector property) objects →
  groupBy (flatten result) property = Ok result.
Proof.
  intros [Hret ->]%groupBy_Ok _ _ Hdistinct.
  set (sel := key_selector property) in *.
  destruct (flatten_distinct sel objects Hret Hdistinct) as (ks & Hks & ->).
  set (objects' := mjoin (members sel objects <$> ks)).
  assert (NoDup ks) as Hnd by (rewrite Hks; apply emitted_NoDup).
  assert (objects' ≡ₚ objects) as Hperm.
  { apply join_members_Permutation; [done|]. intros x Hx.
    rewrite Hks. apply elem_of_emitted. eauto. }
  assert (returns_on sel objects') as Hret'.
  { unfold returns_on. by rewrite Hperm. }
  assert (distinct_key_strings sel objects') as Hdistinct'.
  { split.
    - intros x y. rewrite !Hperm. apply Hdistinct.
    - intros x. rewrite Hperm. apply Hdistinct. }
  apply groupBy_Ok. split; [done|]. fold sel.
  rewrite !result_distinct by done.
  assert (emitted sel objects' = emitted sel objects) as ->.
  { apply array_sort_unique.
    - apply NoDup_Permutation; [apply NoDup_first_seen..|].
      intros k. rewrite !elem_of_first_seen. by rewrite Hperm.
    - intros k1 k2.
      rewrite !elem_of_first_seen, !list_elem_of_fmap.
      intros (x & -> & Hx) (y & -> & Hy) Hkey%sort_key_to_string.
      by apply Hdistinct'. }
  apply list_fmap_ext. intros i k Hk. do 2 f_equal. symmetry.
  unfold members at 1. unfold objects'. rewrite members_join by done.
  rewrite decide_True; [done|]. rewrite Hks. by eapply list_elem_of_lookup_2.
Qed.

(** The entries of a result are the groups of the keys that keep their
    property, one key per property. *)
Lemma result_entries {A} (sel : A → res prim) objects :
  ∃ ks,
    obj_entries (foldl (emit (grouped sel objects)) [] (emitted sel objects))
    = (λ k, (to_string k, Some (members sel objects k))) <$> ks
    ∧ NoDup (to_string <$> ks)
    ∧ ∀ k, k ∈ ks → k ∈ emitted sel objects ∧ own_key k.
Proof.
  set (h := λ s, last (filter (λ k, to_string k = s)
                         (filter own_key (emitted sel objects)))).
  assert (∀ s k, h s = Some k →
            to_string k = s ∧ k ∈ emitted sel objects ∧ own_key k) as Hh.
  { intros s k Hk.
    apply last_Some_elem_of, list_elem_of_filter in Hk as [? Hk].
    by apply list_elem_of_filter in Hk as [? ?]. }
  pose proof (own_keys_NoDup _ (result_keys_NoDup sel objects)) as Hnd.
  unfold obj_entries.
  revert Hnd. generalize (own_keys
    (foldl (emit (grouped sel objects)) [] (emitted sel objects))).
  intros l Hnd. exists (omap h l). split_and!.
  - clear Hnd. induction l as [|s l IH]; [done|]. simpl.
    rewrite (result_get sel objects s). fold (h s).
    destruct (h s) as [k|] eqn:Hk; simpl; [|done].
    apply Hh in Hk as (<- & _). f_equal. exact IH.
  - apply (sublist_NoDup _ l); [done|]. clear Hnd.
    induction l as [|s l IH]; simpl; [done|].
    destruct (h s) as [k|] eqn:Hk; simpl.
    + apply Hh in Hk as (<- & _). by apply sublist_skip.
    + by apply sublist_cons.
  - intros k (s & _ & Hk)%list_elem_of_omap. apply Hh in Hk. naive_solver.
Qed.

Lemma NoDup_fmap_eq {A B} (f : A → B) (l : list A) x y :
  NoDup (f <$> l) → x ∈ l → y ∈ l → f x = f y → x = y.
Proof.
  intros Hnd [i Hi]%list_elem_of_lookup_1 [j Hj]%list_elem_of_lookup_1 Heq.
  assert (i = j) as ->.
  { apply (NoDup_lookup (f <$> l) i j (f x) Hnd).
    - by rewrite list_lookup_fmap, Hi.
    - by rewrite list_lookup_fmap, Hj, Heq. }
  congruence.
Qed.

(** X21.  Regrouping in general: grouping the flattened result again
    succeeds and gives the same group under every property name; only the
    order of the properties may differ. *)
Lemma groupBy_regroup_same_groups objects property result :
  groupBy objects property = Ok result →
  ∃ result', groupBy (flatten result) property = Ok result'
             ∧ ∀ s, obj_get result' s = obj_get result s.
Proof.
  intros [Hret ->]%groupBy_Ok.
  set (sel := key_selector property) in *.
  destruct (result_entries sel objects) as (ks & Hentries & Hnd & Hks).
  set (result := foldl (emit (grouped sel objects)) [] (emitted sel objects))
    in *.
  assert (flatten result = mjoin (members sel objects <$> ks)) as Hflat.
  { unfold flatten, obj_values. rewrite Hentries.
    by rewrite <-!list_fmap_compose. }
  assert (NoDup ks) as Hnd' by by apply NoDup_fmap_1 in Hnd.
  assert (∀ x, x ∈ flatten result ↔ x ∈ objects ∧ key_of sel x ∈ ks) as Hin.
  { intros x. rewrite Hflat, list_elem_of_join. split.
    - intros (g & Hx & (k & -> & Hk)%list_elem_of_fmap).
      by apply elem_of_members in Hx as [? ->].
    - intros [Hx Hk]. exists (members sel objects (key_of sel x)).
      split; [by apply elem_of_members|by apply list_elem_of_fmap_2]. }
  assert (returns_on sel (flatten result)) as Hret'.
  { apply Forall_forall. intros x [Hx _]%Hin.
    by apply (proj1 (Forall_forall _ _) Hret). }
  assert (∀ k, k ∈ emitted sel (flatten result) ↔ k ∈ ks) as Hem.
  { intros k. rewrite elem_of_emitted. split.
    - by intros (x & [_ Hx]%Hin & <-).
    - intros Hk.
      destruct (Hks k Hk) as [(x & Hx & <-)%elem_of_emitted _].
      exists x. split; [|done]. by apply Hin. }
  assert (distinct_key_strings sel (flatten result)) as Hdistinct.
  { split.
    - intros x y [_ Hx]%Hin [_ Hy]%Hin. by apply (NoDup_fmap_eq to_string ks).
    - intros x [_ Hx]%Hin. by apply Hks. }
  assert (∀ k, k ∈ ks →
            members sel (flatten result) k = members sel objects k) as Hmem.
  { intros k Hk. unfold members at 1. rewrite Hflat, members_join by done.
    by rewrite decide_True. }
  exists (foldl (emit (grouped sel (flatten result))) []
            (emitted sel (flatten result))).
  split; [by apply groupBy_Ok|].
  intros s. apply option_eq. intros v.
  rewrite <-(elem_of_obj_entries result), Hentries.
  rewrite result_distinct by done. split.
  - intros Hget%dict_get_elem_of.
    apply list_elem_of_fmap in Hget as (k & [= -> ->] & Hk%Hem).
    apply list_elem_of_fmap. exists k. split; [|done].
    by rewrite Hmem.
  - intros (k & [= -> ->] & Hk)%list_elem_of_fmap. apply dict_elem_of_get.
    + unfold dict_keys. rewrite <-list_fmap_compose.
      by apply to_string_emitted_NoDup.
    + apply list_elem_of_fmap. exists k. split; [|by apply Hem].
      by rewrite Hmem.
Qed.

(** C7 on the input [[{n: "undefined"}, {n: "z"}, {}]], grouped by ["n"]:
    the keys ["undefined"] and [undefined] meet in one property, created
    where the string sorts and holding the group of [undefined].  Grouping
    the flattened result again creates that property last, so the two
    results list their groups in different orders. *)
Theorem groupBy_regroup_changes_order :
  groupBy [str_rec "undefined"; str_rec "z"; rec []] (PValue (PStr "n"))
  = Ok [("undefined", Some [rec []]); ("z", Some [str_rec "z"])]
  ∧ flatten [("undefined", Some [rec []]); ("z", Some [str_rec "z"])]
    = [rec []; str_rec "z"]
  ∧ groupBy [rec []; str_rec "z"] (PValue (PStr "n"))
    = Ok [("z", Some [str_rec "z"]); ("undefined", Some [rec []])]
  ∧ obj_entries [("undefined", Some [rec []]); ("z", Some [str_rec "z"])]
    ≠ obj_entries [("z", Some [str_rec "z"]); ("undefined", Some [rec []])].
Proof. split_and!; by vm_compute. Qed.

(** * groupBy over a store: what it writes and what it returns *)

(** ** Running the operations *)

Lemma bind_run {A B} (m : Store.M A) (f : A → Store.M B) (σ : Store.store) :
  (m ≫= f) σ
  = match m σ with
    | (Ok a, σ') => f a σ'
    | (Throw e, σ') => (Throw e, σ')
    end.
Proof. reflexivity. Qed.

Lemma fmap_run {A B} (f : A → B) (m : Store.M A) (σ : Store.store) :
  (f <$> m) σ
  = match m σ with
    | (Ok a, σ') => (Ok (f a), σ')
    | (Throw e, σ') => (Throw e, σ')
    end.
Proof. reflexivity. Qed.

Lemma alloc_fresh (σ : Store.store) : σ !! fresh (dom σ) = None.
Proof. apply not_elem_of_dom, is_fresh. Qed.

Lemma load_run (σ : Store.store) l c :
  σ !! l = Some c → Store.load (Store.SRef l) σ = (Ok (l, c), σ).
Proof. intros Hl. unfold Store.load. by rewrite Hl. Qed.

Lemma map_entries_run (σ : Store.store) lm entries :
  σ !! lm = Some (Store.CMap entries) →
  Store.map_entries (Store.SRef lm) σ = (Ok (lm, entries), σ).
Proof.
  intros Hl. unfold Store.map_entries. by rewrite bind_run, (load_run _ _ _ Hl).
Qed.

Lemma map_has_run (σ : Store.store) lm entries k :
  σ !! lm = Some (Store.CMap entries) →
  Store.map_has (Store.SRef lm) k σ = (Ok (dict_has entries k), σ).
Proof.
  intros Hl. unfold Store.map_has.
  by rewrite bind_run, (map_entries_run _ _ _ Hl).
Qed.

Lemma map_get_run (σ : Store.store) lm entries k :
  σ !! lm = Some (Store.CMap entries) →
  Store.map_get (Store.SRef lm) k σ
  = (Ok (default (Store.SPrim PUndefined) (dict_get entries k)), σ).
Proof.
  intros Hl. unfold Store.map_get.
  by rewrite bind_run, (map_entries_run _ _ _ Hl).
Qed.

Lemma map_set_run (σ : Store.store) lm entries k v :
  σ !! lm = Some (Store.CMap entries) →
  Store.map_set (Store.SRef lm) k v σ
  = (Ok (), <[lm:=Store.CMap (dict_set entries k v)]> σ).
Proof.
  intros Hl. unfold Store.map_set.
  by rewrite bind_run, (map_entries_run _ _ _ Hl).
Qed.

Lemma map_keys_run (σ : Store.store) lm entries :
  σ !! lm = Some (Store.CMap entries) →
  Store.map_keys (Store.SRef lm) σ = (Ok (dict_keys entries), σ).
Proof.
  intros Hl. unfold Store.map_keys.
  by rewrite bind_run, (map_entries_run _ _ _ Hl).
Qed.

Lemma array_push_run (σ : Store.store) l elems x :
  σ !! l = Some (Store.CArray elems) →
  Store.array_push (Store.SRef l) x σ
  = (Ok (), <[l:=Store.CArray (elems ++ [x])]> σ).
Proof.
  intros Hl. unfold Store.array_push. by rewrite bind_run, (load_run _ _ _ Hl).
Qed.

Lemma array_elems_run (σ : Store.store) l elems :
  σ !! l = Some (Store.CArray elems) →
  Store.array_elems (Store.SRef l) σ = (Ok elems, σ).
Proof.
  intros Hl. unfold Store.array_elems. by rewrite bind_run, (load_run _ _ _ Hl).
Qed.

Lemma obj_set_run (σ : Store.store) l props k v :
  σ !! l = Some (Store.CObject props) →
  Store.obj_set (Store.SRef l) k v σ
  = (Ok (),
     if decide (k = "__proto__") then σ
     else <[l:=Store.CObject (dict_set props k v)]> σ).
Proof.
  intros Hl. unfold Store.obj_set. rewrite bind_run, (load_run _ _ _ Hl).
  by destruct (decide (k = "__proto__")).
Qed.

(** ** Records are read, never written *)

Lemma reify_subseteq (σ0 σ : Store.store) v :
  σ0 ⊆ σ → Store.is_record σ0 v → Store.reify σ v = Store.reify σ0 v.
Proof.
  intros Hsub. destruct v as [p|l]; simpl; [done|]. intros [fields Hl].
  by rewrite Hl, (lookup_weaken _ _ _ _ Hl Hsub).
Qed.

Lemma is_record_subseteq (σ0 σ : Store.store) v :
  σ0 ⊆ σ → Store.is_record σ0 v → Store.is_record σ v.
Proof.
  intros Hsub. destruct v as [p|l]; simpl; [done|]. intros [fields Hl].
  exists fields. by eapply lookup_weaken.
Qed.

(** ** The first loop over the store *)

Section store_group_loop.
Context (σ0 : Store.store) (lm : Store.loc) (sel : value → res prim).

Lemma group_step_run σ m entries v k :
  map_rep σ0 σ lm m entries →
  sel (Store.reify σ v) = Ok k →
  ∃ σ' entries',
    Store.group_step sel (Store.SRef lm) v σ = (Ok (), σ')
    ∧ map_rep σ0 σ' lm
        (dict_set (if dict_has m k then m else dict_set m k []) k
           (default [] (dict_get m k) ++ [v])) entries'.
Proof.
  intros [Hframe Hlm Hmap Hkeys Hgroups Hinj] Hsel.
  unfold Store.group_step. rewrite bind_run. unfold Store.call at 1.
  rewrite Hsel, bind_run, (map_has_run _ _ _ _ Hmap).
  assert (dict_has entries k = dict_has m k) as ->.
  { unfold dict_has. apply bool_decide_ext.
    by rewrite !dict_get_is_Some, Hkeys. }
  destruct (dict_has m k) eqn:Hhas.
  - apply dict_has_true in Hhas.
    destruct (Hgroups k Hhas) as (l & g & Hl & Hg & Hne & Hfresh & Hcell).
    rewrite bind_run. simpl. rewrite bind_run, (map_get_run _ _ _ _ Hmap), Hl.
    simpl. rewrite (array_push_run _ _ _ _ Hcell), Hg. simpl.
    eexists _, entries. split; [done|]. split.
    + by apply insert_subseteq_r.
    + done.
    + by rewrite lookup_insert_ne.
    + by rewrite dict_keys_set_old.
    + intros k' Hk'. rewrite dict_keys_set_old in Hk' by done.
      rewrite dict_get_set. destruct (decide (k = k')) as [<-|Hkk'].
      * exists l, (g ++ [v]). by rewrite lookup_insert_eq.
      * destruct (Hgroups k' Hk') as (l' & g' & Hl' & Hg' & ? & ? & ?).
        exists l', g'. split_and!; [done..|].
        rewrite lookup_insert_ne; [done|]. intros <-. by eapply Hkk', Hinj.
    + done.
  - apply dict_has_false in Hhas.
    pose proof (alloc_fresh σ) as Hla. set (la := fresh (dom σ)) in *.
    assert (la ≠ lm) as Hne by (intros Heq; rewrite Heq in Hla; congruence).
    assert (σ0 !! la = None) as Hla0.
    { destruct (σ0 !! la) eqn:E; [|done].
      by rewrite (lookup_weaken _ _ _ _ E Hframe) in Hla. }
    rewrite bind_run, bind_run. unfold Store.alloc at 1. fold la.
    rewrite (map_set_run _ lm entries)
      by (by rewrite lookup_insert_ne).
    rewrite bind_run.
    rewrite (map_get_run _ lm (dict_set entries k (Store.SRef la)))
      by apply lookup_insert_eq.
    rewrite dict_get_set, decide_True by done. simpl.
    rewrite (array_push_run _ la [])
      by (by rewrite lookup_insert_ne, lookup_insert_eq).
    rewrite (proj2 (dict_get_None m k) Hhas). simpl.
    eexists _, (dict_set entries k (Store.SRef la)). split; [done|]. split.
    + repeat (apply insert_subseteq_r; [done|]). done.
    + exact Hlm.
    + by rewrite lookup_insert_ne, lookup_insert_eq.
    + rewrite (dict_keys_set_new entries) by (by rewrite Hkeys).
      rewrite (dict_keys_set_old (dict_set m k []))
        by (rewrite dict_keys_set_new by done; set_solver).
      rewrite (dict_keys_set_new m) by done. by rewrite Hkeys.
    + intros k' Hk'.
      rewrite (dict_keys_set_old (dict_set m k [])) in Hk'
        by (rewrite dict_keys_set_new by done; set_solver).
      rewrite (dict_keys_set_new m) in Hk' by done.
      rewrite !dict_get_set. destruct (decide (k = k')) as [<-|Hkk'].
      * exists la, [v]. by rewrite lookup_insert_eq.
      * apply elem_of_app in Hk' as [Hk'|?%list_elem_of_singleton]; [|done].
        destruct (Hgroups k' Hk') as (l' & g' & Hl' & Hg' & ? & ? & Hcell').
        exists l', g'. split_and!; [done..|].
        rewrite !lookup_insert_ne; [done|congruence..].
    + assert (∀ k', dict_get entries k' ≠ Some (Store.SRef la)) as Hnot.
      { intros k' Hk'. assert (k' ∈ dict_keys m) as Hin.
        { rewrite <-Hkeys. apply dict_get_is_Some. eauto. }
        destruct (Hgroups k' Hin) as (l' & g' & Hl' & _ & _ & _ & Hcell').
        congruence. }
      intros k1 k2 l H1 H2. rewrite dict_get_set in H1, H2.
      destruct (decide (k = k1)) as [<-|?], (decide (k = k2)) as [<-|?].
      * done.
      * injection H1 as <-. by apply Hnot in H2.
      * injection H2 as <-. by apply Hnot in H1.
      * by eapply Hinj.
Qed.

Lemma group_step_run_Throw σ v e :
  sel (Store.reify σ v) = Throw e →
  Store.group_step sel (Store.SRef lm) v σ = (Throw e, σ).
Proof.
  intros Hsel. unfold Store.group_step. rewrite bind_run.
  unfold Store.call at 1. by rewrite Hsel.
Qed.
End store_group_loop.

Lemma for_of_cons {A} (x : A) (l : list A) (body : A → Store.M unit) σ :
  Store.for_of (x :: l) body σ
  = match body x σ with
    | (Ok _, σ') => Store.for_of l body σ'
    | (Throw e, σ') => (Throw e, σ')
    end.
Proof. reflexivity. Qed.

Lemma group_loop_run (σ0 : Store.store) lm sel σ m entries elems :
  map_rep σ0 σ lm m entries →
  Forall (Store.is_record σ0) elems →
  ∃ σ',
    σ0 ⊆ σ'
    ∧ match group_loop (λ v, sel (Store.reify σ0 v)) m elems with
      | Ok m' =>
          Store.for_of elems (Store.group_step sel (Store.SRef lm)) σ
          = (Ok (), σ')
          ∧ ∃ entries', map_rep σ0 σ' lm m' entries'
      | Throw e =>
          Store.for_of elems (Store.group_step sel (Store.SRef lm)) σ
          = (Throw e, σ')
      end.
Proof.
  intros Hrep Hrecords. revert σ m entries Hrep.
  induction Hrecords as [|v elems Hv Hrecords IH]; intros σ m entries Hrep.
  { exists σ. split; [apply Hrep|]. simpl. eauto. }
  pose proof (reify_subseteq σ0 σ v (rep_frame _ _ _ _ _ Hrep) Hv) as Hreify.
  rewrite for_of_cons. simpl.
  destruct (sel (Store.reify σ0 v)) as [k|e] eqn:Hsel.
  - rewrite (group_step_Ok _ _ _ k) by done. simpl.
    destruct (group_step_run σ0 lm sel σ m entries v k Hrep) as
      (σ1 & entries1 & -> & Hrep1); [by rewrite Hreify|].
    apply (IH _ _ _ Hrep1).
  - rewrite (group_step_Throw _ _ _ e) by done. simpl.
    rewrite (group_step_run_Throw lm sel σ v e) by (by rewrite Hreify).
    exists σ. split; [apply Hrep|done].
Qed.

(** ** The second loop over the store *)

Lemma dict_set_fmap {K V W} `{!EqDecision K} (f : V → W) (m : dict K V) k v :
  (λ kv : K * V, (kv.1, f kv.2)) <$> dict_set m k v
  = dict_set ((λ kv : K * V, (kv.1, f kv.2)) <$> m) k (f v).
Proof.
  induction m as [|[k0 v0] m IH]; csimpl; [done|].
  destruct (decide (k0 = k)); csimpl; [done|]. by rewrite IH.
Qed.

Lemma array_of_insert_object (σ : Store.store) lr props props' v :
  σ !! lr = Some (Store.CObject props) →
  Store.array_of (<[lr:=Store.CObject props']> σ) v = Store.array_of σ v.
Proof.
  intros Hlr. destruct v as [p|l]; simpl; [done|].
  destruct (decide (lr = l)) as [<-|Hne].
  - by rewrite lookup_insert_eq, Hlr.
  - by rewrite lookup_insert_ne.
Qed.

Section store_emit_loop.
Context (lm lr : Store.loc) (m : jsmap (list Store.sval))
  (entries : dict prim Store.sval).
Hypothesis Hne : lr ≠ lm.
Hypothesis Hkeys : dict_keys entries = dict_keys m.

Lemma emit_inv_array_of σ props k :
  emit_inv lm lr m entries σ props →
  Store.array_of σ (default (Store.SPrim PUndefined) (dict_get entries k))
  = dict_get m k.
Proof.
  intros (_ & _ & Hgroups).
  destruct (decide (k ∈ dict_keys m)) as [Hk|Hk].
  - destruct (Hgroups k Hk) as (l & g & -> & -> & _ & Hcell). simpl.
    by rewrite Hcell.
  - rewrite (proj2 (dict_get_None m k) Hk).
    rewrite <-Hkeys in Hk. by rewrite (proj2 (dict_get_None entries k) Hk).
Qed.

Lemma emit_loop_run σ props ks :
  emit_inv lm lr m entries σ props →
  ∃ props',
    Store.for_of ks (Store.emit (Store.SRef lm) (Store.SRef lr)) σ
    = (Ok (), <[lr:=Store.CObject props']> σ)
    ∧ (λ kv : string * Store.sval,
         (kv.1, Store.array_of (<[lr:=Store.CObject props']> σ) kv.2))
      <$> props'
      = foldl (emit m)
          ((λ kv : string * Store.sval, (kv.1, Store.array_of σ kv.2))
           <$> props) ks.
Proof.
  revert σ props. induction ks as [|k ks IH]; intros σ props Hinv.
  { exists props. destruct Hinv as (_ & Hlr & _). simpl. split.
    - by rewrite insert_id.
    - by rewrite insert_id. }
  pose proof Hinv as (Hmap & Hlr & Hgroups).
  rewrite for_of_cons. unfold Store.emit at 1.
  rewrite bind_run, (map_get_run _ _ _ _ Hmap), (obj_set_run _ _ _ _ _ Hlr).
  simpl. destruct (decide (own_key k)) as [Hk|Hk].
  2:{ rewrite emit_proto by done. unfold to_property_key.
      rewrite decide_True
        by (unfold own_key in Hk;
            by destruct (decide (to_string k = "__proto__"))).
      by apply IH. }
  unfold to_property_key. rewrite decide_False by done.
  set (v := default (Store.SPrim PUndefined) (dict_get entries k)).
  set (props1 := dict_set props (to_string k) v).
  set (σ1 := <[lr:=Store.CObject props1]> σ).
  assert (emit_inv lm lr m entries σ1 props1) as Hinv1.
  { unfold σ1. split_and!.
    - by rewrite lookup_insert_ne.
    - by rewrite lookup_insert_eq.
    - intros k' Hk'. destruct (Hgroups k' Hk') as (l & g & ? & ? & ? & ?).
      exists l, g. by rewrite lookup_insert_ne. }
  destruct (IH σ1 props1 Hinv1) as (props' & Hrun & Habs).
  exists props'. unfold σ1 in Hrun, Habs. rewrite insert_insert_eq in Hrun, Habs.
  split; [done|]. rewrite Habs. f_equal.
  unfold props1. rewrite dict_set_fmap, emit_own by done. f_equal.
  - apply list_fmap_ext. intros i [s w] _. simpl. f_equal.
    by eapply array_of_insert_object.
  - rewrite (array_of_insert_object _ _ props) by done.
    by eapply emit_inv_array_of.
Qed.
End store_emit_loop.

(** ** The whole call *)

(** The key selector as it acts on the values of a store. *)
Lemma groupBy_run (σ : Store.store) lo elems property :
  σ !! lo = Some (Store.CArray elems) →
  Forall (Store.is_record σ) elems →
  ∃ r σ',
    Store.groupBy (Store.SRef lo) property σ = (r, σ')
    ∧ σ ⊆ σ'
    ∧ match r with
      | Ok v =>
          returns_on (λ x, key_selector property (Store.reify σ x)) elems
          ∧ (∃ lr, v = Store.SRef lr ∧ σ !! lr = None)
          ∧ Store.object_of σ' v
            = Some (foldl
                      (emit (grouped
                               (λ x, key_selector property (Store.reify σ x))
                               elems)) []
                      (emitted
                         (λ x, key_selector property (Store.reify σ x))
                         elems))
      | Throw e =>
          group_loop (λ x, key_selector property (Store.reify σ x)) [] elems
          = Throw e
      end.
Proof.
  intros Hlo Hrecords.
  set (sel0 := λ x, key_selector property (Store.reify σ x)).
  unfold Store.groupBy. cbv zeta.
  rewrite bind_run, fmap_run. unfold Store.alloc at 1.
  pose proof (alloc_fresh σ) as Hlm. set (lm := fresh (dom σ)) in *.
  set (σ1 := <[lm:=Store.CMap []]> σ).
  assert (lm ≠ lo) as Hlmlo by (intros Heq; rewrite Heq in Hlm; congruence).
  rewrite bind_run, (array_elems_run σ1 lo elems)
    by (unfold σ1; by rewrite lookup_insert_ne).
  assert (map_rep σ σ1 lm [] []) as Hrep1.
  { split; try done.
    - by apply insert_subseteq.
    - apply lookup_insert_eq.
    - intros k Hk. by apply elem_of_nil in Hk. }
  destruct (group_loop_run σ lm (key_selector property) σ1 [] [] elems
              Hrep1 Hrecords) as (σ2 & Hframe2 & Hloop).
  fold sel0 in Hloop. rewrite bind_run.
  destruct (group_loop sel0 [] elems) as [m|e] eqn:Hgroup.
  2:{ rewrite Hloop. eauto. }
  destruct Hloop as (-> & entries & Hrep2).
  apply group_loop_Ok in Hgroup as [Hret ->].
  set (m := grouped sel0 elems) in *.
  destruct Hrep2 as [_ _ Hmap2 Hkeys2 Hgroups2 _].
  rewrite bind_run, fmap_run. unfold Store.alloc at 1.
  pose proof (alloc_fresh σ2) as Hlr. set (lr := fresh (dom σ2)) in *.
  set (σ3 := <[lr:=Store.CObject []]> σ2).
  assert (lr ≠ lm) as Hlrlm by (intros Heq; rewrite Heq in Hlr; congruence).
  assert (σ !! lr = None) as Hlr0.
  { destruct (σ !! lr) eqn:E; [|done].
    by rewrite (lookup_weaken _ _ _ _ E Hframe2) in Hlr. }
  rewrite bind_run, (map_keys_run σ3 lm entries)
    by (unfold σ3; by rewrite lookup_insert_ne).
  assert (emit_inv lm lr m entries σ3 []) as Hinv.
  { unfold σ3. split_and!.
    - by rewrite lookup_insert_ne.
    - apply lookup_insert_eq.
    - intros k Hk. destruct (Hgroups2 k Hk) as (l & g & ? & ? & ? & ? & Hcell).
      exists l, g. split_and!; [done..| |].
      + intros ->. congruence.
      + rewrite lookup_insert_ne; [done|]. intros <-. congruence. }
  destruct (emit_loop_run lm lr m entries Hlrlm Hkeys2 σ3 []
              (array_sort (dict_keys entries)) Hinv) as (props & Hrun & Habs).
  rewrite bind_run, Hrun. unfold σ3. rewrite insert_insert_eq.
  eexists _, _. split; [reflexivity|]. split.
  { by apply insert_subseteq_r. }
  split; [done|]. split; [by eauto|].
  simpl. rewrite lookup_insert_eq. f_equal.
  unfold σ3 in Habs. rewrite insert_insert_eq in Habs. rewrite Habs.
  simpl. unfold emitted. rewrite Hkeys2. unfold m. by rewrite grouped_keys.
Qed.

(** ** Grouping commutes with reading the records *)

Section naturality.
Context {A B : Type} (f : A → B) (sel : B → res prim).

Lemma key_of_compose x : key_of (λ x, sel (f x)) x = key_of sel (f x).
Proof. done. Qed.

Lemma keys_fmap (l : list A) :
  key_of sel <$> (f <$> l) = key_of (λ x, sel (f x)) <$> l.
Proof. by rewrite <-list_fmap_compose. Qed.

Lemma members_fmap (l : list A) k :
  members sel (f <$> l) k = f <$> members (λ x, sel (f x)) l k.
Proof. unfold members. by rewrite filter_fmap. Qed.

Lemma emitted_fmap (l : list A) :
  emitted sel (f <$> l) = emitted (λ x, sel (f x)) l.
Proof. unfold emitted. by rewrite keys_fmap. Qed.

Lemma returns_on_fmap (l : list A) :
  returns_on sel (f <$> l) ↔ returns_on (λ x, sel (f x)) l.
Proof. unfold returns_on. by rewrite Forall_fmap. Qed.

Lemma grouped_get_fmap (l : list A) k :
  map_get (grouped sel (f <$> l)) k
  = fmap (M:=list) f <$> map_get (grouped (λ x, sel (f x)) l) k.
Proof.
  destruct (decide (k ∈ key_of sel <$> (f <$> l))) as [Hk|Hk].
  - rewrite grouped_get by done. rewrite keys_fmap in Hk.
    rewrite grouped_get by done. simpl. by rewrite members_fmap.
  - rewrite grouped_get_None by done. rewrite keys_fmap in Hk.
    by rewrite grouped_get_None.
Qed.

Lemma emit_loop_map (mA : jsmap (list A)) (mB : jsmap (list B)) o ks :
  (∀ k, map_get mB k = fmap (M:=list) f <$> map_get mA k) →
  obj_map f (foldl (emit mA) o ks) = foldl (emit mB) (obj_map f o) ks.
Proof.
  intros Hget. revert o. induction ks as [|k ks IH]; intros o; simpl; [done|].
  rewrite IH. f_equal. destruct (decide (own_key k)) as [Hk|Hk].
  - rewrite !emit_own by done. unfold obj_map.
    rewrite (dict_set_fmap (fmap (fmap (M:=list) f))). by rewrite Hget.
  - by rewrite !emit_proto.
Qed.

Lemma group_loop_Throw_fmap (mA : jsmap (list A)) (mB : jsmap (list B))
    (l : list A) e :
  group_loop (λ x, sel (f x)) mA l = Throw e →
  group_loop sel mB (f <$> l) = Throw e.
Proof.
  revert mA mB. induction l as [|x l IH]; intros mA mB; csimpl; [done|].
  destruct (sel (f x)) as [k|e'] eqn:Hsel.
  - rewrite (group_step_Ok (λ x, sel (f x)) _ _ k) by done.
    rewrite (group_step_Ok sel _ _ k) by done. simpl. apply IH.
  - rewrite (group_step_Throw (λ x, sel (f x)) _ _ e') by done.
    rewrite (group_step_Throw sel _ _ e') by done. simpl. by intros [= ->].
Qed.

Lemma result_fmap (l : list A) :
  obj_map f (foldl (emit (grouped (λ x, sel (f x)) l)) []
               (emitted (λ x, sel (f x)) l))
  = foldl (emit (grouped sel (f <$> l))) [] (emitted sel (f <$> l)).
Proof.
  rewrite (emit_loop_map _ (grouped sel (f <$> l))) by apply grouped_get_fmap.
  by rewrite emitted_fmap.
Qed.
End naturality.

(** The call over the store computes what [groupBy] computes on the
    records read from the store, and extends the store. *)
Lemma groupBy_refines (σ : Store.store) lo elems property :
  σ !! lo = Some (Store.CArray elems) →
  Forall (Store.is_record σ) elems →
  ∃ r σ',
    Store.groupBy (Store.SRef lo) property σ = (r, σ')
    ∧ σ ⊆ σ'
    ∧ match r with
      | Ok v =>
          ∃ o, Store.object_of σ' v = Some o
               ∧ groupBy (Store.reify σ <$> elems) property
                 = Ok (obj_map (Store.reify σ) o)
      | Throw e => groupBy (Store.reify σ <$> elems) property = Throw e
      end.
Proof.
  intros Hlo Hrecords.
  destruct (groupBy_run σ lo elems property Hlo Hrecords)
    as (r & σ' & Hrun & Hframe & Hr).
  exists r, σ'. split_and!; [done..|]. destruct r as [v|e].
  - destruct Hr as (Hret & _ & Hobj). eexists. split; [done|].
    apply groupBy_Ok. split; [by apply returns_on_fmap|].
    by rewrite result_fmap.
  - unfold groupBy.
    by rewrite (group_loop_Throw_fmap _ _ [] [] elems e Hr).
Qed.

Lemma obj_map_ext {A B} (f g : A → B) (o : jsobject A) :
  (∀ s xs x, (s, Some xs) ∈ o → x ∈ xs → f x = g x) →
  obj_map f o = obj_map g o.
Proof.
  intros Hfg. unfold obj_map. apply list_fmap_ext. intros i [s [xs|]] Hi; simpl.
  - do 2 f_equal. apply list_fmap_ext. intros j x Hj.
    apply (Hfg s xs); [by eapply list_elem_of_lookup_2|].
    by eapply list_elem_of_lookup_2.
  - done.
Qed.

Lemma result_groups_elements {A} (sel : A → res prim) objects s xs x :
  (s, Some xs) ∈ foldl (emit (grouped sel objects)) [] (emitted sel objects) →
  x ∈ xs → x ∈ objects.
Proof.
  intros Hin Hx. apply dict_elem_of_get in Hin; [|apply result_keys_NoDup].
  apply result_get_Some in Hin as (k & _ & _ & [= ->]).
  by apply elem_of_members in Hx as [? _].
Qed.

(** What the caller observes is [groupBy] of the records read at entry. *)
Lemma outcome_groupBy (σ : Store.store) lo elems property :
  σ !! lo = Some (Store.CArray elems) →
  Forall (Store.is_record σ) elems →
  outcome (Store.groupBy (Store.SRef lo) property σ)
  = match groupBy (Store.reify σ <$> elems) property with
    | Ok o => Ok (Some o)
    | Throw e => Throw e
    end.
Proof.
  intros Hlo Hrecords.
  destruct (groupBy_run σ lo elems property Hlo Hrecords)
    as (r & σ' & Hrun & Hframe & Hr).
  unfold outcome. rewrite Hrun. simpl. destruct r as [v|e].
  - destruct Hr as (Hret & _ & Hobj). rewrite Hobj. simpl.
    rewrite (proj2 (groupBy_Ok (Store.reify σ <$> elems) property _)
               (conj (proj2 (returns_on_fmap _ _ _) Hret) eq_refl)).
    do 2 f_equal. rewrite <-result_fmap. apply obj_map_ext.
    intros s xs x Hin Hx. apply reify_subseteq; [done|].
    eapply (proj1 (Forall_forall _ _) Hrecords).
    by eapply result_groups_elements.
  - unfold groupBy.
    by rewrite (group_loop_Throw_fmap _ _ [] [] elems e Hr).
Qed.

(** The names of the result do not depend on the order in which the keys
    of the Map are handed to [sort]. *)
Lemma own_keys_order_independent {A} (m : jsmap (list A)) ks1 ks2 :
  ks1 ≡ₚ ks2 →
  own_keys (foldl (emit m) [] (array_sort ks1))
  = own_keys (foldl (emit m) [] (array_sort ks2)).
Proof.
  intros Hperm.
  assert (dict_keys (foldl (emit m) [] (array_sort ks1))
          = dict_keys (foldl (emit m) [] (array_sort ks2))) as Hkeys.
  { rewrite !emit_loop_keys. simpl. do 2 f_equal.
    pose proof (array_sort_sort_keys_Permutation ks1 ks2 Hperm) as Hsk.
    apply (f_equal (fmap (default "undefined"))) in Hsk.
    rewrite <-!list_fmap_compose in Hsk.
    assert (∀ ks : list prim,
              to_string <$> filter own_key ks
              = filter (λ s, s ≠ "__proto__")
                  (default "undefined" ∘ sort_key <$> ks)) as Hown.
    { intros ks. induction ks as [|k ks IH]; [done|]. csimpl.
      rewrite !filter_cons. simpl. rewrite <-to_string_sort_key.
      unfold own_key at 1.
      destruct (decide (to_string k ≠ "__proto__")); csimpl; by rewrite IH. }
    by rewrite !Hown, Hsk. }
  unfold own_keys, index_keys, name_keys. fold (dict_keys (foldl (emit m) [] (array_sort ks1))).
  fold (dict_keys (foldl (emit m) [] (array_sort ks2))). by rewrite Hkeys.
Qed.

(** C8.  Two calls whose input arrays hold equal records, in whatever
    stores and at whatever addresses, have the same outcome: the result
    depends on the records and the key selector alone.  The names of the
    result come in the same order however the keys of the Map are arranged
    before sorting.  The call changes no cell that existed before it: what
    it writes, it allocated. *)
Theorem groupBy_deterministic (σ1 σ2 : Store.store) lo1 lo2 elems1 elems2
    property :
  σ1 !! lo1 = Some (Store.CArray elems1) →
  σ2 !! lo2 = Some (Store.CArray elems2) →
  Forall (Store.is_record σ1) elems1 →
  Forall (Store.is_record σ2) elems2 →
  Store.reify σ1 <$> elems1 = Store.reify σ2 <$> elems2 →
  outcome (Store.groupBy (Store.SRef lo1) property σ1)
  = outcome (Store.groupBy (Store.SRef lo2) property σ2)
  ∧ (∀ result ks,
       groupBy (Store.reify σ1 <$> elems1) property = Ok result →
       ks ≡ₚ first_seen (key_of (key_selector property)
                           <$> (Store.reify σ1 <$> elems1)) →
       own_keys (foldl (emit (grouped (key_selector property)
                                (Store.reify σ1 <$> elems1))) []
                   (array_sort ks))
       = own_keys result)
  ∧ (∀ l c, σ1 !! l = Some c →
            (Store.groupBy (Store.SRef lo1) property σ1).2 !! l = Some c).
Proof.
  intros Hlo1 Hlo2 Hrec1 Hrec2 Heq. split_and!.
  - rewrite !(outcome_groupBy _ _ _ _) by done. by rewrite Heq.
  - intros result ks [_ ->]%groupBy_Ok Hks.
    by apply own_keys_order_independent.
  - intros l c Hl.
    destruct (groupBy_run σ1 lo1 elems1 property Hlo1 Hrec1)
      as (r & σ' & -> & Hframe & _).
    simpl. by eapply lookup_weaken.
Qed.

Lemma groupBy_deterministic_witness :
  outcome (Store.groupBy (Store.SRef 4%positive) (PValue (PStr "team"))
             team_store)
  = outcome (Store.groupBy (Store.SRef 20%positive) (PValue (PStr "team"))
               team_store_moved)
  ∧ (Store.groupBy (Store.SRef 4%positive) (PValue (PStr "team"))
       team_store).2 !! 4%positive
    = Some (Store.CArray [Store.SRef 1%positive; Store.SRef 2%positive;
                          Store.SRef 3%positive]).
Proof.
  destruct (groupBy_deterministic team_store team_store_moved
              4%positive 20%positive
              [Store.SRef 1%positive; Store.SRef 2%positive;
               Store.SRef 3%positive]
              [Store.SRef 11%positive; Store.SRef 12%positive;
               Store.SRef 13%positive]
              (PValue (PStr "team")))
    as (Hsame & _ & Hframe).
  - vm_compute. reflexivity.
  - vm_compute. reflexivity.
  - repeat constructor; eexists; vm_compute; reflexivity.
  - repeat constructor; eexists; vm_compute; reflexivity.
  - vm_compute. reflexivity.
  - split; [exact Hsame|]. apply Hframe. vm_compute. reflexivity.
Defined.

(** C10.  After a call the input array holds the same elements in the
    same order and every record is what it was.  The result object is a
    new cell, and each of its arrays holds elements of the input array
    themselves, in their order there: a record in a group is the same
    reference as in the input, not a copy. *)
Theorem groupBy_preserves_inputs (σ σ' : Store.store) lo elems property r :
  σ !! lo = Some (Store.CArray elems) →
  Forall (Store.is_record σ) elems →
  Store.groupBy (Store.SRef lo) property σ = (r, σ') →
  σ' !! lo = Some (Store.CArray elems)
  ∧ (∀ l fields, σ !! l = Some (Store.CRecord fields) →
                 σ' !! l = Some (Store.CRecord fields))
  ∧ (∀ v, r = Ok v →
          ∃ lr o, v = Store.SRef lr ∧ σ !! lr = None
                  ∧ Store.object_of σ' v = Some o
                  ∧ ∀ s g, (s, g) ∈ obj_entries o →
                      ∃ xs, g = Some xs ∧ xs `sublist_of` elems
                            ∧ ∀ x, x ∈ xs → x ∈ elems).
Proof.
  intros Hlo Hrecords Hrun.
  destruct (groupBy_run σ lo elems property Hlo Hrecords)
    as (r' & σ'' & Hrun' & Hframe & Hr).
  rewrite Hrun in Hrun'. injection Hrun' as <- <-. split_and!.
  - by eapply lookup_weaken.
  - intros l fields Hl. by eapply lookup_weaken.
  - intros v ->. destruct Hr as (Hret & (lr & -> & Hlr) & Hobj).
    eexists lr, _. split_and!; [done..|].
    intros s g Hentry%elem_of_obj_entries.
    apply result_get_Some in Hentry as (k & _ & _ & ->).
    eexists. split_and!; [done|apply sublist_filter|].
    intros x Hx. by apply elem_of_members in Hx as [? _].
Qed.

Lemma groupBy_preserves_inputs_witness :
  (Store.groupBy (Store.SRef 4%positive) (PValue (PStr "team"))
     team_store).2 !! 4%positive
  = Some (Store.CArray [Store.SRef 1%positive; Store.SRef 2%positive;
                        Store.SRef 3%positive]).
Proof.
  eapply (groupBy_preserves_inputs team_store _ 4%positive
            [Store.SRef 1%positive; Store.SRef 2%positive;
             Store.SRef 3%positive]
            (PValue (PStr "team"))).
  - vm_compute. reflexivity.
  - repeat constructor; eexists; vm_compute; reflexivity.
  - apply surjective_pairing.
Defined.

(** The store after the call on the three team records: the groups are
    arrays of the references [1], [3] and [2] of the input. *)
Example groupBy_team_store :
  Store.object_of
    (Store.groupBy (Store.SRef 4%positive) (PValue (PStr "team"))
       team_store).2
    (Store.SRef 8%positive)
  = Some [("blue", Some [Store.SRef 1%positive; Store.SRef 3%positive]);
          ("red", Some [Store.SRef 2%positive])]
  ∧ (Store.groupBy (Store.SRef 4%positive) (PValue (PStr "team"))
       team_store).1 = Ok (Store.SRef 8%positive).
Proof. by vm_compute. Qed.

(** * The page script: properties *)

(** ** Query strings *)

Lemma string_app_cons (c : ascii) (s t : string) :
  String c s +:+ t = String c (s +:+ t).
Proof. reflexivity. Qed.

Lemma string_app_assoc (s t u : string) : (s +:+ t) +:+ u = s +:+ (t +:+ u).
Proof.
  induction s as [|c s IH]; [done|].
  rewrite !string_app_cons. by f_equal.
Qed.

Lemma string_app_inv_head (s t u : string) : s +:+ t = s +:+ u → t = u.
Proof.
  induction s as [|c s IH]; [done|].
  rewrite !string_app_cons. intros [= H]. by apply IH.
Qed.

Lemma Forall_string_app (P : ascii → Prop) (s t : string) :
  Forall P (list_ascii_of_string (s +:+ t))
  ↔ Forall P (list_ascii_of_string s) ∧ Forall P (list_ascii_of_string t).
Proof.
  induction s as [|c s IH].
  - split; [by split|by intros [_ ?]].
  - rewrite string_app_cons. simpl. rewrite !Forall_cons, IH. naive_solver.
Qed.

Ltac div_lia := zify; Z.to_euclidean_division_equations; lia.

Lemma list_pair_ind {A} (P : list A → Prop) :
  P [] → (∀ x, P [x]) → (∀ x y l, P l → P (y :: l) → P (x :: y :: l)) →
  ∀ l, P l.
Proof.
  intros Hnil Hone Hstep l.
  assert (P l ∧ ∀ x, P (x :: l)) as [? _]; [|done].
  induction l as [|y l [IH1 IH2]]; [by split|].
  split; [apply IH2|]. intros x. apply Hstep; [done|apply IH2].
Qed.

(** A byte is one of 256 values. *)
Lemma byte_ascii (b : N) : (b < 256)%N → ∃ c, b = N_of_ascii c.
Proof. intros Hb. exists (ascii_of_N b). by rewrite N_ascii_embedding. Qed.

Lemma urlencoded_bytes_cons b bs :
  urlencoded_bytes (b :: bs) = urlencoded_byte b +:+ urlencoded_bytes bs.
Proof. reflexivity. Qed.

Lemma urlencoded_bytes_app (bs bs' : list N) :
  urlencoded_bytes (bs ++ bs')
  = urlencoded_bytes bs +:+ urlencoded_bytes bs'.
Proof.
  induction bs as [|b bs IH]; simpl; [done|].
  by rewrite IH, string_app_assoc.
Qed.

Lemma urldecode_encoded_byte (b : N) (rest : string) :
  (b < 256)%N →
  urldecode_byte (urlencoded_byte b +:+ rest) = Some (b, rest).
Proof.
  intros [c ->]%byte_ascii.
  destruct c as [[] [] [] [] [] [] [] []]; reflexivity.
Qed.

Lemma urlencoded_bytes_inj bs bs' :
  Forall (λ b, (b < 256)%N) bs → Forall (λ b, (b < 256)%N) bs' →
  urlencoded_bytes bs = urlencoded_bytes bs' → bs = bs'.
Proof.
  intros Hbs. revert bs'.
  induction Hbs as [|b bs Hb Hbs IH]; intros bs' Hbs' Heq;
    destruct Hbs' as [|b' bs' Hb' Hbs']; [done| | |].
  - apply (f_equal urldecode_byte) in Heq.
    rewrite urlencoded_bytes_cons, urldecode_encoded_byte in Heq; done.
  - apply (f_equal urldecode_byte) in Heq.
    rewrite urlencoded_bytes_cons, urldecode_encoded_byte in Heq; done.
  - apply (f_equal urldecode_byte) in Heq.
    rewrite !urlencoded_bytes_cons, !urldecode_encoded_byte in Heq by done.
    injection Heq as -> Heq. f_equal. by apply IH.
Qed.

Lemma urlencoded_byte_query_chars (b : N) :
  (b < 256)%N →
  Forall (λ c, query_char c = true)
    (list_ascii_of_string (urlencoded_byte b)).
Proof.
  intros [c ->]%byte_ascii.
  destruct c as [[] [] [] [] [] [] [] []];
    match goal with
    | |- Forall _ ?l => let l' := eval vm_compute in l in change l with l'
    end;
    repeat constructor.
Qed.

Lemma urlencoded_bytes_query_chars (bs : list N) :
  Forall (λ b, (b < 256)%N) bs →
  Forall (λ c, query_char c = true)
    (list_ascii_of_string (urlencoded_bytes bs)).
Proof.
  induction 1 as [|b bs Hb Hbs IH]; [constructor|].
  rewrite urlencoded_bytes_cons. apply Forall_string_app.
  split; [by apply urlencoded_byte_query_chars|done].
Qed.

Lemma utf8_encode_point_bytes c :
  (c < 1114112)%N → Forall (λ b, (b < 256)%N) (utf8_encode_point c).
Proof.
  intros Hc. unfold utf8_encode_point.
  destruct (N.ltb_spec c 128);
    [|destruct (N.ltb_spec c 2048); [|destruct (N.ltb_spec c 65536)]];
    repeat (apply Forall_cons; split; [div_lia|]); apply Forall_nil_2.
Qed.

Lemma utf8_decode_encoded_point c rest :
  utf8_decode_point (utf8_encode_point c ++ rest) = Some (c, rest).
Proof.
  unfold utf8_encode_point.
  destruct (N.ltb_spec c 128) as [H1|H1].
  { simpl. by destruct (N.ltb_spec c 128); [|lia]. }
  destruct (N.ltb_spec c 2048) as [H2|H2].
  { simpl.
    destruct (N.ltb_spec (192 + c / 64) 128); [div_lia|].
    destruct (N.ltb_spec (192 + c / 64) 224); [|div_lia].
    do 2 f_equal. div_lia. }
  destruct (N.ltb_spec c 65536) as [H3|H3].
  { simpl.
    destruct (N.ltb_spec (224 + c / 4096) 128); [div_lia|].
    destruct (N.ltb_spec (224 + c / 4096) 224); [div_lia|].
    destruct (N.ltb_spec (224 + c / 4096) 240); [|div_lia].
    do 2 f_equal. div_lia. }
  simpl.
  destruct (N.ltb_spec (240 + c / 262144) 128); [div_lia|].
  destruct (N.ltb_spec (240 + c / 262144) 224); [div_lia|].
  destruct (N.ltb_spec (240 + c / 262144) 240); [div_lia|].
  do 2 f_equal. div_lia.
Qed.

Lemma utf8_encode_points_inj (cs cs' : list N) :
  cs ≫= utf8_encode_point = cs' ≫= utf8_encode_point → cs = cs'.
Proof.
  revert cs'. induction cs as [|c cs IH]; intros [|c' cs'] Heq; [done| | |].
  - apply (f_equal utf8_decode_point) in Heq.
    rewrite bind_cons, utf8_decode_encoded_point in Heq. done.
  - apply (f_equal utf8_decode_point) in Heq.
    rewrite bind_cons, utf8_decode_encoded_point in Heq. done.
  - apply (f_equal utf8_decode_point) in Heq.
    rewrite !bind_cons, !utf8_decode_encoded_point in Heq.
    injection Heq as -> Heq. f_equal. by apply IH.
Qed.

Lemma surrogate_spec u :
  (high_surrogate u = true ↔ (55296 ≤ u < 56320)%N)
  ∧ (low_surrogate u = true ↔ (56320 ≤ u < 57344)%N).
Proof.
  unfold high_surrogate, low_surrogate.
  by rewrite !andb_true_iff, !N.leb_le, !N.ltb_lt.
Qed.

Lemma code_points_bound units :
  Forall code_unit units →
  Forall (λ c, (c < 1114112)%N) (code_points units).
Proof.
  unfold code_unit.
  induction units as [| u | u l rest IH1 IH2] using list_pair_ind; intros Hunits.
  - constructor.
  - apply Forall_cons in Hunits as [Hu _]. simpl in *.
    destruct (high_surrogate u), (low_surrogate u);
      repeat constructor; lia.
  - apply Forall_cons in Hunits as [Hu Hrest].
    pose proof Hrest as [Hl Hrest']%Forall_cons.
    specialize (IH1 Hrest'). specialize (IH2 Hrest). cbv beta in Hu, Hl.
    pose proof (surrogate_spec u) as [Hhigh _].
    pose proof (surrogate_spec l) as [_ Hlow].
    cbn [code_points]. cbn [code_points] in IH2.
    destruct (high_surrogate u).
    + destruct (low_surrogate l).
      * constructor; [lia|done].
      * constructor; [lia|done].
    + destruct (low_surrogate u); (constructor; [lia|done]).
Qed.

Lemma utf8_encode_bytes units :
  Forall code_unit units → Forall (λ b, (b < 256)%N) (utf8_encode units).
Proof.
  intros Hunits%code_points_bound. unfold utf8_encode.
  induction Hunits as [|c cs Hc Hcs IH]; [constructor|].
  rewrite bind_cons. apply Forall_app. split; [|done].
  by apply utf8_encode_point_bytes.
Qed.

Lemma utf16_encode_code_points units :
  Forall code_unit units → well_formed units = true →
  code_points units ≫= utf16_encode_point = units.
Proof.
  unfold code_unit.
  induction units as [| u | u l rest IH1 IH2] using list_pair_ind;
    intros Hunits Hwf.
  - done.
  - apply Forall_cons in Hunits as [Hu _]. simpl in *.
    destruct (high_surrogate u); [done|].
    destruct (low_surrogate u); [done|].
    simpl. unfold utf16_encode_point.
    by destruct (N.ltb_spec u 65536); [|lia].
  - apply Forall_cons in Hunits as [Hu Hrest].
    pose proof Hrest as [Hl Hrest']%Forall_cons. cbv beta in Hu, Hl.
    pose proof (surrogate_spec u) as [Hhigh _].
    pose proof (surrogate_spec l) as [_ Hlow].
    cbn [code_points well_formed] in *.
    destruct (high_surrogate u).
    + destruct (low_surrogate l); [|done]. simpl in Hwf.
      rewrite bind_cons, IH1 by done.
      unfold utf16_encode_point.
      destruct (N.ltb_spec (65536 + (u - 55296) * 1024 + (l - 56320)) 65536);
        [lia|].
      simpl. f_equal; [|f_equal]; div_lia.
    + destruct (low_surrogate u); [done|]. simpl in Hwf.
      rewrite bind_cons, IH2 by done.
      unfold utf16_encode_point.
      by destruct (N.ltb_spec u 65536); [|lia].
Qed.

Lemma urlencoded_units_inj units units' :
  Forall code_unit units → Forall code_unit units' →
  well_formed units = true → well_formed units' = true →
  urlencoded_units units = urlencoded_units units' → units = units'.
Proof.
  intros Hu Hu' Hwf Hwf' Heq.
  apply urlencoded_bytes_inj in Heq; [|by apply utf8_encode_bytes..].
  apply utf8_encode_points_inj in Heq.
  by rewrite <-(utf16_encode_code_points units),
    <-(utf16_encode_code_points units'), Heq.
Qed.

Lemma urlencoded_units_query_chars units :
  Forall code_unit units →
  Forall (λ c, query_char c = true)
    (list_ascii_of_string (urlencoded_units units)).
Proof. intros Hu. by apply urlencoded_bytes_query_chars, utf8_encode_bytes. Qed.

(** The texts of the model: code units below 256. *)
Lemma code_units_bound s : Forall (λ u, (u < 256)%N) (code_units s).
Proof.
  unfold code_units. apply Forall_fmap, Forall_true. intros c.
  apply N_ascii_bounded.
Qed.

Lemma code_units_inj : Inj (=) (=) code_units.
Proof.
  intros s. induction s as [|c s IH]; intros [|c' t]; try done.
  unfold code_units. simpl. intros [= Hc Hs]. f_equal.
  - by rewrite <-(ascii_N_embedding c), Hc, ascii_N_embedding.
  - by apply IH.
Qed.

Lemma code_points_latin units :
  Forall (λ u, (u < 256)%N) units → code_points units = units.
Proof.
  induction 1 as [|u units Hu Hunits IH]; [done|].
  pose proof (surrogate_spec u) as [Hhigh Hlow]. simpl.
  destruct (high_surrogate u); [lia|].
  destruct (low_surrogate u); [lia|]. by rewrite IH.
Qed.

Lemma well_formed_latin units :
  Forall (λ u, (u < 256)%N) units → well_formed units = true.
Proof.
  induction 1 as [|u units Hu Hunits IH]; [done|].
  pose proof (surrogate_spec u) as [Hhigh Hlow]. simpl.
  destruct (high_surrogate u); [lia|].
  destruct (low_surrogate u); [lia|]. done.
Qed.

Lemma code_unit_latin units :
  Forall (λ u, (u < 256)%N) units → Forall code_unit units.
Proof. intros H. eapply Forall_impl; [done|]. unfold code_unit. lia. Qed.

Lemma urlencoded_inj : Inj (=) (=) urlencoded.
Proof.
  intros s t Heq. apply code_units_inj.
  apply urlencoded_units_inj;
    try apply code_unit_latin; try apply well_formed_latin;
    try apply code_units_bound; done.
Qed.

Lemma urlencoded_cons (c : ascii) (s : string) :
  urlencoded (String c s)
  = urlencoded_bytes (utf8_encode_point (N_of_ascii c)) +:+ urlencoded s.
Proof.
  unfold urlencoded, urlencoded_units, utf8_encode.
  rewrite !code_points_latin by apply code_units_bound.
  unfold code_units. simpl. apply urlencoded_bytes_app.
Qed.

Lemma urlencoded_query_chars (s : string) :
  Forall (λ c, query_char c = true) (list_ascii_of_string (urlencoded s)).
Proof.
  apply urlencoded_units_query_chars, code_unit_latin, code_units_bound.
Qed.

Lemma urlencoded_alphanumeric (s : string) :
  Forall (λ c, alphanumeric c = true) (list_ascii_of_string s) →
  urlencoded s = s.
Proof.
  induction s as [|c s IH]; [done|]. simpl.
  intros [Hc Hs]%Forall_cons. rewrite urlencoded_cons, IH by done.
  clear IH Hs. revert Hc.
  destruct c as [[] [] [] [] [] [] [] []]; vm_compute; done.
Qed.

Lemma URLSearchParams_toString_one (name v : string) :
  URLSearchParams_toString [(name, v)]
  = urlencoded name +:+ "=" +:+ urlencoded v.
Proof. reflexivity. Qed.

(** Text beyond ASCII and beyond the basic plane: [é], the euro sign and
    an emoji written as a surrogate pair. *)
Example urlencoded_examples :
  urlencoded "a b&c=d#e" = "a+b%26c%3Dd%23e"
  ∧ urlencoded_units [233%N] = "%C3%A9"
  ∧ urlencoded_units [8364%N] = "%E2%82%AC"
  ∧ urlencoded_units [55357%N; 56832%N] = "%F0%9F%98%80".
Proof. by vm_compute. Qed.

(** Two surrogates without partners are both written as U+FFFD. *)
Example urlencoded_lone_surrogates :
  urlencoded_units [55296%N] = "%EF%BF%BD"
  ∧ urlencoded_units [55297%N] = "%EF%BF%BD"
  ∧ well_formed [55296%N] = false
  ∧ well_formed [55297%N] = false.
Proof. by vm_compute. Qed.

(** X1.  The two request addresses are the fixed address of the service with
    one query parameter, [rel_rhy] or [ml], whose value is the encoded text
    of the input whatever argument is passed.  The encoding of any sequence
    of UTF-16 code units, and so of the text of the input, holds letters,
    digits and [* - . _ % +] only: no text adds a parameter or a fragment
    to the address. *)
Theorem getDatamuseUrl_query (arg : string) (p : page) :
  getDatamuseRhymeUrl arg p
  = "https://api.datamuse.com/words?rel_rhy=" +:+ urlencoded (wordInput p)
  ∧ getDatamuseSimilarToUrl arg p
    = "https://api.datamuse.com/words?ml=" +:+ urlencoded (wordInput p)
  ∧ Forall (λ c, query_char c = true)
      (list_ascii_of_string (urlencoded (wordInput p)))
  ∧ ∀ units,
      Forall code_unit units →
      Forall (λ c, query_char c = true)
        (list_ascii_of_string (urlencoded_units units)).
Proof.
  split_and!.
  - unfold getDatamuseRhymeUrl. by rewrite URLSearchParams_toString_one.
  - unfold getDatamuseSimilarToUrl. by rewrite URLSearchParams_toString_one.
  - apply urlencoded_query_chars.
  - apply urlencoded_units_query_chars.
Qed.

(** X2.  The address determines the request.  Two texts in which every
    surrogate is one of a pair have the same encoding only if they are the
    same text; the texts of the model, of code units below 256, are such
    texts, so two pages get the same rhyme address, or the same synonym
    address, only for the same text of the input.  A rhyme address is
    never a synonym address. *)
Theorem getDatamuseUrl_inj (arg arg' : string) (p q : page) :
  (getDatamuseRhymeUrl arg p = getDatamuseRhymeUrl arg' q →
   wordInput p = wordInput q)
  ∧ (getDatamuseSimilarToUrl arg p = getDatamuseSimilarToUrl arg' q →
     wordInput p = wordInput q)
  ∧ getDatamuseRhymeUrl arg p ≠ getDatamuseSimilarToUrl arg' q
  ∧ ∀ units units',
      Forall code_unit units → Forall code_unit units' →
      well_formed units = true → well_formed units' = true →
      urlencoded_units units = urlencoded_units units' →
      units = units'.
Proof.
  unfold getDatamuseRhymeUrl, getDatamuseSimilarToUrl.
  rewrite !URLSearchParams_toString_one. split_and!.
  - intros Heq%string_app_inv_head.
    change (urlencoded "rel_rhy") with "rel_rhy" in Heq.
    do 2 apply string_app_inv_head in Heq.
    by apply urlencoded_inj.
  - intros Heq%string_app_inv_head.
    change (urlencoded "ml") with "ml" in Heq.
    do 2 apply string_app_inv_head in Heq.
    by apply urlencoded_inj.
  - intros Heq%string_app_inv_head.
    change (urlencoded "rel_rhy") with "rel_rhy" in Heq.
    change (urlencoded "ml") with "ml" in Heq.
    rewrite !string_app_cons in Heq. discriminate.
  - apply urlencoded_units_inj.
Qed.

(** X3.  A word of ASCII letters and digits stands in the address as it
    is. *)
Theorem getDatamuseUrl_plain_word (arg : string) (p : page) :
  Forall (λ c, alphanumeric c = true) (list_ascii_of_string (wordInput p)) →
  getDatamuseRhymeUrl arg p
  = "https://api.datamuse.com/words?rel_rhy=" +:+ wordInput p
  ∧ getDatamuseSimilarToUrl arg p
    = "https://api.datamuse.com/words?ml=" +:+ wordInput p.
Proof.
  intros Hword. unfold getDatamuseRhymeUrl, getDatamuseSimilarToUrl.
  rewrite !URLSearchParams_toString_one, (urlencoded_alphanumeric _ Hword).
  done.
Qed.

Lemma getDatamuseUrl_plain_word_witness :
  getDatamuseRhymeUrl "ignored" (with_wordInput "cat" blank_page)
  = "https://api.datamuse.com/words?rel_rhy=cat"
  ∧ getDatamuseSimilarToUrl "ignored" (with_wordInput "cat" blank_page)
    = "https://api.datamuse.com/words?ml=cat".
Proof.
  apply (getDatamuseUrl_plain_word "ignored" (with_wordInput "cat" blank_page)).
  simpl. repeat constructor.
Defined.

(** ** Saved words *)

Lemma string_app_nil_r (s : string) : s +:+ EmptyString = s.
Proof.
  induction s as [|c s IH]; [done|]. rewrite string_app_cons. by f_equal.
Qed.

Lemma addToSavedWords_run (word : prim) (p : page) :
  addToSavedWords word p
  = with_savedWords [" "; array_join (savedWordsArray p ++ [word])]
      (with_savedWordsArray (savedWordsArray p ++ [word]) p).
Proof. reflexivity. Qed.

Lemma run_Save (p : page) (words : list prim) (word : prim) :
  run p (Save <$> words ++ [word])
  = with_savedWords [" "; array_join (savedWordsArray p ++ words ++ [word])]
      (with_savedWordsArray (savedWordsArray p ++ words ++ [word]) p).
Proof.
  revert p. induction words as [|w words IH]; intros p; [done|].
  change (run p (Save <$> (w :: words) ++ [word]))
    with (run (addToSavedWords w p) (Save <$> words ++ [word])).
  rewrite IH, addToSavedWords_run. destruct p. simpl.
  by rewrite <-!(assoc_L (++)).
Qed.

(** X4.  The loaded page shows the placeholder [(None)] and has no saved
    word.  Saving words one after the other keeps them all, repeated ones
    too, in the order in which they were saved, and the page shows exactly
    them: a blank, then the words joined by commas.  What stood there
    before, the placeholder included, is gone, and nothing else on the page
    changes. *)
Theorem addToSavedWords_shows_all (p : page) (words : list prim)
    (word : prim) :
  textContent (savedWords (main p)) = "(None)"
  ∧ savedWordsArray (main p) = []
  ∧ savedWordsArray (run p (Save <$> words ++ [word]))
  = savedWordsArray p ++ words ++ [word]
  ∧ textContent (savedWords (run p (Save <$> words ++ [word])))
    = " " +:+ array_join (savedWordsArray p ++ words ++ [word])
  ∧ run p (Save <$> words ++ [word])
    = with_savedWords (savedWords (run p (Save <$> words ++ [word])))
        (with_savedWordsArray
           (savedWordsArray (run p (Save <$> words ++ [word]))) p).
Proof.
  rewrite run_Save. split_and!.
  - done.
  - done.
  - done.
  - simpl. by rewrite string_app_nil_r.
  - done.
Qed.

(** ** Code that appends to the output *)

Lemma with_wordOutput_id (p : page) : with_wordOutput (wordOutput p) p = p.
Proof. by destruct p. Qed.

Lemma writes_ret : writes (mret ()) (Ok ()) [].
Proof. intros p. by rewrite app_nil_r, with_wordOutput_id. Qed.

Lemma writes_add_innerHTML (markup : string) :
  writes (wordOutput_add_innerHTML markup) (Ok ()) [Html markup].
Proof. by intros p. Qed.

Lemma writes_append (child : node) :
  writes (wordOutput_append child) (Ok ()) [child].
Proof. by intros p. Qed.

Lemma writes_seq (m m' : PM unit) r ns ns' :
  writes m (Ok ()) ns → writes m' r ns' → writes (m ;; m') r (ns ++ ns').
Proof.
  intros Hm Hm' p. unfold mbind, PM_bind. rewrite Hm, Hm'.
  destruct p. simpl. by rewrite (assoc_L (++)).
Qed.

Lemma writes_seq_Throw (m m' : PM unit) e ns :
  writes m (Throw e) ns → writes (m ;; m') (Throw e) ns.
Proof. intros Hm p. unfold mbind, PM_bind. by rewrite Hm. Qed.

Lemma writes_seq_ex (m m' : PM unit) :
  (∃ r ns, writes m r ns) → (∃ r ns, writes m' r ns) →
  ∃ r ns, writes (m ;; m') r ns.
Proof.
  intros ([[]|e] & ns & Hm) (r' & ns' & Hm').
  - exists r', (ns ++ ns'). by apply writes_seq.
  - exists (Throw e), ns. by apply writes_seq_Throw.
Qed.

Lemma writes_lift_Ok {A} (r : res A) (a : A) (f : A → PM unit) r' ns :
  r = Ok a → writes (f a) r' ns → writes (lift r ≫= f) r' ns.
Proof. intros -> Hf p. unfold mbind, PM_bind, lift. apply Hf. Qed.

Lemma writes_lift_Throw {A} (f : A → PM unit) e :
  writes (lift (Throw e) ≫= f) (Throw e) [].
Proof.
  intros p. unfold mbind, PM_bind, lift.
  by rewrite app_nil_r, with_wordOutput_id.
Qed.

Lemma writes_lift_ex {A} (r : res A) (f : A → PM unit) :
  (∀ a, ∃ r' ns, writes (f a) r' ns) → ∃ r' ns, writes (lift r ≫= f) r' ns.
Proof.
  intros Hf. destruct r as [a|e].
  - destruct (Hf a) as (r' & ns & Ha). exists r', ns.
    by apply (writes_lift_Ok _ a).
  - exists (Throw e), []. apply writes_lift_Throw.
Qed.

Lemma writes_for_each {A} (l : list A) (body : A → PM unit)
    (f : A → list node) :
  (∀ x, x ∈ l → writes (body x) (Ok ()) (f x)) →
  writes (for_each l body) (Ok ()) (mjoin (f <$> l)).
Proof.
  induction l as [|x l IH]; intros Hbody; [apply writes_ret|].
  simpl. apply writes_seq.
  - apply Hbody. left.
  - apply IH. intros y Hy. apply Hbody. by right.
Qed.

Lemma writes_for_each_Throw {A} (l1 l2 : list A) (x : A)
    (body : A → PM unit) (f : A → list node) e ns :
  (∀ y, y ∈ l1 → writes (body y) (Ok ()) (f y)) →
  writes (body x) (Throw e) ns →
  writes (for_each (l1 ++ x :: l2) body) (Throw e) (mjoin (f <$> l1) ++ ns).
Proof.
  induction l1 as [|y l1 IH]; intros Hbody Hx.
  - simpl. by apply writes_seq_Throw.
  - simpl. rewrite <-(assoc_L (++)). apply writes_seq.
    + apply Hbody. left.
    + apply IH; [|done]. intros z Hz. apply Hbody. by right.
Qed.

Lemma writes_for_each_ex {A} (l : list A) (body : A → PM unit) :
  (∀ x, ∃ r ns, writes (body x) r ns) →
  ∃ r ns, writes (for_each l body) r ns.
Proof.
  intros Hbody. induction l as [|x l IH].
  - exists (Ok ()), []. apply writes_ret.
  - simpl. by apply writes_seq_ex.
Qed.

(** ** The callbacks *)

Lemma rhymeCallBack_run (data : list value) (p : page) :
  rhymeCallBack data p
  = (if decide (length data ≠ 0) then rhyme_groups data
     else wordOutput_append no_results)
      (with_outputDescription (description RhymeCallBack (wordInput p))
         (with_wordOutput [] p)).
Proof. reflexivity. Qed.

Lemma similarCallBack_run (data : list value) (p : page) :
  similarCallBack data p
  = (if decide (length data ≠ 0) then for_each data synonym_step
     else wordOutput_append no_results)
      (with_outputDescription (description SimilarCallBack (wordInput p))
         (with_wordOutput [] p)).
Proof. reflexivity. Qed.

Lemma rhymeCallBack_writes (data : list value) (p : page) r ns :
  data ≠ [] → writes (rhyme_groups data) r ns →
  rhymeCallBack data p
  = (r, with_wordOutput ns
          (with_outputDescription (description RhymeCallBack (wordInput p))
             p)).
Proof.
  intros Hdata Hw. rewrite rhymeCallBack_run.
  rewrite decide_True by by destruct data.
  by rewrite Hw.
Qed.

Lemma similarCallBack_writes (data : list value) (p : page) r ns :
  data ≠ [] → writes (for_each data synonym_step) r ns →
  similarCallBack data p
  = (r, with_wordOutput ns
          (with_outputDescription (description SimilarCallBack (wordInput p))
             p)).
Proof.
  intros Hdata Hw. rewrite similarCallBack_run.
  rewrite decide_True by by destruct data.
  by rewrite Hw.
Qed.

Lemma callback_empty (callback : callback) (p : page) :
  call callback [] p
  = (Ok (), with_wordOutput [no_results]
              (with_outputDescription (description callback (wordInput p))
                 p)).
Proof. by destruct callback. Qed.

Lemma rhyme_group_writes_ex group : ∃ r ns, writes (rhyme_group group) r ns.
Proof.
  apply writes_for_each_ex. intros item. apply writes_lift_ex. intros word.
  eexists _, _. apply writes_add_innerHTML.
Qed.

Lemma rhyme_groups_writes_ex data : ∃ r ns, writes (rhyme_groups data) r ns.
Proof.
  apply writes_lift_ex. intros groups. apply writes_for_each_ex. intros i.
  apply writes_seq_ex; [|apply rhyme_group_writes_ex].
  eexists _, _. apply writes_add_innerHTML.
Qed.

Lemma synonym_steps_writes_ex data :
  ∃ r ns, writes (for_each data synonym_step) r ns.
Proof.
  apply writes_for_each_ex. intros item. apply writes_lift_ex. intros word.
  eexists _, _. apply writes_append.
Qed.

(** A callback replaces what the output showed: how it ends and the
    children it leaves in the output depend on the answer alone, the
    description names the text the input holds when the callback runs, and
    nothing else on the page changes. *)
Lemma call_writes (callback : callback) (data : list value) :
  ∃ r ns, ∀ p,
    call callback data p
    = (r, with_wordOutput ns
            (with_outputDescription (description callback (wordInput p)) p)).
Proof.
  destruct data as [|x data].
  { eexists _, _. intros p. apply callback_empty. }
  destruct callback; simpl.
  - destruct (rhyme_groups_writes_ex (x :: data)) as (r & ns & Hw).
    exists r, ns. intros p. by apply rhymeCallBack_writes.
  - destruct (synonym_steps_writes_ex (x :: data)) as (r & ns & Hw).
    exists r, ns. intros p. by apply similarCallBack_writes.
Qed.

(** ** Syllable counts as group names *)

Lemma to_int_string (z : Z) :
  NilZero.int_of_string (NilZero.string_of_int (Z.to_int z))
  = Some (Z.to_int z).
Proof.
  apply NilZero.isi; destruct z as [|q|q]; simpl; try discriminate;
    intros [= Hnil]; by apply (DecimalPos.Unsigned.to_uint_nonnil q).
Qed.

Lemma number_to_string_inj : Inj (=) (=) number_to_string.
Proof.
  intros a b Heq. unfold number_to_string in Heq.
  apply (f_equal NilZero.int_of_string) in Heq.
  rewrite !to_int_string in Heq. injection Heq as Heq.
  apply (f_equal Z.of_int) in Heq. by rewrite !DecimalZ.of_to in Heq.
Qed.

Lemma string_of_uint_not_name (d : uint) (s : string) :
  s = "undefined" ∨ s = "__proto__" → NilZero.string_of_uint d ≠ s.
Proof. intros [-> | ->]; destruct d; simpl; discriminate. Qed.

Lemma number_to_string_not_name (n : Z) (s : string) :
  s = "undefined" ∨ s = "__proto__" → number_to_string n ≠ s.
Proof.
  intros Hs. unfold number_to_string.
  destruct (Z.to_int n) as [d|d]; simpl.
  - by apply string_of_uint_not_name.
  - destruct Hs as [-> | ->]; discriminate.
Qed.

Lemma counted_Ok (item : value) :
  counted item →
  key_selector (PValue (PStr "numSyllables")) item = Ok (syllables_of item)
  ∧ get item "word" = Ok (word_of item).
Proof.
  intros [Hitem _]. split.
  - destruct (get_Ok item "numSyllables" Hitem) as [k Hk].
    unfold syllables_of. simpl. rewrite Hk.
    by rewrite (returns_on_key_of (λ x, get x "numSyllables") item k).
  - destruct (get_Ok item "word" Hitem) as [k Hk].
    unfold word_of.
    by rewrite (returns_on_key_of (λ x, get x "word") item k Hk).
Qed.

Lemma counted_to_string (item : value) (k : prim) :
  counted item →
  (k = PUndefined ∨ ∃ n, k = PNum n) →
  to_string (syllables_of item) = to_string k → syllables_of item = k.
Proof.
  intros [_ [-> | [n ->]]] [-> | [n' ->]]; simpl; intros Heq.
  - done.
  - symmetry in Heq. apply number_to_string_not_name in Heq; [done|by left].
  - apply number_to_string_not_name in Heq; [done|by left].
  - by apply number_to_string_inj in Heq as ->.
Qed.

Lemma counted_returns (data : list value) :
  Forall counted data →
  returns_on (key_selector (PValue (PStr "numSyllables"))) data.
Proof.
  intros Hdata. eapply Forall_impl; [done|]. intros item Hitem.
  exists (syllables_of item). by apply counted_Ok.
Qed.

Lemma counted_distinct (data : list value) :
  Forall counted data →
  distinct_key_strings (key_selector (PValue (PStr "numSyllables"))) data.
Proof.
  intros Hdata. rewrite Forall_forall in Hdata. split.
  - intros x y Hx Hy. apply (counted_to_string x); [by apply Hdata|].
    by destruct (Hdata y Hy) as [_ ?].
  - intros x Hx. unfold own_key.
    destruct (Hdata x Hx) as [_ [Hk | [n Hk]]];
      fold (syllables_of x); rewrite Hk; simpl; [done|].
    apply number_to_string_not_name. by right.
Qed.

(** Under the name of the number [i] the result of [groupBy] holds the
    items with [i] syllables, and nothing under that name when there are
    none. *)
Lemma counted_group (data : list value) (i : nat) :
  Forall counted data →
  for_in
    (obj_get
       (foldl (emit (grouped (key_selector (PValue (PStr "numSyllables")))
                       data)) []
          (emitted (key_selector (PValue (PStr "numSyllables"))) data))
       (to_property_key (PNum (Z.of_nat i))))
  = with_syllables i data.
Proof.
  intros Hdata. set (sel := key_selector (PValue (PStr "numSyllables"))).
  rewrite result_get_own
    by (apply number_to_string_not_name; by right).
  destruct (last _) as [k|] eqn:Hlast; simpl.
  - apply last_Some_elem_of, list_elem_of_filter in Hlast as [Hs Hk].
    apply elem_of_emitted in Hk as (x & Hx & <-).
    rewrite Forall_forall in Hdata.
    apply (counted_to_string x (PNum (Z.of_nat i))) in Hs;
      [|by apply Hdata|by right; eexists].
    unfold syllables_of in Hs. fold sel in Hs. by rewrite Hs.
  - apply last_None in Hlast.
    destruct (with_syllables i data) as [|x l] eqn:Hwith; [done|].
    assert (x ∈ with_syllables i data) as Hx by (rewrite Hwith; left).
    apply list_elem_of_filter in Hx as [Hk Hx].
    assert (PNum (Z.of_nat i)
            ∈ filter (λ k, to_string k = to_property_key (PNum (Z.of_nat i)))
                (emitted sel data)) as Hin.
    { apply list_elem_of_filter. split; [done|].
      apply elem_of_emitted. eauto. }
    rewrite Hlast in Hin. by apply elem_of_nil in Hin.
Qed.

Lemma counted_keys_length (data : list value) :
  Forall counted data →
  length
    (own_keys
       (foldl (emit (grouped (key_selector (PValue (PStr "numSyllables")))
                       data)) []
          (emitted (key_selector (PValue (PStr "numSyllables"))) data)))
  = length (syllable_counts data).
Proof.
  intros Hdata. rewrite own_keys_Permutation.
  rewrite result_distinct by by apply counted_distinct.
  unfold dict_keys. rewrite !length_fmap.
  by rewrite emitted_Permutation.
Qed.

Lemma mjoin_singletons {A B} (g : A → B) (l : list A) :
  mjoin ((λ x, [g x]) <$> l) = g <$> l.
Proof. induction l as [|x l IH]; csimpl; [done|]. by rewrite IH. Qed.

Lemma rhyme_group_writes (items : list value) :
  Forall (λ x, ¬ nullish x) items →
  writes (rhyme_group (Some (Some items))) (Ok ())
    ((λ x, Html (rhyme_item (word_of x))) <$> items).
Proof.
  intros Hitems. rewrite <-mjoin_singletons. apply writes_for_each.
  intros x Hx. rewrite Forall_forall in Hitems.
  destruct (get_Ok x "word" (Hitems x Hx)) as [k Hk].
  apply (writes_lift_Ok _ k); [done|].
  unfold word_of. rewrite (returns_on_key_of (λ x, get x "word") x k Hk).
  apply writes_add_innerHTML.
Qed.

(** The branch of a non-empty answer, for counted items: a heading for
    every number from 1 to the number of distinct counts and, under the
    heading [i], the items with [i] syllables. *)
Lemma rhyme_groups_writes (data : list value) :
  Forall counted data →
  writes (rhyme_groups data) (Ok ())
    (mjoin ((λ i, rhyme_section i (with_syllables i data))
            <$> seq 1 (length (syllable_counts data)))).
Proof.
  intros Hdata. unfold rhyme_groups.
  eapply writes_lift_Ok.
  { apply groupBy_Ok. split; [by apply counted_returns|done]. }
  rewrite counted_keys_length by done.
  apply writes_for_each. intros i _. unfold rhyme_step, rhyme_section.
  apply (writes_seq _ _ _ [_]); [apply writes_add_innerHTML|].
  pose proof (counted_group data i Hdata) as Hgroup.
  destruct (obj_get _ _) as [[items|]|] eqn:Hget; simpl in Hgroup;
    rewrite <-Hgroup.
  - apply rhyme_group_writes. subst items.
    apply Forall_forall. intros x [_ Hx]%list_elem_of_filter.
    rewrite Forall_forall in Hdata. by destruct (Hdata x Hx).
  - apply writes_ret.
  - apply writes_ret.
Qed.

(** ** rhymeCallBack *)

Lemma syllables_number_counted (item : value) (n : Z) :
  syllables_of item = PNum n → counted item.
Proof.
  intros Hn. split; [|right; by exists n].
  intros [-> | ->]; discriminate.
Qed.

Lemma counted_word_rec (word : string) (n : Z) : counted (word_rec word n).
Proof. apply (syllables_number_counted _ n). by vm_compute. Qed.

Lemma elem_of_syllable_counts (data : list value) (k : prim) :
  k ∈ syllable_counts data ↔ ∃ x, x ∈ data ∧ syllables_of x = k.
Proof.
  unfold syllable_counts. rewrite elem_of_first_seen, list_elem_of_fmap.
  naive_solver.
Qed.

Lemma elem_of_counts_range (m : nat) (k : prim) :
  k ∈ (λ i, PNum (Z.of_nat i)) <$> seq 1 m
  ↔ ∃ i, (1 ≤ i ≤ m)%nat ∧ k = PNum (Z.of_nat i).
Proof.
  rewrite list_elem_of_fmap. split.
  - intros (i & -> & Hi%elem_of_seq). exists i. split; [lia|done].
  - intros (i & Hi & ->). exists i. split; [done|]. apply elem_of_seq. lia.
Qed.

Lemma NoDup_counts_range (m : nat) :
  NoDup ((λ i, PNum (Z.of_nat i)) <$> seq 1 m).
Proof.
  apply NoDup_fmap_2; [|apply NoDup_seq].
  intros i j [= Hij]. lia.
Qed.

(** X8.  An answer that is not empty and whose items have a number, or
    nothing, for [numSyllables]: the callback writes the headings
    [Syllables: 1] to [Syllables: n], where [n] is the number of distinct
    counts in the answer (a missing count is one of them), and under the
    heading [i] one list item for every item of the answer with [i]
    syllables, in the order of the answer. *)
Theorem rhymeCallBack_sections (data : list value) (p : page) :
  data ≠ [] → Forall counted data →
  rhymeCallBack data p
  = (Ok (),
     with_wordOutput
       (mjoin ((λ i, rhyme_section i (with_syllables i data))
               <$> seq 1 (length (syllable_counts data))))
       (with_outputDescription (description RhymeCallBack (wordInput p)) p)).
Proof.
  intros Hne Hdata. apply rhymeCallBack_writes; [done|].
  by apply rhyme_groups_writes.
Qed.

Lemma rhymeCallBack_sections_witness :
  rhymeCallBack [cat; acrobat; hat] blank_page
  = (Ok (),
     with_wordOutput
       (mjoin ((λ i, rhyme_section i (with_syllables i [cat; acrobat; hat]))
               <$> seq 1 (length (syllable_counts [cat; acrobat; hat]))))
       (with_outputDescription
          (description RhymeCallBack (wordInput blank_page)) blank_page)).
Proof.
  apply (rhymeCallBack_sections [cat; acrobat; hat] blank_page); [done|].
  repeat (apply Forall_cons; split; [apply counted_word_rec|]).
  by apply Forall_nil.
Defined.

(** X9.  When the counts in the answer are exactly the numbers from 1 to
    [m], every item of the answer is written, once: the sections are those
    of 1 to [m], and the items under them, taken together, are the answer
    rearranged. *)
Theorem rhymeCallBack_complete (data : list value) (p : page) (m : nat) :
  data ≠ [] →
  (∀ x, x ∈ data → ∃ i, (1 ≤ i ≤ m)%nat ∧ syllables_of x = PNum (Z.of_nat i)) →
  (∀ i, (1 ≤ i ≤ m)%nat → with_syllables i data ≠ []) →
  rhymeCallBack data p
  = (Ok (),
     with_wordOutput
       (mjoin ((λ i, rhyme_section i (with_syllables i data)) <$> seq 1 m))
       (with_outputDescription (description RhymeCallBack (wordInput p)) p))
  ∧ mjoin ((λ i, with_syllables i data) <$> seq 1 m) ≡ₚ data.
Proof.
  intros Hne Hall Hevery.
  assert (Forall counted data) as Hdata.
  { apply Forall_forall. intros x Hx. destruct (Hall x Hx) as (i & _ & Hi).
    by eapply syllables_number_counted. }
  assert (syllable_counts data ≡ₚ (λ i, PNum (Z.of_nat i)) <$> seq 1 m)
    as Hcounts.
  { apply NoDup_Permutation;
      [apply NoDup_first_seen|apply NoDup_counts_range|].
    intros k. rewrite elem_of_syllable_counts, elem_of_counts_range. split.
    - intros (x & Hx & <-). apply (Hall x Hx).
    - intros (i & Hi & ->).
      destruct (with_syllables i data) as [|x l] eqn:Hwith;
        [by destruct (Hevery i Hi)|].
      assert (x ∈ with_syllables i data) as Hx by (rewrite Hwith; left).
      apply list_elem_of_filter in Hx as [Hk Hx]. eauto. }
  split.
  - rewrite (rhymeCallBack_writes _ _ _ _ Hne (rhyme_groups_writes _ Hdata)).
    by rewrite Hcounts, length_fmap, length_seq.
  - rewrite <-(join_members_Permutation
                 (key_selector (PValue (PStr "numSyllables"))) data
                 ((λ i, PNum (Z.of_nat i)) <$> seq 1 m)).
    + by rewrite <-list_fmap_compose.
    + apply NoDup_counts_range.
    + intros x Hx. apply elem_of_counts_range. apply (Hall x Hx).
Qed.

Lemma rhymeCallBack_complete_witness :
  rhymeCallBack [cat; combat; hat] blank_page
  = (Ok (),
     with_wordOutput
       (mjoin ((λ i, rhyme_section i (with_syllables i [cat; combat; hat]))
               <$> seq 1 2))
       (with_outputDescription
          (description RhymeCallBack (wordInput blank_page)) blank_page))
  ∧ mjoin ((λ i, with_syllables i [cat; combat; hat]) <$> seq 1 2)
    ≡ₚ [cat; combat; hat].
Proof.
  apply (rhymeCallBack_complete [cat; combat; hat] blank_page 2); [done| |].
  - intros x Hx. repeat apply elem_of_cons in Hx as [->|Hx].
    + exists 1. by split; [lia|].
    + exists 2. by split; [lia|].
    + exists 1. by split; [lia|].
    + by apply elem_of_nil in Hx.
  - intros i Hi. assert (i = 1 ∨ i = 2) as [-> | ->] by lia; by vm_compute.
Defined.

(** X10.  For an answer whose items are not [null] or [undefined] and
    have a number or nothing for [numSyllables]: when some number from 1 to
    [n] is the count of no item, [n] being the number of distinct counts,
    the callback returns, the heading of that number is written with
    nothing under it, and some item of the answer is written under no
    heading at all. *)
Theorem rhymeCallBack_gap (data : list value) (p : page) (i : nat) :
  Forall counted data →
  (1 ≤ i ≤ length (syllable_counts data))%nat →
  with_syllables i data = [] →
  rhymeCallBack data p
  = (Ok (),
     with_wordOutput
       (mjoin ((λ j, rhyme_section j (with_syllables j data))
               <$> seq 1 (length (syllable_counts data))))
       (with_outputDescription (description RhymeCallBack (wordInput p)) p))
  ∧ ∃ x, x ∈ data
         ∧ ∀ j, (1 ≤ j ≤ length (syllable_counts data))%nat →
                x ∉ with_syllables j data.
Proof.
  intros Hdata Hi Hnone. split.
  { apply rhymeCallBack_writes; [|by apply rhyme_groups_writes].
    intros ->. simpl in Hi. lia. }
  set (n := length (syllable_counts data)) in *.
  set (range := (λ i, PNum (Z.of_nat i)) <$> seq 1 n).
  assert (PNum (Z.of_nat i) ∉ syllable_counts data) as Hnotin.
  { intros (x & Hx & Hk)%elem_of_syllable_counts.
    assert (x ∈ with_syllables i data) as Hin
      by by apply list_elem_of_filter.
    rewrite Hnone in Hin. by apply elem_of_nil in Hin. }
  assert (¬ Forall (λ k, k ∈ range) (syllable_counts data)) as Hout.
  { intros Hin. rewrite Forall_forall in Hin.
    apply Hnotin.
    rewrite (submseteq_length_Permutation (syllable_counts data) range).
    - apply elem_of_counts_range. eauto.
    - apply NoDup_submseteq; [apply NoDup_first_seen|done].
    - unfold range. by rewrite length_fmap, length_seq. }
  apply not_Forall_Exists in Hout; [|apply _].
  apply Exists_exists in Hout as (k & Hk & Hrange).
  apply elem_of_syllable_counts in Hk as (x & Hx & <-).
  exists x. split; [done|]. intros j Hj [Hk _]%list_elem_of_filter.
  apply Hrange, elem_of_counts_range. eauto.
Qed.

Lemma rhymeCallBack_gap_witness :
  rhymeCallBack [cat; acrobat; hat] blank_page
  = (Ok (),
     with_wordOutput
       (mjoin ((λ j, rhyme_section j (with_syllables j [cat; acrobat; hat]))
               <$> seq 1 (length (syllable_counts [cat; acrobat; hat]))))
       (with_outputDescription
          (description RhymeCallBack (wordInput blank_page)) blank_page))
  ∧ ∃ x, x ∈ [cat; acrobat; hat]
         ∧ ∀ j, (1 ≤ j ≤ length (syllable_counts [cat; acrobat; hat]))%nat →
                x ∉ with_syllables j [cat; acrobat; hat].
Proof.
  apply (rhymeCallBack_gap [cat; acrobat; hat] blank_page 2).
  - repeat (apply Forall_cons; split; [apply counted_word_rec|]).
    by apply Forall_nil.
  - vm_compute. lia.
  - by vm_compute.
Defined.

(** X11.  An answer with a [null] or [undefined] item: the callback has
    emptied the output and written the description when [groupBy] throws
    the [TypeError], and it writes nothing more. *)
Theorem rhymeCallBack_null_item (data : list value) (p : page) (x : value) :
  x ∈ data → nullish x →
  rhymeCallBack data p
  = (Throw TypeError,
     with_wordOutput []
       (with_outputDescription (description RhymeCallBack (wordInput p)) p)).
Proof.
  intros Hx Hnull. apply rhymeCallBack_writes.
  { intros ->. by apply elem_of_nil in Hx. }
  assert (groupBy data (PValue (PStr "numSyllables")) = Throw TypeError)
    as Hthrow.
  { destruct (groupBy data (PValue (PStr "numSyllables"))) as [r|e] eqn:E.
    - apply groupBy_Ok in E as [Hret _]. unfold returns_on in Hret.
      rewrite Forall_forall in Hret. destruct (Hret x Hx) as [k Hk].
      by destruct Hnull as [-> | ->].
    - apply groupBy_Throw_inv in E as (y & _ & Hy).
      by apply get_Throw in Hy as [-> _]. }
  unfold rhyme_groups. rewrite Hthrow. apply writes_lift_Throw.
Qed.

Lemma rhymeCallBack_null_item_witness :
  rhymeCallBack [cat; VPrim PNull] blank_page
  = (Throw TypeError,
     with_wordOutput []
       (with_outputDescription
          (description RhymeCallBack (wordInput blank_page)) blank_page)).
Proof.
  apply (rhymeCallBack_null_item [cat; VPrim PNull] blank_page (VPrim PNull)).
  - right. left.
  - by right.
Defined.

(** ** similarCallBack *)

Lemma synonym_step_writes (item : value) :
  ¬ nullish item →
  writes (synonym_step item) (Ok ()) [synonym_item (word_of item)].
Proof.
  intros Hitem. destruct (get_Ok item "word" Hitem) as [k Hk].
  apply (writes_lift_Ok _ k); [done|].
  unfold word_of. rewrite (returns_on_key_of (λ x, get x "word") item k Hk).
  apply writes_append.
Qed.

Lemma synonym_step_throws (item : value) :
  nullish item → writes (synonym_step item) (Throw TypeError) [].
Proof. intros [-> | ->]; apply writes_lift_Throw. Qed.

(** X12.  An answer that is not empty and has no [null] or [undefined]
    item: the callback leaves one list item for every item of the answer,
    in the order of the answer, showing its word; the last child of the
    list item is its save button, and a click on it calls
    [addToSavedWords] with that word. *)
Theorem similarCallBack_items (data : list value) (p : page) :
  data ≠ [] → Forall (λ x, ¬ nullish x) data →
  similarCallBack data p
  = (Ok (),
     with_wordOutput ((λ x, synonym_item (word_of x)) <$> data)
       (with_outputDescription (description SimilarCallBack (wordInput p))
          p))
  ∧ ∀ i x q,
      data !! i = Some x →
      ∃ item button,
        wordOutput (similarCallBack data p).2 !! i = Some item
        ∧ last (childNodes item) = Some button
        ∧ click_node button q = addToSavedWords (word_of x) q.
Proof.
  intros Hne Hdata.
  assert (similarCallBack data p
          = (Ok (),
             with_wordOutput ((λ x, synonym_item (word_of x)) <$> data)
               (with_outputDescription
                  (description SimilarCallBack (wordInput p)) p))) as Hrun.
  { apply similarCallBack_writes; [done|].
    rewrite <-mjoin_singletons. apply writes_for_each. intros x Hx.
    apply synonym_step_writes. rewrite Forall_forall in Hdata. by apply Hdata. }
  split; [done|]. intros i x q Hi.
  exists (synonym_item (word_of x)), (save_button (word_of x)). split_and!.
  - rewrite Hrun. simpl. by rewrite list_lookup_fmap, Hi.
  - simpl. apply last_snoc.
  - done.
Qed.

Lemma similarCallBack_items_witness :
  similarCallBack [cat; hat] blank_page
  = (Ok (),
     with_wordOutput ((λ x, synonym_item (word_of x)) <$> [cat; hat])
       (with_outputDescription
          (description SimilarCallBack (wordInput blank_page)) blank_page))
  ∧ ∀ i x q,
      [cat; hat] !! i = Some x →
      ∃ item button,
        wordOutput (similarCallBack [cat; hat] blank_page).2 !! i = Some item
        ∧ last (childNodes item) = Some button
        ∧ click_node button q = addToSavedWords (word_of x) q.
Proof.
  apply (similarCallBack_items [cat; hat] blank_page); [done|].
  repeat (apply Forall_cons; split; [by intros [?|?]|]).
  by apply Forall_nil.
Defined.

(** X13.  An answer with a [null] or [undefined] item: the callback has
    left the list items of the items before it when reading [word] off it
    throws the [TypeError], and the items after it are not written. *)
Theorem similarCallBack_null_item (before after : list value) (x : value)
    (p : page) :
  Forall (λ y, ¬ nullish y) before → nullish x →
  similarCallBack (before ++ x :: after) p
  = (Throw TypeError,
     with_wordOutput ((λ y, synonym_item (word_of y)) <$> before)
       (with_outputDescription (description SimilarCallBack (wordInput p))
          p)).
Proof.
  intros Hbefore Hx. apply similarCallBack_writes.
  { by destruct before. }
  rewrite <-(app_nil_r (_ <$> before)), <-mjoin_singletons.
  apply writes_for_each_Throw.
  - intros y Hy. apply synonym_step_writes.
    rewrite Forall_forall in Hbefore. by apply Hbefore.
  - by apply synonym_step_throws.
Qed.

Lemma similarCallBack_null_item_witness :
  similarCallBack ([cat] ++ VPrim PNull :: [hat]) blank_page
  = (Throw TypeError,
     with_wordOutput ((λ y, synonym_item (word_of y)) <$> [cat])
       (with_outputDescription
          (description SimilarCallBack (wordInput blank_page)) blank_page)).
Proof.
  apply (similarCallBack_null_item [cat] [hat] (VPrim PNull) blank_page).
  - apply Forall_cons. split; [by intros [?|?]|by apply Forall_nil].
  - by right.
Defined.

(** ** Requests *)

Lemma datamuseRequest_settle (url : string) (callback : callback)
    (a : answer) (p : page) :
  handle (datamuseRequest url callback p) (Settle (length (pending p)) a)
  = datamuseRequest_then callback a (with_wordOutput [Html "Loading"] p).
Proof.
  unfold handle, datamuseRequest. simpl.
  rewrite list_lookup_middle by done. simpl.
  rewrite (delete_middle (pending p) []), app_nil_r.
  by destruct p.
Qed.

(** X5.  A request that fails: the error is written to the console, no
    callback runs, and the output goes on showing [Loading]. *)
Theorem datamuseRequest_rejected (url : string) (callback : callback)
    (err : exn) (p : page) :
  handle (datamuseRequest url callback p)
    (Settle (length (pending p)) (Rejected err))
  = with_console (console p ++ [ConsoleError err])
      (with_wordOutput [Html "Loading"] p).
Proof. rewrite datamuseRequest_settle. by destruct p. Qed.

(** X6.  A request that is answered: the body is written to the console
    and the callback replaces what the output showed.  The children it
    leaves in the output depend on the callback and the answer alone, the
    description names the text the input holds, and nothing else on the
    page changes; this also when the callback throws. *)
Theorem datamuseRequest_fulfilled (callback : callback)
    (data : list value) :
  ∃ ns, ∀ (url : string) (p : page),
    handle (datamuseRequest url callback p)
      (Settle (length (pending p)) (Fulfilled data))
    = with_wordOutput ns
        (with_outputDescription (description callback (wordInput p))
           (with_console (console p ++ [ConsoleLog data]) p)).
Proof.
  destruct (call_writes callback data) as (r & ns & Hcall).
  exists ns. intros url p. rewrite datamuseRequest_settle.
  unfold datamuseRequest_then. rewrite Hcall. by destruct p.
Qed.

(** X7.  An empty answer: whichever callback waits for it, the output
    holds the one paragraph [No results]. *)
Theorem datamuseRequest_no_results (url : string) (callback : callback)
    (p : page) :
  handle (datamuseRequest url callback p)
    (Settle (length (pending p)) (Fulfilled []))
  = with_wordOutput [Element "p" None [] [] [Text "No results"]]
      (with_outputDescription (description callback (wordInput p))
         (with_console (console p ++ [ConsoleLog []]) p)).
Proof.
  rewrite datamuseRequest_settle. unfold datamuseRequest_then.
  rewrite callback_empty. by destruct p.
Qed.

(** ** The buttons *)

Lemma elem_of_classList_add (t token : string) (tokens : list string) :
  t ∈ classList_add token tokens ↔ t = token ∨ t ∈ tokens.
Proof.
  unfold classList_add. case_decide as Hin.
  - split; [by right|]. by intros [-> | ?].
  - rewrite elem_of_app, list_elem_of_singleton. naive_solver.
Qed.

Lemma elem_of_classList_remove (t token : string) (tokens : list string) :
  t ∈ classList_remove token tokens ↔ t ≠ token ∧ t ∈ tokens.
Proof. unfold classList_remove. by rewrite list_elem_of_filter. Qed.

Lemma classList_contains_true (token : string) (tokens : list string) :
  classList_contains token tokens = true ↔ token ∈ tokens.
Proof. unfold classList_contains. by rewrite bool_decide_eq_true. Qed.

Lemma classList_contains_false (token : string) (tokens : list string) :
  classList_contains token tokens = false ↔ token ∉ tokens.
Proof. unfold classList_contains. by rewrite bool_decide_eq_false. Qed.

Lemma showRhymesButton_click_shows (p : page) :
  shows_rhymes (showRhymesButton_click p).
Proof.
  unfold shows_rhymes, highlighted, showRhymesButton_click, datamuseRequest.
  simpl.
  rewrite !elem_of_classList_add, !elem_of_classList_remove.
  naive_solver.
Qed.

Lemma showSynonymsButton_click_shows (p : page) :
  shows_synonyms (showSynonymsButton_click p).
Proof.
  unfold shows_synonyms, highlighted, showSynonymsButton_click,
    datamuseRequest. simpl.
  rewrite !elem_of_classList_remove, !elem_of_classList_add.
  naive_solver.
Qed.

(** X14.  A click on one of the two buttons, whatever classes the buttons
    had: the button clicked is highlighted and the other one is not, the
    output shows [Loading], and one more request is in flight, for the
    rhymes or the synonyms of the text the input holds. *)
Theorem button_click (p : page) :
  (shows_rhymes (handle p ClickShowRhymes)
   ∧ wordOutput (handle p ClickShowRhymes) = [Html "Loading"]
   ∧ pending (handle p ClickShowRhymes)
     = pending p
       ++ [Request ("https://api.datamuse.com/words?rel_rhy="
                    +:+ urlencoded (wordInput p)) RhymeCallBack])
  ∧ (shows_synonyms (handle p ClickShowSynonyms)
     ∧ wordOutput (handle p ClickShowSynonyms) = [Html "Loading"]
     ∧ pending (handle p ClickShowSynonyms)
       = pending p
         ++ [Request ("https://api.datamuse.com/words?ml="
                      +:+ urlencoded (wordInput p)) SimilarCallBack]).
Proof.
  split; split_and!.
  - apply showRhymesButton_click_shows.
  - done.
  - done.
  - apply showSynonymsButton_click_shows.
  - done.
  - done.
Qed.

(** What is not a click on one of the two buttons leaves their classes
    as they are. *)
Lemma handle_classes (p : page) (e : event) :
  ¬ is_click e →
  showRhymesButton (handle p e) = showRhymesButton p
  ∧ showSynonymsButton (handle p e) = showSynonymsButton p.
Proof.
  intros Hclick. destruct e as [| |key|text|word|i a]; simpl.
  - destruct Hclick. by left.
  - destruct Hclick. by right.
  - unfold wordInput_keydown. case_decide; [|done].
    by repeat case_match.
  - done.
  - done.
  - destruct (pending p !! i) as [[url callback]|]; [|done]. simpl.
    destruct a as [data|err]; [|done]. simpl.
    destruct (call_writes callback data) as (r & ns & Hcall).
    by rewrite Hcall.
Qed.

Lemma run_classes (p : page) (events : list event) :
  Forall (λ e, ¬ is_click e) events →
  showRhymesButton (run p events) = showRhymesButton p
  ∧ showSynonymsButton (run p events) = showSynonymsButton p.
Proof.
  intros Hevents. revert p.
  induction Hevents as [|e events He Hevents IH]; intros p; [done|].
  change (run p (e :: events)) with (run (handle p e) events).
  destruct (IH (handle p e)) as [-> ->]. by apply handle_classes.
Qed.

Lemma run_app (p : page) (events events' : list event) :
  run p (events ++ events') = run (run p events) events'.
Proof. apply foldl_app. Qed.

(** X15.  The Enter key repeats the last click: whatever happened before
    a click on one of the two buttons, and whatever happens after it that
    is not a click on them (typing, saving words, answers arriving), the
    Enter key then sends exactly one request, of the kind of the button
    clicked, for the text the input holds. *)
Theorem enter_repeats_last_click (p : page) (before after : list event) :
  Forall (λ e, ¬ is_click e) after →
  (let q := run p (before ++ ClickShowRhymes :: after) in
   handle q (Keydown "Enter")
   = datamuseRequest (getDatamuseRhymeUrl (wordInput q) q) RhymeCallBack q)
  ∧ (let q := run p (before ++ ClickShowSynonyms :: after) in
     handle q (Keydown "Enter")
     = datamuseRequest (getDatamuseSimilarToUrl (wordInput q) q)
         SimilarCallBack q).
Proof.
  intros Hafter. split; intros q; unfold q; clear q;
    rewrite run_app;
    match goal with
    | |- context [run ?p0 (?e :: after)] =>
        change (run p0 (e :: after)) with (run (handle p0 e) after);
        pose proof (run_classes (handle p0 e) after Hafter) as [Hr Hs];
        set (q := run (handle p0 e) after) in *
    end;
    simpl; unfold wordInput_keydown; rewrite decide_True by done.
  - destruct (showRhymesButton_click_shows (run p before))
      as (Hrp & _ & Hsp & _).
    change (showRhymesButton_click (run p before))
      with (handle (run p before) ClickShowRhymes) in Hrp, Hsp.
    rewrite <-Hr in Hrp. rewrite <-Hs in Hsp.
    apply classList_contains_true in Hrp.
    apply classList_contains_false in Hsp.
    by rewrite Hsp, Hrp.
  - destruct (showSynonymsButton_click_shows (run p before))
      as (Hsp & _ & Hrp & _).
    change (showSynonymsButton_click (run p before))
      with (handle (run p before) ClickShowSynonyms) in Hrp, Hsp.
    rewrite <-Hr in Hrp. rewrite <-Hs in Hsp.
    apply classList_contains_true in Hsp.
    apply classList_contains_false in Hrp.
    rewrite Hsp. simpl. by rewrite Hrp.
Qed.

Lemma enter_repeats_last_click_witness :
  (let q := run blank_page
              ([] ++ ClickShowRhymes :: [Edit "cat"; Save (PStr "hat")]) in
   handle q (Keydown "Enter")
   = datamuseRequest (getDatamuseRhymeUrl (wordInput q) q) RhymeCallBack q)
  ∧ (let q := run blank_page
                ([] ++ ClickShowSynonyms :: [Edit "cat"; Save (PStr "hat")]) in
     handle q (Keydown "Enter")
     = datamuseRequest (getDatamuseSimilarToUrl (wordInput q) q)
         SimilarCallBack q).
Proof.
  apply (enter_repeats_last_click blank_page []
           [Edit "cat"; Save (PStr "hat")]).
  repeat (apply Forall_cons; split; [by intros [?|?]|]).
  by apply Forall_nil.
Defined.

(** X25.  A key other than Enter changes nothing.  Enter changes nothing
    either while neither button is highlighted, as on a page whose markup
    gives neither of them the class [btn-primary]; and when both are, it
    sends two requests, the one for the synonyms first. *)
Theorem keydown_edges (p : page) (key : string) :
  (key ≠ "Enter" → handle p (Keydown key) = p)
  ∧ (¬ highlighted (showRhymesButton p) →
     ¬ highlighted (showSynonymsButton p) →
     handle p (Keydown "Enter") = p)
  ∧ (highlighted (showRhymesButton p) →
     highlighted (showSynonymsButton p) →
     pending (handle p (Keydown "Enter"))
     = pending p
       ++ [Request (getDatamuseSimilarToUrl (wordInput p) p) SimilarCallBack;
           Request (getDatamuseRhymeUrl (wordInput p) p) RhymeCallBack]
     ∧ wordOutput (handle p (Keydown "Enter")) = [Html "Loading"]).
Proof.
  split_and!.
  - intros Hkey. simpl. unfold wordInput_keydown.
    by rewrite decide_False.
  - intros Hr%classList_contains_false Hs%classList_contains_false.
    simpl. unfold wordInput_keydown. rewrite decide_True by done.
    rewrite Hs. by rewrite Hr.
  - intros Hr%classList_contains_true Hs%classList_contains_true.
    simpl. unfold wordInput_keydown. rewrite decide_True by done.
    rewrite Hs. simpl. rewrite Hr. simpl.
    by rewrite <-(assoc_L (++)).
Qed.

(** ** Answers that arrive late *)

Lemma handle_Settle (p : page) (i : nat) (r : request) (data : list value) :
  pending p !! i = Some r →
  ∃ res ns,
    (∀ q, call (request_callback r) data q
          = (res, with_wordOutput ns
                    (with_outputDescription
                       (description (request_callback r) (wordInput q)) q)))
    ∧ wordOutput (handle p (Settle i (Fulfilled data))) = ns
    ∧ outputDescription (handle p (Settle i (Fulfilled data)))
      = description (request_callback r) (wordInput p)
    ∧ wordInput (handle p (Settle i (Fulfilled data))) = wordInput p
    ∧ pending (handle p (Settle i (Fulfilled data))) = delete i (pending p).
Proof.
  intros Hr. destruct (call_writes (request_callback r) data)
    as (res & ns & Hcall).
  exists res, ns. split; [done|]. simpl. rewrite Hr. simpl.
  rewrite Hcall. by destruct p.
Qed.

(** X16.  The description names the text the input holds when the answer
    arrives, not the text the request was sent for: when the user changes
    the text while a request is in flight, the description and the words
    shown under it belong to different texts. *)
Theorem description_names_later_text (p : page) (text text' : string)
    (data : list value) :
  pending (run p [Edit text; ClickShowRhymes])
  = pending p
    ++ [Request ("https://api.datamuse.com/words?rel_rhy="
                 +:+ urlencoded text) RhymeCallBack]
  ∧ outputDescription
      (run p [Edit text; ClickShowRhymes; Edit text';
              Settle (length (pending p)) (Fulfilled data)])
    = [Html ("Words that rhyme with " +:+ text')]
  ∧ pending (run p [Edit text; ClickShowSynonyms])
    = pending p
      ++ [Request ("https://api.datamuse.com/words?ml="
                   +:+ urlencoded text) SimilarCallBack]
  ∧ outputDescription
      (run p [Edit text; ClickShowSynonyms; Edit text';
              Settle (length (pending p)) (Fulfilled data)])
    = [Html ("Words with a similar meaning to " +:+ text')].
Proof.
  split_and!.
  - done.
  - change (run p [Edit text; ClickShowRhymes; Edit text';
                   Settle (length (pending p)) (Fulfilled data)])
      with (handle (run p [Edit text; ClickShowRhymes; Edit text'])
              (Settle (length (pending p)) (Fulfilled data))).
    edestruct (handle_Settle (run p [Edit text; ClickShowRhymes; Edit text'])
                 (length (pending p))) as (res & ns & _ & _ & -> & _).
    { simpl. by apply list_lookup_middle. }
    done.
  - done.
  - change (run p [Edit text; ClickShowSynonyms; Edit text';
                   Settle (length (pending p)) (Fulfilled data)])
      with (handle (run p [Edit text; ClickShowSynonyms; Edit text'])
              (Settle (length (pending p)) (Fulfilled data))).
    edestruct (handle_Settle
                 (run p [Edit text; ClickShowSynonyms; Edit text'])
                 (length (pending p))) as (res & ns & _ & _ & -> & _).
    { simpl. by apply list_lookup_middle. }
    done.
Qed.

Lemma shows_synonyms_classes (p q : page) :
  showRhymesButton q = showRhymesButton p →
  showSynonymsButton q = showSynonymsButton p →
  shows_synonyms p → shows_synonyms q.
Proof. unfold shows_synonyms. by intros -> ->. Qed.

Lemma lookup_last_of_two {A} (l : list A) (a b : A) :
  (l ++ [a; b]) !! S (length l) = Some b.
Proof. induction l as [|x l IH]; [done|]. exact IH. Qed.

Lemma delete_last_of_two {A} (l : list A) (a b : A) :
  delete (S (length l)) (l ++ [a; b]) = l ++ [a].
Proof. induction l as [|x l IH]; [done|]. simpl. by f_equal. Qed.

Lemma run_cons (p : page) (e : event) (events : list event) :
  run p (e :: events) = run (handle p e) events.
Proof. reflexivity. Qed.

Lemma run_nil (p : page) : run p [] = p.
Proof. reflexivity. Qed.

Lemma two_clicks (p : page) :
  pending (handle (handle p ClickShowRhymes) ClickShowSynonyms)
  = pending p
    ++ [Request (getDatamuseRhymeUrl (wordInput p) p) RhymeCallBack;
        Request (getDatamuseSimilarToUrl (wordInput p) p) SimilarCallBack]
  ∧ wordInput (handle (handle p ClickShowRhymes) ClickShowSynonyms)
    = wordInput p
  ∧ shows_synonyms (handle (handle p ClickShowRhymes) ClickShowSynonyms).
Proof.
  split_and!.
  - simpl. by rewrite <-(assoc_L (++)).
  - done.
  - apply showSynonymsButton_click_shows.
Qed.

Lemma Settle_not_click (i : nat) (a : answer) : ¬ is_click (Settle i a).
Proof. by intros [?|?]. Qed.

(** X17.  Answers are shown in the order in which they arrive.  After a
    click on the rhymes button and then one on the synonyms button, when
    the synonyms are answered first and the rhymes last, the page ends
    with the synonyms button highlighted and the rhymes in the output,
    under the description of the rhymes. *)
Theorem late_answer_wins (p : page) (rhymes synonyms : list value) :
  let q := run p [ClickShowRhymes; ClickShowSynonyms;
                  Settle (S (length (pending p))) (Fulfilled synonyms);
                  Settle (length (pending p)) (Fulfilled rhymes)] in
  shows_synonyms q
  ∧ wordOutput q = wordOutput (rhymeCallBack rhymes p).2
  ∧ outputDescription q = description RhymeCallBack (wordInput p)
  ∧ pending q = pending p.
Proof.
  intros q. unfold q. clear q. rewrite !run_cons, run_nil.
  destruct (two_clicks p) as (Hpending2 & Hinput2 & Hshows2).
  revert Hpending2 Hinput2 Hshows2.
  generalize (handle (handle p ClickShowRhymes) ClickShowSynonyms).
  intros p2 Hpending2 Hinput2 Hshows2.
  destruct (handle_classes p2
              (Settle (S (length (pending p))) (Fulfilled synonyms))
              (Settle_not_click _ _)) as [Hr3 Hs3].
  destruct (handle_Settle p2 (S (length (pending p)))
              (Request (getDatamuseSimilarToUrl (wordInput p) p)
                 SimilarCallBack) synonyms)
    as (res2 & ns2 & _ & _ & _ & Hinput3 & Hpending3).
  { rewrite Hpending2. apply lookup_last_of_two. }
  rewrite Hpending2, delete_last_of_two in Hpending3.
  rewrite Hinput2 in Hinput3.
  revert Hr3 Hs3 Hinput3 Hpending3.
  generalize (handle p2 (Settle (S (length (pending p)))
                           (Fulfilled synonyms))).
  intros p3 Hr3 Hs3 Hinput3 Hpending3.
  destruct (handle_classes p3
              (Settle (length (pending p)) (Fulfilled rhymes))
              (Settle_not_click _ _)) as [Hr4 Hs4].
  destruct (handle_Settle p3 (length (pending p))
              (Request (getDatamuseRhymeUrl (wordInput p) p) RhymeCallBack)
              rhymes)
    as (res1 & ns1 & Hcall & Hout & Hdescr & _ & Hpending).
  { rewrite Hpending3. by apply list_lookup_middle. }
  split_and!.
  - apply (shows_synonyms_classes p2); [congruence|congruence|done].
  - rewrite Hout. specialize (Hcall p). simpl in Hcall. by rewrite Hcall.
  - by rewrite Hdescr, Hinput3.
  - rewrite Hpending, Hpending3.
    by rewrite (delete_middle (pending p) []), app_nil_r.
Qed.

(** * groupBy: further properties *)

(** ** When no two keys share a string form and none is [__proto__] *)

(** X18.  When no two keys computed on the input have the same string
    form, and none has the string form [__proto__], nothing is lost and
    nothing is repeated: the groups of the result, one after the other,
    are the input rearranged, and their sizes add up to its length.  Number
    keys are integers of magnitude below 2^53, where the string form is the
    exact numeral, and a field name names nothing inherited. *)
Theorem groupBy_distinct_permutation objects property result :
  groupBy objects property = Ok result →
  reads_own_fields property objects →
  safe_keys (key_selector property) objects →
  distinct_key_strings (key_selector property) objects →
  flatten result ≡ₚ objects ∧ group_sizes result = length objects.
Proof.
  intros Hresult _ _ Hdistinct. split; [|by eapply groupBy_total_distinct].
  apply groupBy_Ok in Hresult as [Hret ->].
  destruct (flatten_distinct _ objects Hret Hdistinct) as (ks & Hks & ->).
  apply join_members_Permutation.
  - rewrite Hks. apply emitted_NoDup.
  - intros x Hx. rewrite Hks. apply elem_of_emitted. eauto.
Qed.

Lemma steve_jack_distinct :
  distinct_key_strings (key_selector (PValue (PStr "team"))) [steve; jack].
Proof.
  split.
  - intros x y Hx Hy.
    repeat (apply elem_of_cons in Hx as [->|Hx]);
      repeat (apply elem_of_cons in Hy as [->|Hy]);
      try (by apply elem_of_nil in Hx); try (by apply elem_of_nil in Hy);
      by vm_compute.
  - intros x Hx.
    repeat (apply elem_of_cons in Hx as [->|Hx]);
      try (by apply elem_of_nil in Hx); by vm_compute.
Qed.

Lemma steve_jack_own_fields :
  reads_own_fields (PValue (PStr "team")) [steve; jack].
Proof.
  split_and!; [done|by apply (bool_decide_unpack _)|by repeat constructor].
Qed.

Lemma groupBy_distinct_permutation_witness :
  flatten [("blue", Some [steve]); ("red", Some [jack])] ≡ₚ [steve; jack]
  ∧ group_sizes [("blue", Some [steve]); ("red", Some [jack])]
    = length [steve; jack].
Proof.
  apply (groupBy_distinct_permutation [steve; jack] (PValue (PStr "team"))).
  - by vm_compute.
  - apply steve_jack_own_fields.
  - by repeat constructor.
  - apply steve_jack_distinct.
Defined.

Lemma groupBy_partition_distinct_witness :
  ∃ k g, key_selector (PValue (PStr "team")) jack = Ok k
         ∧ obj_get [("blue", Some [steve]); ("red", Some [jack])]
             (to_property_key k) = Some (Some g)
         ∧ jack ∈ g
         ∧ ∀ s g', (s, Some g')
                   ∈ obj_entries [("blue", Some [steve]); ("red", Some [jack])] →
                   jack ∈ g' → s = to_property_key k.
Proof.
  apply (groupBy_partition_distinct [steve; jack] (PValue (PStr "team"))).
  - by vm_compute.
  - apply steve_jack_own_fields.
  - by repeat constructor.
  - apply steve_jack_distinct.
  - right. left.
Defined.

Lemma groupBy_regroup_distinct_witness :
  groupBy (flatten [("blue", Some [steve]); ("red", Some [jack])])
    (PValue (PStr "team"))
  = Ok [("blue", Some [steve]); ("red", Some [jack])].
Proof.
  apply (groupBy_regroup_distinct [steve; jack] (PValue (PStr "team"))).
  - by vm_compute.
  - apply steve_jack_own_fields.
  - by repeat constructor.
  - apply steve_jack_distinct.
Defined.

Lemma groupBy_regroup_same_groups_witness :
  ∃ result',
    groupBy (flatten [("undefined", Some [rec []]); ("z", Some [str_rec "z"])])
      (PValue (PStr "n")) = Ok result'
    ∧ ∀ s, obj_get result' s
           = obj_get [("undefined", Some [rec []]); ("z", Some [str_rec "z"])]
               s.
Proof.
  apply (groupBy_regroup_same_groups
           [str_rec "undefined"; str_rec "z"; rec []] (PValue (PStr "n"))).
  by vm_compute.
Defined.

(** ** The key [__proto__] *)

(** X22.  A record whose key is the string [__proto__] is lost: the
    result has no property of that name, and the record stands in none of
    its groups. *)
Theorem groupBy_proto_key_lost objects property result x :
  groupBy objects property = Ok result →
  x ∈ objects →
  key_selector property x = Ok (PStr "__proto__") →
  obj_get result "__proto__" = None
  ∧ ∀ s g, (s, Some g) ∈ obj_entries result → x ∉ g.
Proof.
  intros [Hret ->]%groupBy_Ok Hx Hkey. split.
  - apply dict_get_None. rewrite elem_of_result_keys. by intros [? _].
  - intros s g Hentry%elem_of_obj_entries Hin.
    assert (s ≠ "__proto__") as Hs.
    { assert (s ∈ dict_keys
                (foldl (emit (grouped (key_selector property) objects)) []
                   (emitted (key_selector property) objects))) as Hkeys
        by (apply dict_get_is_Some; eauto).
      by apply elem_of_result_keys in Hkeys as [? _]. }
    apply result_get_Some in Hentry as (k & _ & Hk & [= ->]).
    apply elem_of_members in Hin as [_ Hxk].
    rewrite (returns_on_key_of _ _ _ Hkey) in Hxk. by subst.
Qed.

Lemma groupBy_proto_key_lost_witness :
  obj_get [("a", Some [str_rec "a"])] "__proto__" = None
  ∧ ∀ s g, (s, Some g) ∈ obj_entries [("a", Some [str_rec "a"])] →
           str_rec "__proto__" ∉ g.
Proof.
  apply (groupBy_proto_key_lost [str_rec "__proto__"; str_rec "a"]
           (PValue (PStr "n"))).
  - by vm_compute.
  - left.
  - by vm_compute.
Defined.

(** ** The first failure *)

Lemma group_loop_first_Throw {A} (sel : A → res prim) m before x after e :
  returns_on sel before → sel x = Throw e →
  group_loop sel m (before ++ x :: after) = Throw e.
Proof.
  intros Hbefore Hx. revert m.
  induction Hbefore as [|y before [k Hy] Hbefore IH]; intros m; simpl.
  - by rewrite (group_step_Throw _ _ _ e Hx).
  - rewrite (group_step_Ok _ _ _ k Hy). simpl. apply IH.
Qed.

(** X23.  [groupBy] stops at the first element on which the key selector
    throws, and throws what the selector threw there: the elements after
    it are not looked at. *)
Theorem groupBy_throws_first before x after property e :
  Forall (λ y, ∃ k, key_selector property y = Ok k) before →
  key_selector property x = Throw e →
  groupBy (before ++ x :: after) property = Throw e.
Proof.
  intros Hbefore Hx. unfold groupBy.
  by rewrite (group_loop_first_Throw _ _ before x after e Hbefore Hx).
Qed.

Lemma groupBy_throws_first_witness :
  groupBy ([num_rec 1] ++ str_rec "a" :: [VPrim PNull])
    (PFunction number_key)
  = Throw (UserError "no number").
Proof.
  apply (groupBy_throws_first [num_rec 1] (str_rec "a") [VPrim PNull]
           (PFunction number_key)).
  - apply Forall_cons. split; [|by apply Forall_nil].
    exists (PNum 1). by vm_compute.
  - by vm_compute.
Defined.

(** ** The arrays of the result are new *)

Lemma elem_of_dict_set {K V} `{!EqDecision K} (m : dict K V) k v k' v' :
  (k', v') ∈ dict_set m k v → (k', v') ∈ m ∨ (k' = k ∧ v' = v).
Proof.
  induction m as [|[k0 v0] m IH]; simpl.
  - intros [= -> ->]%list_elem_of_singleton. by right.
  - case_decide as Hk; intros [Heq|Hin]%elem_of_cons.
    + injection Heq as -> ->. by right.
    + left. by right.
    + left. rewrite Heq. left.
    + destruct (IH Hin) as [?|?]; [left; by right|by right].
Qed.

(** What the second loop stores in the result: under the string form of
    a key, what the Map holds for that key. *)
Lemma emit_loop_props (lm lr : Store.loc) (m : jsmap (list Store.sval))
    (entries : dict prim Store.sval) σ props ks :
  lr ≠ lm →
  emit_inv lm lr m entries σ props →
  ∃ props',
    Store.for_of ks (Store.emit (Store.SRef lm) (Store.SRef lr)) σ
    = (Ok (), <[lr:=Store.CObject props']> σ)
    ∧ ∀ s v, (s, v) ∈ props' →
        (s, v) ∈ props
        ∨ ∃ k, k ∈ ks ∧ s = to_string k
               ∧ v = default (Store.SPrim PUndefined) (dict_get entries k).
Proof.
  intros Hne. revert σ props.
  induction ks as [|k ks IH]; intros σ props Hinv.
  { exists props. destruct Hinv as (_ & Hlr & _). simpl. split.
    - by rewrite insert_id.
    - intros s v Hin. by left. }
  pose proof Hinv as (Hmap & Hlr & Hgroups).
  rewrite for_of_cons. unfold Store.emit at 1.
  rewrite bind_run, (map_get_run _ _ _ _ Hmap), (obj_set_run _ _ _ _ _ Hlr).
  simpl. unfold to_property_key.
  destruct (decide (to_string k = "__proto__")) as [Hk|Hk].
  { destruct (IH σ props Hinv) as (props' & Hrun & Hprops).
    exists props'. split; [done|]. intros s v Hin.
    destruct (Hprops s v Hin) as [?|(k' & ? & ?)]; [by left|].
    right. exists k'. split; [by right|done]. }
  set (v := default (Store.SPrim PUndefined) (dict_get entries k)).
  set (props1 := dict_set props (to_string k) v).
  set (σ1 := <[lr:=Store.CObject props1]> σ).
  assert (emit_inv lm lr m entries σ1 props1) as Hinv1.
  { unfold σ1. split_and!.
    - by rewrite lookup_insert_ne.
    - by rewrite lookup_insert_eq.
    - intros k' Hk'. destruct (Hgroups k' Hk') as (l & g & ? & ? & ? & ?).
      exists l, g. by rewrite lookup_insert_ne. }
  destruct (IH σ1 props1 Hinv1) as (props' & Hrun & Hprops).
  exists props'. unfold σ1 in Hrun. rewrite insert_insert_eq in Hrun.
  split; [done|]. intros s w Hin.
  destruct (Hprops s w Hin) as [Hold|(k' & ? & ?)].
  - apply elem_of_dict_set in Hold as [?|[-> ->]]; [by left|].
    right. exists k. split; [left|done].
  - right. exists k'. split; [by right|done].
Qed.

(** X24.  The arrays of the result are new: every property of the object
    returned holds a reference to an array at an address that was not in
    use before the call, so it is not the input array nor any object the
    caller had, and no two properties hold the same array. *)
Theorem groupBy_fresh_groups (σ σ' : Store.store) lo elems property v :
  σ !! lo = Some (Store.CArray elems) →
  Forall (Store.is_record σ) elems →
  Store.groupBy (Store.SRef lo) property σ = (Ok v, σ') →
  ∃ lr props,
    v = Store.SRef lr
    ∧ σ' !! lr = Some (Store.CObject props)
    ∧ (∀ s w, (s, w) ∈ props →
         ∃ l g, w = Store.SRef l ∧ σ !! l = None ∧ l ≠ lr ∧ l ≠ lo
                ∧ σ' !! l = Some (Store.CArray g))
    ∧ ∀ s1 s2 w, (s1, w) ∈ props → (s2, w) ∈ props → s1 = s2.
Proof.
  intros Hlo Hrecords.
  set (sel0 := λ x, key_selector property (Store.reify σ x)).
  unfold Store.groupBy. cbv zeta.
  rewrite bind_run, fmap_run. unfold Store.alloc at 1.
  pose proof (alloc_fresh σ) as Hlm. set (lm := fresh (dom σ)) in *.
  set (σ1 := <[lm:=Store.CMap []]> σ).
  assert (lm ≠ lo) as Hlmlo by (intros Heq; rewrite Heq in Hlm; congruence).
  rewrite bind_run, (array_elems_run σ1 lo elems)
    by (unfold σ1; by rewrite lookup_insert_ne).
  assert (map_rep σ σ1 lm [] []) as Hrep1.
  { split; try done.
    - by apply insert_subseteq.
    - apply lookup_insert_eq.
    - intros k Hk. by apply elem_of_nil in Hk. }
  destruct (group_loop_run σ lm (key_selector property) σ1 [] [] elems
              Hrep1 Hrecords) as (σ2 & Hframe2 & Hloop).
  fold sel0 in Hloop. rewrite bind_run.
  destruct (group_loop sel0 [] elems) as [m|e] eqn:Hgroup.
  2:{ rewrite Hloop. intros [=]. }
  destruct Hloop as (-> & entries & Hrep2).
  destruct Hrep2 as [_ _ Hmap2 Hkeys2 Hgroups2 Hinj2].
  rewrite bind_run, fmap_run. unfold Store.alloc at 1.
  pose proof (alloc_fresh σ2) as Hlr. set (lr := fresh (dom σ2)) in *.
  set (σ3 := <[lr:=Store.CObject []]> σ2).
  assert (lr ≠ lm) as Hlrlm by (intros Heq; rewrite Heq in Hlr; congruence).
  rewrite bind_run, (map_keys_run σ3 lm entries)
    by (unfold σ3; by rewrite lookup_insert_ne).
  assert (emit_inv lm lr m entries σ3 []) as Hinv.
  { unfold σ3. split_and!.
    - by rewrite lookup_insert_ne.
    - apply lookup_insert_eq.
    - intros k Hk. destruct (Hgroups2 k Hk) as (l & g & ? & ? & ? & ? & Hcell).
      exists l, g. split_and!; [done..| |].
      + intros ->. congruence.
      + rewrite lookup_insert_ne; [done|]. intros <-. congruence. }
  destruct (emit_loop_props lm lr m entries σ3 []
              (array_sort (dict_keys entries)) Hlrlm Hinv)
    as (props & Hrun & Hprops).
  rewrite bind_run, Hrun. unfold σ3. rewrite insert_insert_eq.
  intros [= <- <-]. exists lr, props.
  assert (∀ s w, (s, w) ∈ props →
            ∃ k l g, s = to_string k ∧ dict_get entries k = Some (Store.SRef l)
                     ∧ w = Store.SRef l ∧ σ !! l = None
                     ∧ σ2 !! l = Some (Store.CArray g)) as Hall.
  { intros s w Hin.
    destruct (Hprops s w Hin) as [Hnil|(k & Hk & -> & ->)];
      [by apply elem_of_nil in Hnil|].
    unfold array_sort in Hk. rewrite sort_by_Permutation in Hk.
    rewrite Hkeys2 in Hk.
    destruct (Hgroups2 k Hk) as (l & g & Hentry & _ & _ & Hfresh & Hcell).
    exists k, l, g. rewrite Hentry. done. }
  split_and!.
  - done.
  - apply lookup_insert_eq.
  - intros s w Hin.
    destruct (Hall s w Hin) as (k & l & g & _ & _ & -> & Hfresh & Hcell).
    exists l, g. split_and!; [done|done| | |].
    + intros ->. congruence.
    + intros ->. congruence.
    + rewrite lookup_insert_ne; [done|]. intros <-. congruence.
  - intros s1 s2 w Hin1 Hin2.
    destruct (Hall s1 w Hin1) as (k1 & l1 & g1 & -> & Hk1 & -> & _).
    destruct (Hall s2 _ Hin2) as (k2 & l2 & g2 & -> & Hk2 & [= <-] & _).
    by rewrite (Hinj2 k1 k2 l1 Hk1 Hk2).
Qed.

Lemma groupBy_fresh_groups_witness :
  ∃ lr props,
    Store.SRef 8%positive = Store.SRef lr
    ∧ (Store.groupBy (Store.SRef 4%positive) (PValue (PStr "team"))
         team_store).2 !! lr = Some (Store.CObject props)
    ∧ (∀ s w, (s, w) ∈ props →
         ∃ l g, w = Store.SRef l ∧ team_store !! l = None ∧ l ≠ lr
                ∧ l ≠ 4%positive
                ∧ (Store.groupBy (Store.SRef 4%positive)
                     (PValue (PStr "team")) team_store).2 !! l
                  = Some (Store.CArray g))
    ∧ ∀ s1 s2 w, (s1, w) ∈ props → (s2, w) ∈ props → s1 = s2.
Proof.
  eapply (groupBy_fresh_groups team_store _ 4%positive
            [Store.SRef 1%positive; Store.SRef 2%positive;
             Store.SRef 3%positive]
            (PValue (PStr "team"))).
  - vm_compute. reflexivity.
  - repeat constructor; eexists; vm_compute; reflexivity.
  - by vm_compute.
Defined.
